(** * The augeas entry store (src/augeas.c): model and verified properties

    The store is a circular doubly-linked list of path/value entries that
    lives in the C heap.  The development embeds the heap as a finite map
    from addresses to entry records, the C functions as functions in a
    small state monad whose failure stands for undefined behaviour
    (a dangling or null dereference, a loop that never comes back to
    [head], a write outside an array), and proves the properties of the
    public operations over every well-formed store. *)

From Stdlib Require Import Ascii String.
From stdpp Require Import ssreflect base numbers option list gmap fin_maps sets strings.

#[local] Set Warnings "-rewrite-rw,-clear-no-such-hyp".

Abbreviation cstr := (list ascii).
Abbreviation ptr := N.

(** C strings are the lists of their characters before the terminator;
    a list never holds the NUL character itself. *)
Definition str (s : string) : cstr := list_ascii_of_string s.

Definition NUL : ascii := Ascii.zero.
Definition SEP : ascii := "/"%char.
Definition NULL : ptr := 0%N.

Definition P_SYSTEM : cstr := str "/system".
Definition P_SYSTEM_CONFIG : cstr := str "/system/config".

(** ** libc string functions *)

(** [s[i]]: reading at the end of the string yields the terminator. *)
Definition char_at (s : cstr) (i : nat) : ascii := default NUL (s !! i).

Definition strlen (s : cstr) : nat := length s.

(** [strncmp(a, b, n) == 0] *)
Fixpoint strncmp_eq (a b : cstr) (n : nat) {struct n} : bool :=
  match n with
  | 0 => true
  | S n' =>
      match a, b with
      | [], [] => true
      | x :: a', y :: b' => if decide (x = y) then strncmp_eq a' b' n' else false
      | _, _ => false
      end
  end.

(** [strchr(s, c)] and [strrchr(s, c)] as the offset of the character
    found, [None] for a null result. *)
Fixpoint strchr (s : cstr) (c : ascii) : option nat :=
  match s with
  | [] => None
  | x :: s' => if decide (x = c) then Some 0 else S <$> strchr s' c
  end.

Fixpoint strrchr (s : cstr) (c : ascii) : option nat :=
  match s with
  | [] => None
  | x :: s' =>
      match strrchr s' c with
      | Some i => Some (S i)
      | None => if decide (x = c) then Some 0 else None
      end
  end.

(** ** The macros and helpers of internal.h *)

Definition STREQ (a b : cstr) : bool := bool_decide (a = b).
Definition STREQLEN (a b : cstr) (n : nat) : bool := strncmp_eq a b n.
Definition STRNEQLEN (a b : cstr) (n : nat) : bool := negb (strncmp_eq a b n).

(** Modelled from the spec: internal.h is not part of the sources read
    here.  PathLength: the length of [p] excluding a single trailing
    separator, if [p] is longer than one character. *)
Definition pathlen (p : cstr) : nat :=
  let len := strlen p in
  if bool_decide (1 < len) && bool_decide (char_at p (len - 1) = SEP)
  then len - 1 else len.

(** Modelled from the spec: internal.h is not part of the sources read
    here.  IsPrefix: [p1] is a prefix of [p2] at a separator boundary;
    the length of [p1] is its PathLength and the boundary test is the one
    [aug_rm] spells out inline. *)
Definition pathprefix (p1 p2 : cstr) : bool :=
  let l1 := pathlen p1 in
  STREQLEN p1 p2 l1 &&
  (bool_decide (char_at p2 l1 = NUL) || bool_decide (char_at p2 l1 = SEP)).

(** ** fnmatch(3) with FNM_NOESCAPE

    The pattern language of POSIX in the C locale, with no flag but
    FNM_NOESCAPE: a backslash is an ordinary character, and because
    FNM_PATHNAME is not set a slash in the string is matched by [*] and
    [?] like any other character.  Bracket expressions are outside the
    model: a pattern gives [None] where matching comes to an opening
    bracket. *)

Fixpoint fnmatch_from (fuel : nat) (p : cstr) : cstr → option bool :=
  match fuel with
  | 0 => λ _, None
  | S fuel' =>
      match p with
      | [] => λ s, Some (bool_decide (s = []))
      | c :: p1 =>
          let literal := λ s : cstr,
            match s with
            | x :: s1 => if decide (x = c) then fnmatch_from fuel' p1 s1 else Some false
            | [] => Some false
            end in
          if bool_decide (c = "*"%char) then
            fix star (s : cstr) : option bool :=
              match fnmatch_from fuel' p1 s with
              | Some false =>
                  match s with
                  | _ :: s1 => star s1
                  | [] => Some false
                  end
              | r => r
              end
          else if bool_decide (c = "?"%char) then
            λ s, match s with
                 | _ :: s1 => fnmatch_from fuel' p1 s1
                 | [] => Some false
                 end
          else if bool_decide (c = "["%char) then λ _, None
          else literal
      end
  end.

(** [fnmatch(pattern, s, FNM_NOESCAPE) == 0] *)
Definition fnmatch_noescape (pattern s : cstr) : option bool :=
  fnmatch_from (S (length pattern)) pattern s.

(** ** The heap and the store *)

(** [struct aug_entry].  A null [value] is [None]; the null [path] of a
    node fresh from [calloc] is the empty list, which the code never reads
    before it assigns the field.  [e_literal] tells where [path] points:
    to a string literal ([true]), as in the two special entries, or to
    memory from [strdup] or nowhere ([false]).  The strings themselves
    are values; a [value] is null or comes from [strdup]. *)
Record aug_entry := Entry {
  e_path : cstr;
  e_literal : bool;
  e_value : option cstr;
  e_next : ptr;
  e_prev : ptr
}.

(** [e->path = strdup(v)] once the copy is made, and [e->path = v] for a
    string literal [v]. *)
Definition set_path (v : cstr) (e : aug_entry) : aug_entry :=
  Entry v false (e_value e) (e_next e) (e_prev e).
Definition set_path_literal (v : cstr) (e : aug_entry) : aug_entry :=
  Entry v true (e_value e) (e_next e) (e_prev e).
Definition set_value (v : option cstr) (e : aug_entry) : aug_entry :=
  Entry (e_path e) (e_literal e) v (e_next e) (e_prev e).
Definition set_next (v : ptr) (e : aug_entry) : aug_entry :=
  Entry (e_path e) (e_literal e) (e_value e) v (e_prev e).
Definition set_prev (v : ptr) (e : aug_entry) : aug_entry :=
  Entry (e_path e) (e_literal e) (e_value e) (e_next e) v.

(** The allocated entries, the global [head], and the outcomes of the
    coming calls of [calloc] and [strdup] ([true]: the call fails; past
    the end of the list every call succeeds). *)
Record world := World {
  heap : gmap N aug_entry;
  head : ptr;
  alloc_fail : list bool
}.

Definition with_heap (h : gmap N aug_entry) (w : world) : world :=
  World h (head w) (alloc_fail w).

(** Computations on the store; [None] is undefined behaviour. *)
Definition M (A : Type) : Type := world → option (A * world).

Definition ret {A} (x : A) : M A := λ w, Some (x, w).
Definition bind {A B} (m : M A) (k : A → M B) : M B :=
  λ w, match m w with
       | Some (x, w') => k x w'
       | None => None
       end.
Definition undefined {A} : M A := λ _, None.

Notation "'do' x ← m ; k" := (bind m (λ x, k))
  (at level 10, x name, m at level 100, k at level 200,
   format "'[v' 'do'  x  ←  m ;  '/' k ']'").
Notation "'run' m ; k" := (bind m (λ _, k))
  (at level 10, m at level 100, k at level 200,
   format "'[v' 'run'  m ;  '/' k ']'").

(** A computation that only reads the store. *)
Definition rd {A} (f : world → option A) : M A :=
  λ w, match f w with
       | Some x => Some (x, w)
       | None => None
       end.

Definition get_head : M ptr := λ w, Some (head w, w).
Definition set_head (p : ptr) : M unit :=
  λ w, Some (tt, World (heap w) p (alloc_fail w)).

(** The fields of the entry at an address, [None] when nothing is
    allocated there. *)
Definition nx (h : gmap N aug_entry) (p : ptr) : option ptr := e_next <$> h !! p.
Definition pv (h : gmap N aug_entry) (p : ptr) : option ptr := e_prev <$> h !! p.
Definition pth (h : gmap N aug_entry) (p : ptr) : option cstr := e_path <$> h !! p.
Definition vl (h : gmap N aug_entry) (p : ptr) : option (option cstr) :=
  e_value <$> h !! p.
Definition lit (h : gmap N aug_entry) (p : ptr) : option bool :=
  e_literal <$> h !! p.

(** [p->next], [p->prev], [p->path] and [p->value] read, and [p->f = v]
    written. *)
Definition rd_next (p : ptr) : M ptr := rd (λ w, nx (heap w) p).
Definition rd_prev (p : ptr) : M ptr := rd (λ w, pv (heap w) p).
Definition rd_path (p : ptr) : M cstr := rd (λ w, pth (heap w) p).
Definition rd_value (p : ptr) : M (option cstr) := rd (λ w, vl (heap w) p).
Definition rd_literal (p : ptr) : M bool := rd (λ w, lit (heap w) p).
Definition store (p : ptr) (f : aug_entry → aug_entry) : M unit :=
  λ w, match heap w !! p with
       | Some _ => Some (tt, with_heap (alter f p (heap w)) w)
       | None => None
       end.

(** Whether the next allocation succeeds. *)
Definition malloc_ok : M bool :=
  λ w, match alloc_fail w with
       | [] => Some (true, w)
       | b :: o => Some (negb b, World (heap w) (head w) o)
       end.

(** [calloc(1, sizeof(struct aug_entry))] *)
Definition calloc_entry : M ptr :=
  do ok ← malloc_ok;
  if ok : bool then
    λ w, let a := fresh ({[NULL]} ∪ dom (heap w)) in
         Some (a, with_heap (<[a := Entry [] false None NULL NULL]> (heap w)) w)
  else ret NULL.

(** [free(e)] of an entry node. *)
Definition free (p : ptr) : M unit :=
  λ w, match heap w !! p with
       | Some _ => Some (tt, with_heap (delete p (heap w)) w)
       | None => None
       end.

(** ** The entry store *)

(** The do-while loop of [aug_entry_find]; the fuel bounds the number of
    entries visited by the number of allocated ones. *)
Fixpoint aug_entry_find_from (fuel : nat) (path : cstr) (p : ptr)
    (w : world) : option ptr :=
  match fuel with
  | 0 => None
  | S fuel' =>
      e ← heap w !! p;
      if pathprefix path (e_path e) && pathprefix (e_path e) path then Some p
      else if decide (e_next e = head w) then Some NULL
      else aug_entry_find_from fuel' path (e_next e) w
  end.

Definition aug_entry_find (path : cstr) (w : world) : option ptr :=
  aug_entry_find_from (size (heap w)) path (head w) w.

Definition aug_entry_insert (path : cstr) (nxt : ptr) : M ptr :=
  do e ← calloc_entry;
  if decide (e = NULL) then ret NULL else
  do dup ← malloc_ok;
  if negb dup then (run free e; ret NULL) else
  run store e (set_path path);
  run store e (set_next nxt);
  do np ← rd_prev nxt;
  run store e (set_prev np);
  do en ← rd_next e;
  run store en (set_prev e);
  do ep ← rd_prev e;
  run store ep (set_next e);
  ret e.

(** The loop of [aug_entry_make] over the positions [pos] of the
    truncated copy [path]; [rest] holds the characters from [pos] on and
    the result tells whether every insertion succeeded. *)
Fixpoint aug_entry_make_from (path : cstr) (pos : nat) (rest : cstr) : M bool :=
  match rest with
  | [] => ret true
  | c :: rest' =>
      if decide (c = SEP) then
        do f ← rd (aug_entry_find (take pos path));
        if decide (f = NULL) then
          do hd ← get_head;
          do e ← aug_entry_insert (take pos path) hd;
          if decide (e = NULL) then ret false
          else aug_entry_make_from path (S pos) rest'
        else aug_entry_make_from path (S pos) rest'
      else aug_entry_make_from path (S pos) rest'
  end.

(** For the empty string [path + 1] lies past the copy made by
    [strdupa]. *)
Definition aug_entry_make (p : cstr) (nxt : ptr) : M ptr :=
  match p with
  | [] => undefined
  | _ =>
      let path := take (pathlen p) p in
      do ok ← aug_entry_make_from path 1 (drop 1 path);
      if ok : bool then aug_entry_insert path nxt else ret NULL
  end.

(** [free] of [e->path] is undefined for a path that is a string literal;
    [e->value], read for the test, is freed with the entry. *)
Definition aug_entry_free (e : ptr) : M unit :=
  do ep ← rd_prev e;
  do en ← rd_next e;
  run store ep (set_next en);
  do en ← rd_next e;
  do ep ← rd_prev e;
  run store en (set_prev ep);
  do literal ← rd_literal e;
  if literal : bool then undefined else
  run rd_value e;
  free e.

(** ** The public API *)

(** [struct aug_provider] (augeas.h): the three operations of a
    provider. *)
Record aug_provider := Provider {
  prov_init : M Z;
  prov_load : M Z;
  prov_save : M Z
}.

Fixpoint aug_init_providers (providers : list aug_provider) : M Z :=
  match providers with
  | [] => ret 0%Z
  | prov :: rest =>
      do r ← prov_init prov;
      if decide (r = (-1)%Z) then ret (-1)%Z else
      do r ← prov_load prov;
      if decide (r = (-1)%Z) then ret (-1)%Z else
      aug_init_providers rest
  end.

Definition aug_init (providers : list aug_provider) : M Z :=
  do hd ← get_head;
  do r ← (if decide (hd = NULL) then
            do h ← calloc_entry;
            run set_head h;
            do e ← calloc_entry;
            if decide (h = NULL ∨ e = NULL) then ret (-1)%Z else
            run store h (set_path_literal P_SYSTEM);
            run store h (set_value None);
            run store h (set_next e);
            run store h (set_prev e);
            run store e (set_path_literal P_SYSTEM_CONFIG);
            run store e (set_value None);
            run store e (set_next h);
            run store e (set_prev h);
            ret 0%Z
          else ret 0%Z);
  if decide (r = (-1)%Z) then ret (-1)%Z else aug_init_providers providers.

Definition aug_get (path : cstr) (w : world) : option (option cstr) :=
  p ← aug_entry_find path w;
  if decide (p = NULL) then Some None
  else e ← heap w !! p; Some (e_value e).

Definition aug_set (path value : cstr) : M Z :=
  do f ← rd (aug_entry_find path);
  do p ← (if decide (f = NULL) then do hd ← get_head; aug_entry_make path hd
          else ret f);
  if decide (p = NULL) then ret (-1)%Z else
  run rd_value p;
  do dup ← malloc_ok;
  run store p (set_value (if dup : bool then Some value else None));
  if dup then ret 0%Z else ret (-1)%Z.

Definition aug_exists (path : cstr) (w : world) : option bool :=
  p ← aug_entry_find path w;
  Some (bool_decide (p ≠ NULL)).

Definition aug_insert (path sibling : cstr) : M Z :=
  if STREQ path sibling then ret (-1)%Z else
  match strrchr path SEP, strrchr sibling SEP with
  | Some pdir, Some sdir =>
      if decide (pdir ≠ sdir) then ret (-1)%Z else
      if STRNEQLEN path sibling pdir then ret (-1)%Z else
      do s ← rd (aug_entry_find sibling);
      if decide (s = NULL) then ret (-1)%Z else
      do p ← rd (aug_entry_find path);
      if decide (p = NULL) then
        do e ← aug_entry_make path s;
        ret (if decide (e = NULL) then (-1)%Z else 0%Z)
      else
        do pp ← rd_prev p;
        do pn ← rd_next p;
        run store pp (set_next pn);
        do pn ← rd_next p;
        do pp ← rd_prev p;
        run store pn (set_prev pp);
        do sp ← rd_prev s;
        run store sp (set_next p);
        do sp ← rd_prev s;
        run store p (set_prev sp);
        run store p (set_next s);
        run store s (set_prev p);
        ret 0%Z
  | _, _ => ret (-1)%Z
  end.

(** The test of [aug_rm] on the path [q] of the entry visited. *)
Definition aug_rm_test (path q : cstr) : bool :=
  let plen := pathlen path in
  STREQLEN q path (pathlen path)
  && (bool_decide (char_at q plen = NUL) || bool_decide (char_at q plen = "/"%char))
  && negb (STREQ P_SYSTEM q)
  && negb (STREQ P_SYSTEM_CONFIG q).

(** The for loop of [aug_rm]: the test [p != head->next] is made on the
    current heap at every round. *)
Fixpoint aug_rm_from (fuel : nat) (path : cstr) (p : ptr) (cnt : Z) : M Z :=
  match fuel with
  | 0 => undefined
  | S fuel' =>
      do hd ← get_head;
      do hn ← rd_next hd;
      if decide (p = hn) then ret cnt else
      do q ← rd_prev p;
      do qpath ← rd_path q;
      do cnt' ← (if aug_rm_test path qpath
                 then (do q' ← rd_prev p; run aug_entry_free q'; ret (cnt + 1)%Z)
                 else ret cnt);
      do pn ← rd_next p;
      aug_rm_from fuel' path pn cnt'
  end.

Definition aug_rm (path : cstr) : M Z :=
  do hd ← get_head;
  do hn ← rd_next hd;
  do hnn ← rd_next hn;
  do n ← rd (λ w, Some (size (heap w)));
  aug_rm_from n path hnn 0%Z.

(** The test of [aug_ls] on the path [q] of the entry visited. *)
Definition aug_ls_test (path q : cstr) : bool :=
  let len := pathlen path in
  pathprefix path q
  && bool_decide (len + 1 < strlen q)
  && bool_decide (strchr (drop (len + 1) q) SEP = None).

(** One pass of [aug_ls]; [arr] is the array [*children] of the copying
    pass, and a write outside it is undefined. *)
Fixpoint aug_ls_from (fuel : nat) (path : cstr) (copy : bool) (p : ptr)
    (cnt : Z) (arr : list (option cstr)) (w : world)
    : option (Z * list (option cstr)) :=
  match fuel with
  | 0 => None
  | S fuel' =>
      e ← heap w !! p;
      r ← (if aug_ls_test path (e_path e) then
             if copy then
               if decide ((0 ≤ cnt)%Z ∧ Z.to_nat cnt < length arr)
               then Some ((cnt + 1)%Z, <[Z.to_nat cnt := Some (e_path e)]> arr)
               else None
             else Some ((cnt + 1)%Z, arr)
           else Some (cnt, arr));
      if decide (e_next e = head w) then Some r
      else aug_ls_from fuel' path copy (e_next e) r.1 r.2 w
  end.

(** [children] tells whether the out parameter is non-null; the result
    pairs the return value with the array stored through it. *)
Definition aug_ls (path : cstr) (children : bool)
    : M (Z * option (list (option cstr))) :=
  do c0 ← rd (λ w, aug_ls_from (size (heap w)) path false (head w) 0%Z [] w);
  if negb children then ret (c0.1, None) else
  do ok ← malloc_ok;
  if negb ok then ret ((-1)%Z, None) else
  do c1 ← rd (λ w, aug_ls_from (size (heap w)) path true (head w) 0%Z
                     (replicate (Z.to_nat c0.1) None) w);
  ret (c1.1, Some c1.2).

(** The loop of [aug_match]; [matches] is the caller's array, and a write
    outside it is undefined. *)
Fixpoint aug_match_from (fuel : nat) (pattern : cstr) (size : Z) (p : ptr)
    (cnt : Z) (matches : list (option cstr)) (w : world)
    : option (Z * list (option cstr)) :=
  match fuel with
  | 0 => None
  | S fuel' =>
      e ← heap w !! p;
      m ← fnmatch_noescape pattern (e_path e);
      r ← (if m : bool then
             if decide (cnt < size)%Z then
               if decide ((0 ≤ cnt)%Z ∧ Z.to_nat cnt < length matches)
               then Some ((cnt + 1)%Z, <[Z.to_nat cnt := Some (e_path e)]> matches)
               else None
             else Some ((cnt + 1)%Z, matches)
           else Some (cnt, matches));
      if decide (e_next e = head w) then Some r
      else aug_match_from fuel' pattern size (e_next e) r.1 r.2 w
  end.

Definition aug_match (pattern : cstr) (matches : list (option cstr))
    (size : Z) (w : world) : option (Z * list (option cstr)) :=
  aug_match_from (stdpp.base.size (heap w)) pattern size (head w) 0%Z matches w.

Fixpoint aug_save (providers : list aug_provider) : M Z :=
  match providers with
  | [] => ret 0%Z
  | prov :: rest =>
      do r ← prov_save prov;
      if decide (r = (-1)%Z) then ret (-1)%Z else aug_save rest
  end.

(** ** The dump routine *)

(** [fprintf(out, fmt)] called without further arguments: the characters
    of [fmt] are written as they are and [%%] as one percent sign; any
    other conversion specification has no argument to take, which is
    undefined. *)
Fixpoint fprintf_noargs (fmt : cstr) : option cstr :=
  match fmt with
  | [] => Some []
  | c :: rest =>
      if decide (c = "%"%char) then
        match rest with
        | d :: rest' =>
            if decide (d = "%"%char)
            then cons "%"%char <$> fprintf_noargs rest'
            else None
        | [] => None
        end
      else cons c <$> fprintf_noargs rest
  end.

(** Modelled from the spec: FIXME is a macro of internal.h, which is not
    part of the sources read here.  It reports the violation found and
    the traversal goes on; the reports are kept apart from the stream. *)
Inductive fixme :=
  | WrongPrevNext (path : cstr)
  | WrongNext (path : cstr).

(** What [aug_print] has written to [out] and what it has reported. *)
Record printed := Printed {
  p_out : cstr;
  p_fixme : list fixme
}.

Definition newline : ascii := "010"%char.

(** The loop of [aug_print]; [path] is [None] for a null pointer. *)
Fixpoint aug_print_from (fuel : nat) (path : option cstr) (p : ptr)
    (acc : printed) (w : world) : option printed :=
  match fuel with
  | 0 => None
  | S fuel' =>
      e ← heap w !! p;
      pn ← nx (heap w) (e_prev e);
      let log1 := if decide (p ≠ pn)
                  then p_fixme acc ++ [WrongPrevNext (e_path e)]
                  else p_fixme acc in
      np ← pv (heap w) (e_next e);
      let log2 := if decide (p ≠ np)
                  then log1 ++ [WrongNext (e_path e)]
                  else log1 in
      out ← (if match path with
                | None => true
                | Some path => STREQLEN path (e_path e) (pathlen path)
                end
             then
               line ← fprintf_noargs (e_path e);
               Some (p_out acc ++ line
                     ++ match e_value e with
                        | Some v => str " = " ++ v
                        | None => []
                        end
                     ++ [newline])
             else Some (p_out acc));
      if decide (e_next e = head w) then Some (Printed out log2)
      else aug_print_from fuel' path (e_next e) (Printed out log2) w
  end.

Definition aug_print (path : option cstr) (w : world) : option printed :=
  aug_print_from (size (heap w)) path (head w) (Printed [] []) w.

(** The store before the first call of [aug_init]. *)
Definition boot (o : list bool) : world := World ∅ NULL o.

(** * Definitions of the specification *)

(** The list rotated by one place: each node beside its successor in the
    ring. *)
Definition rot1 (l : list ptr) : list ptr :=
  match l with
  | [] => []
  | x :: t => t ++ [x]
  end.

(** [a->next == b] and [b->prev == a]. *)
Definition linked (h : gmap N aug_entry) (a b : ptr) : Prop :=
  nx h a = Some b ∧ pv h b = Some a.

(** The nodes of [l], without repetition, are linked in the heap [h]
    into one cycle, the last one to the first. *)
Definition cring (h : gmap N aug_entry) (l : list ptr) : Prop :=
  NoDup l ∧ Forall2 (linked h) l (rot1 l).

(** The outcome of the next allocation and the store after it. *)
Definition next_ok (w : world) : bool :=
  match alloc_fail w with
  | [] => true
  | b :: _ => negb b
  end.

(** The store once the outcome of the next allocation is consumed. *)
Definition pop (w : world) : world :=
  World (heap w) (head w) (tail (alloc_fail w)).

(** The address that [calloc_entry] returns on the heap [h]. *)
Definition fresh_ptr (h : gmap N aug_entry) : ptr := fresh ({[NULL]} ∪ dom h).

(** The heap after the two assignments of [aug_entry_free]. *)
Definition unspliced (h : gmap N aug_entry) (b c : ptr) : gmap N aug_entry :=
  alter (set_prev b) c (alter (set_next c) b h).

(** The heap after [aug_entry_insert] has allocated [e] and spliced it
    between [b] and [c]. *)
Definition inserted (h : gmap N aug_entry) (e : ptr) (path : cstr) (b c : ptr)
    : gmap N aug_entry :=
  alter (set_next e) b
    (alter (set_prev e) c
       (alter (set_prev b) e
          (alter (set_next c) e
             (alter (set_path path) e (<[e := Entry [] false None NULL NULL]> h))))).

(** The paths of the two sentinels. *)
Definition protected (q : cstr) : Prop := q = P_SYSTEM ∨ q = P_SYSTEM_CONFIG.

(** A path that is a string literal is one of the two that [aug_init]
    assigns. *)
Definition literals_protected (h : gmap N aug_entry) : Prop :=
  ∀ a e, h !! a = Some e → e_literal e = true → protected (e_path e).

(** [store_ok w l]: the allocated entries of [w] are the nodes of [l],
    linked into one ring, and only the paths of sentinels are string
    literals; [ring w l] moreover lists the nodes in traversal order,
    from [head]. *)
Definition store_ok (w : world) (l : list ptr) : Prop :=
  cring (heap w) l ∧ dom (heap w) = list_to_set l ∧ (NULL ∉ l)
  ∧ literals_protected (heap w).

(** The entries in traversal order, from [head]. *)
Definition ring (w : world) (l : list ptr) : Prop :=
  store_ok w l ∧ ∃ rest, l = head w :: rest.

(** The path and the value of the entry at an address. *)
Definition path_of (w : world) (a : ptr) : cstr := default [] (pth (heap w) a).

Definition value_of (w : world) (a : ptr) : option cstr :=
  default None (vl (heap w) a).

(** The entries of a store keep their paths and values. *)
Definition same_entries (w w' : world) (l : list ptr) : Prop :=
  ∀ a, a ∈ l → pth (heap w') a = pth (heap w) a ∧ vl (heap w') a = vl (heap w) a.

(** The entries of a store keep their paths. *)
Definition same_paths (w w' : world) (l : list ptr) : Prop :=
  ∀ a, a ∈ l → pth (heap w') a = pth (heap w) a.

(** The equality test of [aug_entry_find]. *)
Definition path_eq (path q : cstr) : bool := pathprefix path q && pathprefix q path.

(** The first node of [l] whose path passes the test of
    [aug_entry_find], NULL when there is none. *)
Fixpoint first_match (w : world) (path : cstr) (l : list ptr) : ptr :=
  match l with
  | [] => NULL
  | a :: t => if path_eq path (path_of w a) then a else first_match w path t
  end.

(** The path that [aug_entry_make] stores for [p]. *)
Definition norm (p : cstr) : cstr := take (pathlen p) p.

(** Some entry among [l] matches [q] under the test of
    [aug_entry_find]. *)
Definition exists_in (w : world) (q : cstr) (l : list ptr) : Prop :=
  ∃ a, a ∈ l ∧ path_eq q (path_of w a) = true.

(** The entry at [a] passes the test of [aug_rm]. *)
Definition rm_hit (w : world) (path : cstr) (a : ptr) : Prop :=
  aug_rm_test path (path_of w a) = true.

#[local] Instance rm_hit_dec w path a : Decision (rm_hit w path a).
Proof. rewrite /rm_hit. apply _. Defined.

(** [d] is the substring of [p] before its last separator. *)
Definition dir_of (p d : cstr) : Prop := ∃ b, p = d ++ SEP :: b ∧ SEP ∉ b.

(** The heap after the four assignments that put [p] between [b] and
    [s]. *)
Definition respliced (h : gmap N aug_entry) (p b s : ptr) : gmap N aug_entry :=
  alter (set_prev p) s
    (alter (set_next s) p (alter (set_prev b) p (alter (set_next p) b h))).

(** One round of the loop of [aug_ls] on the path [q] of the entry
    visited. *)
Definition ls_step (path : cstr) (copy : bool) (q : cstr)
    (cnt : Z) (arr : list (option cstr)) : option (Z * list (option cstr)) :=
  if aug_ls_test path q then
    if copy then
      if decide ((0 ≤ cnt)%Z ∧ Z.to_nat cnt < length arr)
      then Some ((cnt + 1)%Z, <[Z.to_nat cnt := Some q]> arr)
      else None
    else Some ((cnt + 1)%Z, arr)
  else Some (cnt, arr).

(** The loop of [aug_ls] over the paths of the entries in traversal
    order. *)
Fixpoint ls_list (path : cstr) (copy : bool) (qs : list cstr)
    (cnt : Z) (arr : list (option cstr)) : option (Z * list (option cstr)) :=
  match qs with
  | [] => Some (cnt, arr)
  | q :: qs' => r ← ls_step path copy q cnt arr; ls_list path copy qs' r.1 r.2
  end.

(** The paths of the entries in traversal order. *)
Definition paths (w : world) (l : list ptr) : list cstr := path_of w <$> l.

(** The path [q] passes the test of [aug_ls]. *)
Definition ls_hit (path q : cstr) : Prop := aug_ls_test path q = true.

#[local] Instance ls_hit_dec path q : Decision (ls_hit path q).
Proof. rewrite /ls_hit. apply _. Defined.

(** One round of the loop of [aug_match] on the path [q] of the entry
    visited. *)
Definition match_step (pattern : cstr) (size : Z) (q : cstr)
    (cnt : Z) (matches : list (option cstr))
    : option (Z * list (option cstr)) :=
  m ← fnmatch_noescape pattern q;
  if m : bool then
    if decide (cnt < size)%Z then
      if decide ((0 ≤ cnt)%Z ∧ Z.to_nat cnt < length matches)
      then Some ((cnt + 1)%Z, <[Z.to_nat cnt := Some q]> matches)
      else None
    else Some ((cnt + 1)%Z, matches)
  else Some (cnt, matches).

(** The loop of [aug_match] over the paths of the entries in traversal
    order. *)
Fixpoint match_list (pattern : cstr) (size : Z) (qs : list cstr)
    (cnt : Z) (matches : list (option cstr))
    : option (Z * list (option cstr)) :=
  match qs with
  | [] => Some (cnt, matches)
  | q :: qs' =>
      r ← match_step pattern size q cnt matches;
      match_list pattern size qs' r.1 r.2
  end.

(** The path [q] matches the pattern. *)
Definition match_hit (pattern q : cstr) : Prop :=
  fnmatch_noescape pattern q = Some true.

#[local] Instance match_hit_dec pattern q : Decision (match_hit pattern q).
Proof. rewrite /match_hit. apply _. Defined.

(** A well-formed store: a ring from [head], whose head entry is
    [/system] and which holds an entry [/system/config]. *)
Definition inv (w : world) : Prop :=
  ∃ l, ring w l ∧ path_of w (head w) = P_SYSTEM
       ∧ ∃ a, a ∈ l ∧ path_of w a = P_SYSTEM_CONFIG.

(** The store before the first call of [aug_init]. *)
Definition uninit (w : world) : Prop := head w = NULL ∧ heap w = ∅.

(** A provider acts on a well-formed store and leaves it well-formed. *)
Definition preserves {A} (m : M A) : Prop :=
  ∀ w r w', inv w → m w = Some (r, w') → inv w'.

(** The three operations of a provider keep the store well formed. *)
Definition provider_ok (p : aug_provider) : Prop :=
  preserves (prov_init p) ∧ preserves (prov_load p) ∧ preserves (prov_save p).

(** The store that the first call of [aug_init] builds. *)
Definition fresh_store (o : list bool) : world :=
  World (<[2%N := Entry P_SYSTEM_CONFIG true None 1%N 1%N]>
           (<[1%N := Entry P_SYSTEM true None 2%N 2%N]> ∅)) 1%N o.

(** The calls of the public API with their arguments, and what they
    return. *)
Inductive api_call :=
  | CInit
  | CGet (path : cstr)
  | CSet (path value : cstr)
  | CExists (path : cstr)
  | CInsert (path sibling : cstr)
  | CRm (path : cstr)
  | CLs (path : cstr) (children : bool)
  | CMatch (pattern : cstr) (matches : list (option cstr)) (size : Z)
  | CSave.

Inductive api_ret :=
  | RStatus (r : Z)
  | RValue (v : option cstr)
  | RBool (b : bool)
  | RCount (n : Z)
  | RLs (n : Z) (children : option (list (option cstr)))
  | RMatch (n : Z) (matches : list (option cstr)).

(** A call run on the store. *)
Definition exec (providers : list aug_provider) (c : api_call) : M api_ret :=
  match c with
  | CInit => do r ← aug_init providers; ret (RStatus r)
  | CGet path => do v ← rd (aug_get path); ret (RValue v)
  | CSet path value => do r ← aug_set path value; ret (RStatus r)
  | CExists path => do b ← rd (aug_exists path); ret (RBool b)
  | CInsert path sibling => do r ← aug_insert path sibling; ret (RStatus r)
  | CRm path => do n ← aug_rm path; ret (RCount n)
  | CLs path children => do r ← aug_ls path children; ret (RLs r.1 r.2)
  | CMatch pattern matches size =>
      do r ← rd (aug_match pattern matches size); ret (RMatch r.1 r.2)
  | CSave => do r ← aug_save providers; ret (RStatus r)
  end.

(** The call reports success: status [0], or a count that is not the
    error value of [aug_ls]. *)
Definition succeeded (r : api_ret) : Prop :=
  match r with
  | RStatus z => z = 0%Z
  | RLs n _ => n ≠ (-1)%Z
  | _ => True
  end.

(** The states in which a call is made: any well-formed store, or the
    store before the first [aug_init] for that call. *)
Definition callable (c : api_call) (w : world) : Prop :=
  inv w ∨ (uninit w ∧ c = CInit).

(** No coming call of [calloc] or [strdup] fails. *)
Definition allocations_succeed (w : world) : Prop :=
  Forall (λ b, b = false) (alloc_fail w).

(** An absolute path given as a C string. *)
Definition valid_path (p : cstr) : Prop :=
  (∃ r, p = SEP :: r) ∧ NUL ∉ p.

(** An entry with path [q] is allocated in the store. *)
Definition entry_at (w : world) (q : cstr) : Prop :=
  ∃ a e, heap w !! a = Some e ∧ e_path e = q.

(** Both sentinels are entries of the store and [aug_exists] finds
    them. *)
Definition has_sentinels (w : world) : Prop :=
  entry_at w P_SYSTEM ∧ entry_at w P_SYSTEM_CONFIG
  ∧ aug_exists P_SYSTEM w = Some true
  ∧ aug_exists P_SYSTEM_CONFIG w = Some true.

(** The store reached from [w] by the computation [m]. *)
Definition after {A} (m : M A) (w : world) : world :=
  match m w with
  | Some (_, w') => w'
  | None => w
  end.

(** A provider that loads one entry. *)
Definition demo_provider : aug_provider :=
  Provider (ret 0%Z) (aug_set (str "/augeas/version") (str "0")) (ret 0%Z).

(** The store after [aug_init] with that provider. *)
Definition demo_store : world := after (aug_init [demo_provider]) (boot []).

(** A provider that leaves the store alone. *)
Definition idle_provider : aug_provider :=
  Provider (ret 0%Z) (ret 0%Z) (ret 0%Z).

(** The store that [aug_init] leaves when its first allocation succeeds
    and its second fails. *)
Definition store_half_init : world :=
  after (aug_init [idle_provider]) (boot [false; true]).

(** Following [next] from [e] through the entries [t] leads back to
    [e]. *)
Definition next_cycle (h : gmap N aug_entry) (e : ptr) (t : list ptr) : Prop :=
  Forall2 (λ a b, nx h a = Some b) (e :: t) (t ++ [e]).

(** From any entry, following [next] visits every entry of the store
    exactly once before it returns to that entry. *)
Definition circular (w : world) : Prop :=
  ∀ e, is_Some (heap w !! e) →
       ∃ t, next_cycle (heap w) e t ∧ NoDup (e :: t)
            ∧ ∀ a, a ∈ e :: t ↔ is_Some (heap w !! a).

(** [e->prev->next == e] and [e->next->prev == e] for every entry. *)
Definition inverse_links (w : world) : Prop :=
  ∀ e x, heap w !! e = Some x →
         nx (heap w) (e_prev x) = Some e ∧ pv (heap w) (e_next x) = Some e.

(** The entry list is circular and well formed. *)
Definition well_linked (w : world) : Prop := circular w ∧ inverse_links w.

(** A store with two children of [/a], for the relinking branch of
    [aug_insert]. *)
Definition store_a_b_c : world :=
  after (aug_set (str "/a/c") (str "2"))
    (after (aug_set (str "/a/b") (str "1")) (fresh_store [])).

(** The store after [/a/c] is moved before [/a/b]. *)
Definition store_c_before_b : world :=
  after (aug_insert (str "/a/c") (str "/a/b")) store_a_b_c.

(** [q] is [p] itself or extends [p] past a separator. *)
Definition subtree (p q : cstr) : Prop := q = p ∨ (p ++ [SEP]) `prefix_of` q.

(** The entries that [aug_rm path] is to remove: those in the subtree of
    [path], a trailing separator of [path] set aside, except the
    sentinels. *)
Definition in_scope (path q : cstr) : Prop := subtree (norm path) q ∧ ¬ protected q.

#[local] Instance in_scope_dec path q : Decision (in_scope path q).
Proof. rewrite /in_scope /subtree /protected. apply _. Defined.

(** A store holding [/a], [/a/b] and [/a/bc] besides the sentinels. *)
Definition store_a_b_bc : world :=
  after (aug_set (str "/a/bc") (str "3"))
    (after (aug_set (str "/a/b") (str "2"))
       (after (aug_set (str "/a") (str "1")) (fresh_store []))).

(** A store holding the sentinels and one unrelated entry. *)
Definition store_b : world :=
  after (aug_set (str "/b") (str "1")) (fresh_store []).

(** A well-formed store holding [/a/b/d] without its ancestors [/a] and
    [/a/b]. *)
Definition store_orphan : world :=
  after (aug_entry_free 4%N)
    (after (aug_entry_free 3%N)
       (after (aug_set (str "/a/b/d") (str "1")) (fresh_store []))).

(** Every strict ancestor of [p], the prefix of [p] before any of its
    inner separators, has an entry. *)
Definition ancestors_exist (p : cstr) (w : world) : Prop :=
  ∀ k, 1 ≤ k < pathlen p → char_at p k = SEP →
       aug_exists (take k p) w = Some true.

(** The preconditions of [aug_insert] as the specification lists them:
    one of them is violated. *)
Definition insert_precondition_violated (path sibling : cstr) (w : world) : Prop :=
  path = sibling
  ∨ SEP ∉ path
  ∨ SEP ∉ sibling
  ∨ (∃ d1 d2, dir_of path d1 ∧ dir_of sibling d2 ∧ d1 ≠ d2)
  ∨ aug_exists sibling w = Some false.

(** A store holding [/a] and [/a/y] besides the sentinels, and the store
    after [/a/x] is inserted before [/a/y]. *)
Definition store_a_y : world :=
  after (aug_set (str "/a/y") (str "1")) (fresh_store []).

Definition store_a_x_y : world :=
  after (aug_insert (str "/a/x") (str "/a/y")) store_a_y.

(** A store holding [/a], [/a/b], [/a/c] and [/a/b/c] besides the
    sentinels. *)
Definition store_tree : world :=
  after (aug_set (str "/a/b/c") (str "3"))
    (after (aug_set (str "/a/c") (str "2"))
       (after (aug_set (str "/a/b") (str "1")) (fresh_store []))).

(** Its paths. *)
Definition tree_paths : list cstr :=
  [P_SYSTEM; P_SYSTEM_CONFIG; str "/a"; str "/a/b"; str "/a/c"; str "/a/b/c"].

(** [q] is an immediate child of [p]: it extends [p] past a separator by
    a name without separator. *)
Definition child (p q : cstr) : Prop := ∃ b, q = p ++ SEP :: b ∧ b ≠ [] ∧ SEP ∉ b.

(** A store holding [/a], [/a/b] and [/a/b/c] besides the sentinels. *)
Definition store_deep : world :=
  after (aug_set (str "/a/b/c") (str "1")) (fresh_store []).

(** Its paths. *)
Definition deep_paths : list cstr :=
  [P_SYSTEM; P_SYSTEM_CONFIG; str "/a"; str "/a/b"; str "/a/b/c"].

(** A provider whose [save] fails. *)
Definition failing_provider : aug_provider :=
  Provider (ret 0%Z) (ret 0%Z) (ret (-1)%Z).

(** The store after [/x] is inserted before the head sentinel. *)
Definition store_x_last : world :=
  after (aug_insert (str "/x") (str "/system")) (fresh_store []).

(** The test of [aug_print] on the path [q] of the entry visited. *)
Definition print_test (path : option cstr) (q : cstr) : bool :=
  match path with
  | None => true
  | Some path => STREQLEN path q (pathlen path)
  end.

(** The text after the path on the line of an entry. *)
Definition line_end (v : option cstr) : cstr :=
  match v with
  | Some v => str " = " ++ v
  | None => []
  end ++ [newline].

(** The lines written for a list of entries, given by path and value. *)
Fixpoint print_list (path : option cstr) (es : list (cstr * option cstr))
    (out : cstr) : option cstr :=
  match es with
  | [] => Some out
  | e :: es' =>
      if print_test path e.1 then
        line ← fprintf_noargs e.1;
        print_list path es' (out ++ line ++ line_end e.2)
      else print_list path es' out
  end.

(** The entries in traversal order, by path and value. *)
Definition entries (w : world) (l : list ptr) : list (cstr * option cstr) :=
  (λ a, (path_of w a, value_of w a)) <$> l.

(** The entries [aug_print] shows: all of them for a null [path],
    otherwise those whose path starts, as a string, with [path] less a
    trailing separator. *)
Definition print_hit (path : option cstr) (q : cstr) : Prop :=
  match path with
  | None => True
  | Some p => take (pathlen p) p `prefix_of` q
  end.

#[local] Instance print_hit_dec path q : Decision (print_hit path q).
Proof. destruct path; simpl; apply _. Defined.

(** A store with a conversion specification in a path. *)
Definition store_percent : world :=
  after (aug_set (str "/a%sb") (str "1")) (fresh_store []).

(** The calls whose arguments the code can handle: a path to set is not
    the empty string, and a pattern has no bracket expression and comes
    with a sink at least as long as the capacity given.  The strings of
    a call are values, the caller's own. *)
Definition well_posed (c : api_call) : Prop :=
  match c with
  | CSet path _ => path ≠ []
  | CMatch pattern matches size =>
      ("["%char ∉ pattern) ∧ (size ≤ Z.of_nat (length matches))%Z
  | _ => True
  end.

(** A store on which the next allocation fails. *)
Definition store_no_memory : world := World (heap store_a_b_bc) 1%N [true].

(** No entry has gained a value that is not null. *)
Definition no_new_values (w w' : world) : Prop :=
  ∀ a v, vl (heap w') a = Some (Some v) → vl (heap w) a = Some (Some v).

(** * Proofs *)

(** ** Fields under heap updates *)

Section fields.

Context {A : Type} (g : aug_entry → A).

Implicit Types (h : gmap N aug_entry) (f : aug_entry → aug_entry).

Lemma proj_alter_keep h f p a :
  (∀ e, g (f e) = g e) → g <$> alter f p h !! a = g <$> h !! a.
Proof.
  intros Hg. destruct (decide (p = a)) as [->|Hne].
  - rewrite lookup_alter_eq. destruct (h !! a); simpl; by rewrite ?Hg.
  - by rewrite lookup_alter_ne.
Qed.

Lemma proj_alter_ne h f p a : a ≠ p → g <$> alter f p h !! a = g <$> h !! a.
Proof. intros Hne. by rewrite lookup_alter_ne. Qed.

Lemma proj_alter_eq h f p v :
  is_Some (h !! p) → (∀ e, g (f e) = v) → g <$> alter f p h !! p = Some v.
Proof.
  intros [e He] Hg. rewrite lookup_alter_eq He. simpl. by rewrite Hg.
Qed.

Lemma proj_delete_ne h p a : a ≠ p → g <$> delete p h !! a = g <$> h !! a.
Proof. intros Hne. by rewrite lookup_delete_ne. Qed.

Lemma proj_insert_ne h p e a : a ≠ p → g <$> <[p := e]> h !! a = g <$> h !! a.
Proof. intros Hne. by rewrite lookup_insert_ne. Qed.

End fields.

(** ** Rings of entries *)

Lemma rot1_cons x t : rot1 (x :: t) = t ++ [x].
Proof. done. Qed.

Lemma rot1_elem a l : a ∈ rot1 l ↔ a ∈ l.
Proof. destruct l; simpl; set_solver. Qed.

Lemma Forall2_impl_elem {A B} (R R' : A → B → Prop) l k :
  Forall2 R l k → (∀ a b, a ∈ l → b ∈ k → R a b → R' a b) → Forall2 R' l k.
Proof.
  induction 1 as [|a b l k Hab _ IH]; intros Himp; constructor.
  - apply Himp; [left..|done].
  - apply IH. intros a' b' Ha' Hb'. apply Himp; by right.
Qed.

Lemma cring_rot1 h l : cring h l → cring h (rot1 l).
Proof.
  intros [Hnd HF]. destruct l as [|x [|y t]]; [done..|].
  rewrite rot1_cons in HF. apply Forall2_cons_1 in HF as [Hxy HF].
  rewrite rot1_cons. split.
  - apply NoDup_cons in Hnd as [Hx' Hnd].
    apply (NoDup_app (y :: t) [x]). split_and!; [done| |apply NoDup_singleton].
    intros z Hz ->%list_elem_of_singleton. done.
  - change (rot1 ((y :: t) ++ [x])) with ((t ++ [x]) ++ [y]).
    apply Forall2_app; [done|]. by constructor.
Qed.

Lemma cring_rot h l1 l2 : cring h (l1 ++ l2) → cring h (l2 ++ l1).
Proof.
  revert l2. induction l1 as [|x l1 IH]; intros l2 H.
  - by rewrite app_nil_r.
  - apply cring_rot1 in H. simpl in H. rewrite -app_assoc in H.
    apply IH in H. by rewrite -app_assoc in H.
Qed.

Lemma cring_nodup h l : cring h l → NoDup l.
Proof. by intros [? _]. Qed.

Lemma cring_alive h l a : cring h l → a ∈ l → is_Some (h !! a).
Proof.
  intros [_ HF] [i Hi]%list_elem_of_lookup.
  destruct (Forall2_lookup_l _ _ _ _ _ HF Hi) as (b & _ & Hn & _).
  rewrite /nx in Hn. destruct (h !! a); [eauto|done].
Qed.

(** The links of the first two nodes, and of the last node to the first. *)
Lemma cring_link h a b t : cring h (a :: b :: t) → linked h a b.
Proof. intros [_ HF]. by apply Forall2_cons_1 in HF as [? _]. Qed.

Lemma cring_link_last h c u b : cring h (c :: u ++ [b]) → linked h b c.
Proof.
  intros H. change (c :: u ++ [b]) with ((c :: u) ++ [b]) in H.
  apply cring_rot in H. by apply cring_link in H.
Qed.

Lemma cring_single h c : cring h [c] → linked h c c.
Proof. intros [_ HF]. by apply Forall2_cons_1 in HF as [? _]. Qed.

(** A heap that keeps the links of the nodes of a ring keeps the ring. *)
Lemma cring_frame h h' l :
  (∀ a, a ∈ l → nx h' a = nx h a ∧ pv h' a = pv h a) → cring h l → cring h' l.
Proof.
  intros Hf [Hnd HF]. split; [done|].
  apply (Forall2_impl_elem _ _ _ _ HF). intros a b Ha Hb [Hn Hp].
  apply (proj1 (rot1_elem _ _)) in Hb.
  rewrite /linked. destruct (Hf a Ha) as [-> _], (Hf b Hb) as [_ ->]. done.
Qed.

(** Splicing a new node [x] in front of the first node [c] of a ring:
    seen from [c], the new node comes last. *)
Lemma cring_snoc h h' c t b x :
  cring h (c :: t) →
  last (c :: t) = Some b →
  x ∉ c :: t →
  linked h' b x → linked h' x c →
  (∀ a, a ∈ c :: t → a ≠ b → nx h' a = nx h a) →
  (∀ a, a ∈ c :: t → a ≠ c → pv h' a = pv h a) →
  cring h' (c :: t ++ [x]).
Proof.
  intros [Hnd HF] Hlast Hx Hbx Hxc Hfn Hfp.
  destruct (last_Some (c :: t) b) as [[u Hu] _]; [done|].
  assert (length u = length t) as Hlen.
  { apply (f_equal length) in Hu. rewrite /= length_app /= in Hu. lia. }
  split.
  - change (c :: t ++ [x]) with ((c :: t) ++ [x]). apply NoDup_app.
    split_and!; [done | |apply NoDup_singleton].
    intros z Hz ->%list_elem_of_singleton. done.
  - rewrite rot1_cons in HF. rewrite rot1_cons.
    change (c :: t ++ [x]) with ((c :: t) ++ [x]). rewrite Hu in HF |- *.
    apply Forall2_app_inv in HF as [HF Hbc]; [|done].
    rewrite -!app_assoc.
    apply Forall2_app; [|simpl; repeat (constructor; [done|]); constructor].
    apply (Forall2_impl_elem _ _ _ _ HF). intros a a' Ha Ha' [Hn Hp].
    rewrite Hu in Hnd Hfn Hfp.
    assert (a ≠ b) as Hab.
    { intros ->. apply NoDup_app in Hnd as (_ & Hnd & _).
      apply (Hnd b); [done|set_solver]. }
    assert (a' ≠ c) as Ha'c.
    { intros ->. rewrite -Hu in Hnd. apply NoDup_cons in Hnd as [Hnd _]. done. }
    split.
    + rewrite Hfn; [done|set_solver|done].
    + rewrite Hfp; [done| |done]. rewrite -Hu. by right.
Qed.

(** Unsplicing the first node [e] of a ring of more than one node. *)
Lemma cring_tail h h' e c t b :
  cring h (e :: c :: t) →
  last (c :: t) = Some b →
  linked h' b c →
  (∀ a, a ∈ c :: t → a ≠ b → nx h' a = nx h a) →
  (∀ a, a ∈ c :: t → a ≠ c → pv h' a = pv h a) →
  cring h' (c :: t).
Proof.
  intros [Hnd HF] Hlast Hbc Hfn Hfp.
  destruct (last_Some (c :: t) b) as [[u Hu] _]; [done|].
  assert (length u = length t) as Hlen.
  { apply (f_equal length) in Hu. rewrite /= length_app /= in Hu. lia. }
  apply NoDup_cons in Hnd as [He Hnd]. split; [done|].
  rewrite rot1_cons in HF. apply Forall2_cons_1 in HF as [_ HF].
  rewrite rot1_cons. rewrite Hu in HF |- *.
  apply Forall2_app_inv in HF as [HF _]; [|done].
  apply Forall2_app; [|simpl; repeat (constructor; [done|]); constructor].
  apply (Forall2_impl_elem _ _ _ _ HF). intros a a' Ha Ha' [Hn Hp].
  rewrite Hu in Hnd Hfn Hfp.
  assert (a ≠ b) as Hab.
  { intros ->. apply NoDup_app in Hnd as (_ & Hnd & _).
    apply (Hnd b); [done|set_solver]. }
  assert (a' ≠ c) as Ha'c.
  { intros ->. rewrite -Hu in Hnd. apply NoDup_cons in Hnd as [Hnd _]. done. }
  split.
  + rewrite Hfn; [done|set_solver|done].
  + rewrite Hfp; [done| |done]. rewrite -Hu. by right.
Qed.

(** ** Reading and writing fields *)

Lemma nx_alter_ne h f p a : a ≠ p → nx (alter f p h) a = nx h a.
Proof. apply proj_alter_ne. Qed.

Lemma pv_alter_ne h f p a : a ≠ p → pv (alter f p h) a = pv h a.
Proof. apply proj_alter_ne. Qed.

Lemma pth_alter_ne h f p a : a ≠ p → pth (alter f p h) a = pth h a.
Proof. apply proj_alter_ne. Qed.

Lemma vl_alter_ne h f p a : a ≠ p → vl (alter f p h) a = vl h a.
Proof. apply proj_alter_ne. Qed.

Lemma lit_alter_ne h f p a : a ≠ p → lit (alter f p h) a = lit h a.
Proof. apply proj_alter_ne. Qed.

Lemma nx_set_next h p v : is_Some (h !! p) → nx (alter (set_next v) p h) p = Some v.
Proof. intros. by apply proj_alter_eq. Qed.

Lemma pv_set_prev h p v : is_Some (h !! p) → pv (alter (set_prev v) p h) p = Some v.
Proof. intros. by apply proj_alter_eq. Qed.

Lemma pth_set_path h p v : is_Some (h !! p) → pth (alter (set_path v) p h) p = Some v.
Proof. intros. by apply proj_alter_eq. Qed.

Lemma vl_set_value h p v : is_Some (h !! p) → vl (alter (set_value v) p h) p = Some v.
Proof. intros. by apply proj_alter_eq. Qed.

Lemma pth_set_path_literal h p v :
  is_Some (h !! p) → pth (alter (set_path_literal v) p h) p = Some v.
Proof. intros. by apply proj_alter_eq. Qed.

Lemma lit_set_path h p v :
  is_Some (h !! p) → lit (alter (set_path v) p h) p = Some false.
Proof. intros. by apply proj_alter_eq. Qed.

Lemma lit_set_path_literal h p v :
  is_Some (h !! p) → lit (alter (set_path_literal v) p h) p = Some true.
Proof. intros. by apply proj_alter_eq. Qed.

Lemma nx_set_prev h p v a : nx (alter (set_prev v) p h) a = nx h a.
Proof. by apply proj_alter_keep. Qed.

Lemma nx_set_path h p v a : nx (alter (set_path v) p h) a = nx h a.
Proof. by apply proj_alter_keep. Qed.

Lemma nx_set_value h p v a : nx (alter (set_value v) p h) a = nx h a.
Proof. by apply proj_alter_keep. Qed.

Lemma pv_set_next h p v a : pv (alter (set_next v) p h) a = pv h a.
Proof. by apply proj_alter_keep. Qed.

Lemma pv_set_path h p v a : pv (alter (set_path v) p h) a = pv h a.
Proof. by apply proj_alter_keep. Qed.

Lemma pv_set_value h p v a : pv (alter (set_value v) p h) a = pv h a.
Proof. by apply proj_alter_keep. Qed.

Lemma pth_set_next h p v a : pth (alter (set_next v) p h) a = pth h a.
Proof. by apply proj_alter_keep. Qed.

Lemma pth_set_prev h p v a : pth (alter (set_prev v) p h) a = pth h a.
Proof. by apply proj_alter_keep. Qed.

Lemma pth_set_value h p v a : pth (alter (set_value v) p h) a = pth h a.
Proof. by apply proj_alter_keep. Qed.

Lemma vl_set_next h p v a : vl (alter (set_next v) p h) a = vl h a.
Proof. by apply proj_alter_keep. Qed.

Lemma vl_set_prev h p v a : vl (alter (set_prev v) p h) a = vl h a.
Proof. by apply proj_alter_keep. Qed.

Lemma vl_set_path h p v a : vl (alter (set_path v) p h) a = vl h a.
Proof. by apply proj_alter_keep. Qed.

Lemma nx_set_path_literal h p v a : nx (alter (set_path_literal v) p h) a = nx h a.
Proof. by apply proj_alter_keep. Qed.

Lemma pv_set_path_literal h p v a : pv (alter (set_path_literal v) p h) a = pv h a.
Proof. by apply proj_alter_keep. Qed.

Lemma vl_set_path_literal h p v a : vl (alter (set_path_literal v) p h) a = vl h a.
Proof. by apply proj_alter_keep. Qed.

Lemma lit_set_next h p v a : lit (alter (set_next v) p h) a = lit h a.
Proof. by apply proj_alter_keep. Qed.

Lemma lit_set_prev h p v a : lit (alter (set_prev v) p h) a = lit h a.
Proof. by apply proj_alter_keep. Qed.

Lemma lit_set_value h p v a : lit (alter (set_value v) p h) a = lit h a.
Proof. by apply proj_alter_keep. Qed.

Lemma nx_delete_ne h p a : a ≠ p → nx (delete p h) a = nx h a.
Proof. apply proj_delete_ne. Qed.

Lemma pv_delete_ne h p a : a ≠ p → pv (delete p h) a = pv h a.
Proof. apply proj_delete_ne. Qed.

Lemma pth_delete_ne h p a : a ≠ p → pth (delete p h) a = pth h a.
Proof. apply proj_delete_ne. Qed.

Lemma vl_delete_ne h p a : a ≠ p → vl (delete p h) a = vl h a.
Proof. apply proj_delete_ne. Qed.

Lemma lit_delete_ne h p a : a ≠ p → lit (delete p h) a = lit h a.
Proof. apply proj_delete_ne. Qed.

Lemma nx_insert_ne h p e a : a ≠ p → nx (<[p := e]> h) a = nx h a.
Proof. apply proj_insert_ne. Qed.

Lemma pv_insert_ne h p e a : a ≠ p → pv (<[p := e]> h) a = pv h a.
Proof. apply proj_insert_ne. Qed.

Lemma pth_insert_ne h p e a : a ≠ p → pth (<[p := e]> h) a = pth h a.
Proof. apply proj_insert_ne. Qed.

Lemma vl_insert_ne h p e a : a ≠ p → vl (<[p := e]> h) a = vl h a.
Proof. apply proj_insert_ne. Qed.

Lemma lit_insert_ne h p e a : a ≠ p → lit (<[p := e]> h) a = lit h a.
Proof. apply proj_insert_ne. Qed.

Lemma alive_alter (h : gmap N aug_entry) f p a :
  is_Some (alter f p h !! a) ↔ is_Some (h !! a).
Proof.
  destruct (decide (p = a)) as [->|Hne].
  - rewrite lookup_alter_eq. apply fmap_is_Some.
  - by rewrite lookup_alter_ne.
Qed.

Lemma alive_nx h a : is_Some (nx h a) ↔ is_Some (h !! a).
Proof. apply fmap_is_Some. Qed.

Lemma nx_alive h a v : nx h a = Some v → is_Some (h !! a).
Proof. intros H. apply alive_nx. eauto. Qed.

Create Rewrite HintDb heap.

#[local] Hint Rewrite
  nx_set_prev nx_set_path nx_set_value pv_set_next pv_set_path pv_set_value
  pth_set_next pth_set_prev pth_set_value vl_set_next vl_set_prev vl_set_path
  nx_set_path_literal pv_set_path_literal vl_set_path_literal
  lit_set_next lit_set_prev lit_set_value
  : heap.

#[local] Hint Rewrite nx_set_next pv_set_prev pth_set_path vl_set_value
  pth_set_path_literal lit_set_path lit_set_path_literal
  using (rewrite ?alive_alter; eauto) : heap.

#[local] Hint Rewrite nx_alter_ne pv_alter_ne pth_alter_ne vl_alter_ne
  nx_delete_ne pv_delete_ne pth_delete_ne vl_delete_ne
  nx_insert_ne pv_insert_ne pth_insert_ne vl_insert_ne
  lit_alter_ne lit_delete_ne lit_insert_ne
  using congruence : heap.

(** ** Steps of the state monad *)

Arguments bind {_ _} _ _ _ : simpl never.

Arguments ret {_} _ _ : simpl never.

Arguments rd {_} _ _ : simpl never.

Arguments store _ _ _ : simpl never.

Arguments free _ _ : simpl never.

Arguments rd_next _ _ : simpl never.

Arguments rd_prev _ _ : simpl never.

Arguments rd_path _ _ : simpl never.

Arguments rd_value _ _ : simpl never.

Arguments rd_literal _ _ : simpl never.

Arguments malloc_ok _ : simpl never.

Arguments calloc_entry _ : simpl never.

Arguments get_head _ : simpl never.

Lemma with_heap_heap h w : heap (with_heap h w) = h.
Proof. done. Qed.

Lemma with_heap_head h w : head (with_heap h w) = head w.
Proof. done. Qed.

Lemma with_heap_twice h h' w : with_heap h' (with_heap h w) = with_heap h' w.
Proof. done. Qed.

Lemma bind_ret {A B} (x : A) (k : A → M B) w : bind (ret x) k w = k x w.
Proof. done. Qed.

Lemma bind_assoc {A B C} (m : M A) (f : A → M B) (k : B → M C) w :
  bind (bind m f) k w = bind m (λ x, bind (f x) k) w.
Proof. rewrite /bind. by destruct (m w) as [[x w']|]. Qed.

Lemma bind_eq {A B} (m : M A) (k : A → M B) w x w1 :
  m w = Some (x, w1) → bind m k w = k x w1.
Proof. rewrite /bind. by intros ->. Qed.

Lemma bind_get_head {B} (k : ptr → M B) w : bind get_head k w = k (head w) w.
Proof. done. Qed.

Lemma bind_rd {A B} (f : world → option A) (k : A → M B) w x :
  f w = Some x → bind (rd f) k w = k x w.
Proof. rewrite /bind /rd => ->. done. Qed.

Lemma bind_rd_next {B} p (k : ptr → M B) w v :
  nx (heap w) p = Some v → bind (rd_next p) k w = k v w.
Proof. apply (bind_rd (λ w, nx (heap w) p)). Qed.

Lemma bind_rd_prev {B} p (k : ptr → M B) w v :
  pv (heap w) p = Some v → bind (rd_prev p) k w = k v w.
Proof. apply (bind_rd (λ w, pv (heap w) p)). Qed.

Lemma bind_rd_path {B} p (k : cstr → M B) w v :
  pth (heap w) p = Some v → bind (rd_path p) k w = k v w.
Proof. apply (bind_rd (λ w, pth (heap w) p)). Qed.

Lemma bind_rd_value {B} p (k : option cstr → M B) w v :
  vl (heap w) p = Some v → bind (rd_value p) k w = k v w.
Proof. apply (bind_rd (λ w, vl (heap w) p)). Qed.

Lemma bind_rd_literal {B} p (k : bool → M B) w v :
  lit (heap w) p = Some v → bind (rd_literal p) k w = k v w.
Proof. apply (bind_rd (λ w, lit (heap w) p)). Qed.

Lemma bind_store {B} p f (k : unit → M B) w :
  is_Some (heap w !! p) →
  bind (store p f) k w = k tt (with_heap (alter f p (heap w)) w).
Proof. intros [e He]. by rewrite /bind /store He. Qed.

Lemma bind_free {B} p (k : unit → M B) w :
  is_Some (heap w !! p) →
  bind (free p) k w = k tt (with_heap (delete p (heap w)) w).
Proof. intros [e He]. by rewrite /bind /free He. Qed.

Lemma malloc_ok_eq w : malloc_ok w = Some (next_ok w, pop w).
Proof. destruct w as [h hd [|b o]]; done. Qed.

Lemma bind_malloc_ok {B} (k : bool → M B) w :
  bind malloc_ok k w = k (next_ok w) (pop w).
Proof. by rewrite /bind malloc_ok_eq. Qed.

Lemma fresh_ptr_null h : fresh_ptr h ≠ NULL.
Proof.
  intros E. pose proof (is_fresh ({[NULL]} ∪ dom h)) as H.
  rewrite -/(fresh_ptr h) E in H. set_solver.
Qed.

Lemma fresh_ptr_dead h : h !! fresh_ptr h = None.
Proof.
  pose proof (is_fresh ({[NULL]} ∪ dom h)) as H.
  apply not_elem_of_dom. rewrite -/(fresh_ptr h) in H. set_solver.
Qed.

Lemma bind_calloc_entry {B} (k : ptr → M B) w :
  bind calloc_entry k w =
  if next_ok w
  then k (fresh_ptr (heap w))
         (with_heap (<[fresh_ptr (heap w) := Entry [] false None NULL NULL]> (heap w)) (pop w))
  else k NULL (pop w).
Proof.
  rewrite /calloc_entry /bind malloc_ok_eq. by destruct (next_ok w).
Qed.

(** ** Unsplicing and splicing in a ring *)

Ltac heap_simpl := autorewrite with heap.

Lemma cring_ends h e t b :
  cring h (e :: t) → last (e :: t) = Some b → linked h b e.
Proof.
  intros H Hl. destruct (last_Some (e :: t) b) as [[u Hu] _]; [done|].
  destruct u as [|e' u].
  - injection Hu as -> ->. by apply cring_single.
  - injection Hu as <- ->. by apply cring_link_last in H.
Qed.

Lemma last_elem {A} (l : list A) b : last l = Some b → b ∈ l.
Proof.
  intros Hl. destruct (last_Some l b) as [[u ->] _]; [done|]. set_solver.
Qed.

Lemma last_cons_ne (e : ptr) t b :
  NoDup (e :: t) → t ≠ [] → last (e :: t) = Some b → b ≠ e ∧ last t = Some b.
Proof.
  intros Hnd Ht Hl. destruct t as [|c t]; [done|].
  rewrite last_cons_cons in Hl. split; [|done].
  intros ->. apply NoDup_cons in Hnd as [Hnd _]. by apply Hnd, last_elem.
Qed.

Lemma unspliced_cring h e c t b :
  cring h (e :: c :: t) → last (c :: t) = Some b →
  cring (unspliced h b c) (c :: t).
Proof.
  intros H Hl. pose proof (cring_nodup _ _ H) as Hnd.
  assert (is_Some (h !! b)) as Hb.
  { eapply cring_alive; [done|]. right. by apply last_elem. }
  assert (is_Some (h !! c)) as Hc.
  { eapply cring_alive; [done|]. set_solver. }
  eapply cring_tail; [done..| | |]; rewrite /unspliced.
  - split; by heap_simpl.
  - intros a Ha Hab. by heap_simpl.
  - intros a Ha Hac. by heap_simpl.
Qed.

Lemma aug_entry_free_eq w e c t b :
  cring (heap w) (e :: c :: t) → last (c :: t) = Some b →
  lit (heap w) e = Some false →
  aug_entry_free e w
  = Some (tt, with_heap (delete e (unspliced (heap w) b c)) w).
Proof.
  intros H Hl Hlit. pose proof (cring_nodup _ _ H) as Hnd.
  destruct (cring_link _ _ _ _ H) as [Hec _].
  assert (last (e :: c :: t) = Some b) as Hl' by by rewrite last_cons_cons.
  destruct (cring_ends _ _ _ _ H Hl') as [Hbe Heb].
  assert (b ≠ e) as Hne by by eapply last_cons_ne.
  assert (is_Some (heap w !! b)) as Hb by by eapply nx_alive.
  assert (is_Some (heap w !! e)) as He by by eapply nx_alive.
  assert (is_Some (heap w !! c)) as Hc.
  { eapply cring_alive; [done|]. set_solver. }
  assert (c ≠ e) as Hce.
  { intros ->. apply NoDup_cons in Hnd as [Hnd _]. set_solver. }
  rewrite /aug_entry_free.
  rewrite (bind_rd_prev _ _ _ b) // (bind_rd_next _ _ _ c) // bind_store //.
  rewrite (bind_rd_next _ _ _ c); last by simpl; heap_simpl.
  rewrite (bind_rd_prev _ _ _ b); last by simpl; heap_simpl.
  rewrite bind_store; last by simpl; rewrite alive_alter.
  rewrite (bind_rd_literal _ _ _ false); last by simpl; heap_simpl.
  destruct He as [x He].
  rewrite (bind_rd_value _ _ _ (e_value x));
    last by simpl; heap_simpl; rewrite /vl He.
  rewrite /free /= lookup_alter_ne // lookup_alter_ne // He. done.
Qed.

Lemma nx_insert_eq h p e : nx (<[p := e]> h) p = Some (e_next e).
Proof. by rewrite /nx lookup_insert_eq. Qed.

Lemma pv_insert_eq h p e : pv (<[p := e]> h) p = Some (e_prev e).
Proof. by rewrite /pv lookup_insert_eq. Qed.

Lemma pth_insert_eq h p e : pth (<[p := e]> h) p = Some (e_path e).
Proof. by rewrite /pth lookup_insert_eq. Qed.

Lemma vl_insert_eq h p e : vl (<[p := e]> h) p = Some (e_value e).
Proof. by rewrite /vl lookup_insert_eq. Qed.

Lemma lit_insert_eq h p e : lit (<[p := e]> h) p = Some (e_literal e).
Proof. by rewrite /lit lookup_insert_eq. Qed.

#[local] Hint Rewrite nx_insert_eq pv_insert_eq pth_insert_eq vl_insert_eq
  lit_insert_eq : heap.

Lemma alive_insert (h : gmap N aug_entry) p e a :
  is_Some (<[p := e]> h !! a) ↔ a = p ∨ is_Some (h !! a).
Proof.
  destruct (decide (p = a)) as [->|Hne].
  - rewrite lookup_insert_eq. naive_solver.
  - rewrite lookup_insert_ne //. naive_solver.
Qed.

Ltac alive_tac :=
  simpl; rewrite ?alive_alter ?alive_insert; by eauto.

Section inserted.

Context (h : gmap N aug_entry) (e : ptr) (path : cstr) (b c : ptr).

Context (Hb : is_Some (h !! b)) (Hc : is_Some (h !! c)) (He : h !! e = None).

Lemma inserted_be : b ≠ e.
Proof. intros E. pose proof Hb as [x Hx]. rewrite E He in Hx. done. Qed.

Lemma inserted_ce : c ≠ e.
Proof. intros E. pose proof Hc as [x Hx]. rewrite E He in Hx. done. Qed.

#[local] Hint Resolve inserted_be inserted_ce : core.

Lemma inserted_links : linked (inserted h e path b c) b e
                       ∧ linked (inserted h e path b c) e c.
Proof.
  pose proof inserted_be. pose proof inserted_ce.
  rewrite /inserted /linked. split_and!.
  - rewrite nx_set_next //. alive_tac.
  - rewrite pv_set_next pv_alter_ne // pv_set_prev //. alive_tac.
  - rewrite nx_alter_ne // !nx_set_prev nx_set_next //. alive_tac.
  - rewrite pv_set_next pv_set_prev //. alive_tac.
Qed.

Lemma inserted_nx a : a ≠ b → a ≠ e → nx (inserted h e path b c) a = nx h a.
Proof.
  intros. pose proof inserted_be. pose proof inserted_ce.
  rewrite /inserted. by heap_simpl.
Qed.

Lemma inserted_pv a : a ≠ c → a ≠ e → pv (inserted h e path b c) a = pv h a.
Proof.
  intros. pose proof inserted_be. pose proof inserted_ce.
  rewrite /inserted. by heap_simpl.
Qed.

Lemma inserted_pth a :
  pth (inserted h e path b c) a = if decide (a = e) then Some path else pth h a.
Proof.
  pose proof inserted_be. pose proof inserted_ce.
  rewrite /inserted. heap_simpl. case_decide as E.
  - subst a. rewrite pth_set_path //. alive_tac.
  - by heap_simpl.
Qed.

Lemma inserted_vl a :
  vl (inserted h e path b c) a = if decide (a = e) then Some None else vl h a.
Proof.
  pose proof inserted_be. pose proof inserted_ce.
  rewrite /inserted. heap_simpl. case_decide as E.
  - subst a. by heap_simpl.
  - by heap_simpl.
Qed.

Lemma inserted_dom : dom (inserted h e path b c) = {[e]} ∪ dom h.
Proof. by rewrite /inserted !dom_alter_L dom_insert_L. Qed.

Lemma inserted_cring t :
  cring h (c :: t) → last (c :: t) = Some b →
  cring (inserted h e path b c) (c :: t ++ [e]).
Proof.
  intros H Hl. destruct inserted_links.
  eapply cring_snoc; [done..| | | | |]; try done.
  - intros Hin. destruct (cring_alive _ _ _ H Hin) as [x Hx]. congruence.
  - intros a Ha Hab. apply inserted_nx; [done|].
    intros ->. destruct (cring_alive _ _ _ H Ha) as [x Hx]. congruence.
  - intros a Ha Hac. apply inserted_pv; [done|].
    intros ->. destruct (cring_alive _ _ _ H Ha) as [x Hx]. congruence.
Qed.

End inserted.

Lemma pop_with_heap h w : pop (with_heap h w) = with_heap h (pop w).
Proof. done. Qed.

Lemma pop_heap w : heap (pop w) = heap w.
Proof. done. Qed.

Lemma pop_head w : head (pop w) = head w.
Proof. done. Qed.

Lemma with_heap_id w : with_heap (heap w) w = w.
Proof. by destruct w. Qed.

Lemma next_ok_with_heap h w : next_ok (with_heap h w) = next_ok w.
Proof. done. Qed.

Lemma aug_entry_insert_eq w path c t b :
  cring (heap w) (c :: t) → last (c :: t) = Some b →
  aug_entry_insert path c w =
  if next_ok w then
    if next_ok (pop w)
    then Some (fresh_ptr (heap w),
               with_heap (inserted (heap w) (fresh_ptr (heap w)) path b c)
                 (pop (pop w)))
    else Some (NULL, pop (pop w))
  else Some (NULL, pop w).
Proof.
  intros H Hl. set (e := fresh_ptr (heap w)).
  assert (heap w !! e = None) as He by apply fresh_ptr_dead.
  assert (is_Some (heap w !! c)) as Hc.
  { eapply cring_alive; [done|]. by left. }
  assert (is_Some (heap w !! b)) as Hb.
  { eapply cring_alive; [done|]. by apply last_elem. }
  assert (b ≠ e) as Hbe.
  { intros ->. rewrite He in Hb. by destruct Hb. }
  assert (c ≠ e) as Hce.
  { intros ->. rewrite He in Hc. by destruct Hc. }
  destruct (cring_ends _ _ _ _ H Hl) as [_ Hcb].
  rewrite /aug_entry_insert bind_calloc_entry.
  destruct (next_ok w) eqn:Hok; last first.
  { done. }
  rewrite decide_False; last apply fresh_ptr_null.
  rewrite bind_malloc_ok /= -/e next_ok_with_heap pop_with_heap.
  destruct (next_ok (pop w)) eqn:Hok2; simpl.
  - rewrite bind_store; last alive_tac.
    rewrite bind_store; last alive_tac.
    rewrite (bind_rd_prev _ _ _ b); last by simpl; heap_simpl.
    rewrite bind_store; last alive_tac.
    rewrite (bind_rd_next _ _ _ c);
      last by (simpl; rewrite nx_set_prev nx_set_next //; alive_tac).
    rewrite bind_store; last alive_tac.
    rewrite (bind_rd_prev _ _ _ b);
      last by (simpl; rewrite pv_alter_ne // pv_set_prev //; alive_tac).
    rewrite bind_store; last alive_tac.
    done.
  - rewrite bind_free; last alive_tac.
    by rewrite /= delete_insert_id.
Qed.

(** ** Well-formed stores *)

Lemma literals_protected_alter h f p :
  (∀ e, e_literal (f e) = true → e_literal e = true ∧ e_path (f e) = e_path e) →
  literals_protected h → literals_protected (alter f p h).
Proof.
  intros Hf Hl a e. destruct (decide (p = a)) as [->|Hne].
  - rewrite lookup_alter_eq. destruct (h !! a) as [e0|] eqn:E; last done.
    intros [= <-] Ht. destruct (Hf _ Ht) as [Ht0 ->]. by apply (Hl a).
  - rewrite lookup_alter_ne //. apply Hl.
Qed.

Lemma literals_protected_set_next h p v :
  literals_protected h → literals_protected (alter (set_next v) p h).
Proof. by apply literals_protected_alter. Qed.

Lemma literals_protected_set_prev h p v :
  literals_protected h → literals_protected (alter (set_prev v) p h).
Proof. by apply literals_protected_alter. Qed.

Lemma literals_protected_set_value h p v :
  literals_protected h → literals_protected (alter (set_value v) p h).
Proof. by apply literals_protected_alter. Qed.

Lemma literals_protected_set_path h p v :
  literals_protected h → literals_protected (alter (set_path v) p h).
Proof. by apply literals_protected_alter. Qed.

Lemma literals_protected_delete h p :
  literals_protected h → literals_protected (delete p h).
Proof.
  intros Hl a e H. apply (Hl a). by apply lookup_delete_Some in H as [_ H].
Qed.

Lemma literals_protected_insert h p e :
  (e_literal e = true → protected (e_path e)) →
  literals_protected h → literals_protected (<[p := e]> h).
Proof.
  intros He Hl a e'. destruct (decide (p = a)) as [->|Hne].
  - rewrite lookup_insert_eq. by intros [= <-].
  - rewrite lookup_insert_ne //. apply Hl.
Qed.

#[local] Hint Resolve literals_protected_set_next literals_protected_set_prev
  literals_protected_set_value literals_protected_set_path
  literals_protected_delete : core.

Lemma store_ok_rot w l1 l2 : store_ok w (l1 ++ l2) → store_ok w (l2 ++ l1).
Proof.
  intros (H & Hd & Hn & Hl). split_and!.
  - by apply cring_rot.
  - rewrite Hd. set_solver.
  - set_solver.
  - done.
Qed.

Lemma store_ok_literals w l : store_ok w l → literals_protected (heap w).
Proof. by intros (_ & _ & _ & Hl). Qed.

Lemma store_ok_literal w l a :
  store_ok w l → lit (heap w) a = Some true → protected (path_of w a).
Proof.
  intros Hl%store_ok_literals. rewrite /lit /path_of /pth.
  destruct (heap w !! a) as [e|] eqn:E; last done.
  intros [= Ht]. by apply (Hl a).
Qed.

Lemma store_ok_size w l : store_ok w l → size (heap w) = length l.
Proof.
  intros ([Hnd _] & Hd & _).
  by rewrite -size_dom Hd size_list_to_set.
Qed.

Lemma store_ok_alive w l a : store_ok w l → a ∈ l → is_Some (heap w !! a).
Proof. intros (H & _). by apply cring_alive. Qed.

Lemma store_ok_elem w l a : store_ok w l → is_Some (heap w !! a) → a ∈ l.
Proof.
  intros (_ & Hd & _) Ha%elem_of_dom. rewrite Hd in Ha. set_solver.
Qed.

Lemma path_of_pth w a q : pth (heap w) a = Some q → path_of w a = q.
Proof. by rewrite /path_of => ->. Qed.

Lemma same_entries_path w w' l a :
  same_entries w w' l → a ∈ l → path_of w' a = path_of w a.
Proof. intros H Ha. rewrite /path_of. by destruct (H a Ha) as [-> _]. Qed.

Lemma same_entries_refl w l : same_entries w w l.
Proof. by intros a _. Qed.

Lemma same_entries_trans w1 w2 w3 l l' :
  same_entries w1 w2 l → same_entries w2 w3 l' → l ⊆ l' →
  same_entries w1 w3 l.
Proof.
  intros H1 H2 Hs a Ha. destruct (H1 a Ha) as [<- <-].
  apply H2. by apply Hs.
Qed.

Lemma same_entries_paths w w' l : same_entries w w' l → same_paths w w' l.
Proof. intros H a Ha. by destruct (H a Ha). Qed.

Lemma same_paths_path w w' l a :
  same_paths w w' l → a ∈ l → path_of w' a = path_of w a.
Proof. intros H Ha. by rewrite /path_of H. Qed.

Lemma same_paths_trans w1 w2 w3 l l' :
  same_paths w1 w2 l → same_paths w2 w3 l' → l ⊆ l' → same_paths w1 w3 l.
Proof. intros H1 H2 Hs a Ha. rewrite -H1 //. apply H2. by apply Hs. Qed.

(** ** [aug_entry_find] returns the first entry that matches *)

Lemma aug_entry_find_from_spec w path suf : ∀ p fuel,
  Forall2 (linked (heap w)) (p :: suf) (suf ++ [head w]) →
  head w ∉ suf →
  length suf < fuel →
  aug_entry_find_from fuel path p w = Some (first_match w path (p :: suf)).
Proof.
  induction suf as [|p' suf IH]; intros p fuel HF Hhd Hlen;
    (destruct fuel as [|fuel]; [simpl in Hlen; lia|]);
    apply Forall2_cons_1 in HF as [[Hn _] HF];
    rewrite /= /path_of /pth; rewrite /nx in Hn;
    destruct (heap w !! p) as [e|] eqn:He; try done;
    simpl in Hn |- *; injection Hn as Hn;
    fold (path_eq path (e_path e));
    destruct (path_eq path (e_path e)); try done.
  - by rewrite decide_True.
  - rewrite decide_False; last set_solver.
    rewrite Hn IH //; [set_solver|simpl in Hlen; lia].
Qed.

Lemma aug_entry_find_spec w l path :
  ring w l → aug_entry_find path w = Some (first_match w path l).
Proof.
  intros [Hok [rest ->]]. rewrite /aug_entry_find.
  pose proof Hok as ([Hnd HF] & _).
  apply aug_entry_find_from_spec.
  - by rewrite rot1_cons in HF.
  - by apply NoDup_cons in Hnd as [? _].
  - rewrite (store_ok_size _ _ Hok) /=. lia.
Qed.

Lemma first_match_app w path l1 l2 :
  NULL ∉ l1 →
  first_match w path (l1 ++ l2) =
  if decide (first_match w path l1 = NULL) then first_match w path l2
  else first_match w path l1.
Proof.
  induction l1 as [|a l1 IH]; intros Hn; simpl; [done|].
  destruct (path_eq path (path_of w a)).
  - rewrite decide_False //. set_solver.
  - apply IH. set_solver.
Qed.

Lemma first_match_null w path l :
  NULL ∉ l →
  first_match w path l = NULL ↔ ∀ a, a ∈ l → path_eq path (path_of w a) = false.
Proof.
  induction l as [|a l IH]; intros Hn; simpl.
  - split; [|done]. intros _ a Ha. by apply elem_of_nil in Ha.
  - destruct (path_eq path (path_of w a)) eqn:E.
    + split; [set_solver|]. intros H. specialize (H a). rewrite E in H.
      by discriminate H; left.
    + assert (NULL ∉ l) as Hn' by set_solver. rewrite (IH Hn'). split.
      * intros H b [->|Hb]%elem_of_cons; auto.
      * intros H b Hb. apply H. by right.
Qed.

Lemma first_match_found w path l :
  first_match w path l ≠ NULL →
  first_match w path l ∈ l
  ∧ path_eq path (path_of w (first_match w path l)) = true.
Proof.
  induction l as [|a l IH]; simpl; [done|].
  destruct (path_eq path (path_of w a)) eqn:E.
  - intros _. split; [by left|done].
  - intros H. destruct (IH H). split; [by right|done].
Qed.

Lemma first_match_ext w w' path l :
  (∀ a, a ∈ l → path_of w' a = path_of w a) →
  first_match w' path l = first_match w path l.
Proof.
  induction l as [|a l IH]; intros H; simpl; [done|].
  rewrite H; last by left. rewrite IH //. intros b Hb. apply H. by right.
Qed.

(** ** [aug_entry_insert] and [aug_entry_free] on a well-formed store *)

Lemma last_is_Some {A} (x : A) (l : list A) : ∃ b, last (x :: l) = Some b.
Proof.
  destruct (last (x :: l)) eqn:E; [eauto|]. by apply last_None in E.
Qed.

Lemma inserted_literals h e path b c :
  literals_protected h → literals_protected (inserted h e path b c).
Proof.
  intros Hl. rewrite /inserted.
  apply literals_protected_set_next, literals_protected_set_prev,
    literals_protected_set_prev, literals_protected_set_next,
    literals_protected_set_path, literals_protected_insert; done.
Qed.

Lemma aug_entry_insert_spec w l1 l2 path nxt :
  store_ok w (l1 ++ nxt :: l2) →
  ∃ r w', aug_entry_insert path nxt w = Some (r, w') ∧ head w' = head w ∧
    ((r = NULL ∧ heap w' = heap w) ∨
     (r ≠ NULL ∧ (r ∉ l1 ++ nxt :: l2) ∧ store_ok w' (l1 ++ r :: nxt :: l2) ∧
      pth (heap w') r = Some path ∧ vl (heap w') r = Some None ∧
      same_entries w w' (l1 ++ nxt :: l2))).
Proof.
  intros Hok. pose proof (store_ok_rot _ _ _ Hok) as (Hc & Hd & Hn).
  simpl in Hc. destruct (last_is_Some nxt (l2 ++ l1)) as [b Hb].
  rewrite (aug_entry_insert_eq _ _ _ _ _ Hc Hb).
  set (e := fresh_ptr (heap w)).
  assert (heap w !! e = None) as He by apply fresh_ptr_dead.
  assert (is_Some (heap w !! nxt)) as Hnxt.
  { eapply cring_alive; [done|]. by left. }
  assert (is_Some (heap w !! b)) as Hb'.
  { eapply cring_alive; [done|]. by apply last_elem. }
  assert (e ∉ l1 ++ nxt :: l2) as Hfresh.
  { intros Hin. destruct (store_ok_alive _ _ _ Hok Hin) as [x Hx]. congruence. }
  destruct (next_ok w); [destruct (next_ok (pop w))|];
    (do 2 eexists; split; [done|split; [done|]]); [right|by left..].
  split_and!.
  - apply fresh_ptr_null.
  - done.
  - split_and!.
    + simpl. pose proof (inserted_cring _ e path b nxt Hb' Hnxt He _ Hc Hb) as H.
      replace (nxt :: (l2 ++ l1) ++ [e]) with ((nxt :: l2) ++ (l1 ++ [e])) in H
        by by rewrite /= -app_assoc.
      apply cring_rot in H. by rewrite -app_assoc in H.
    + simpl. rewrite inserted_dom //. destruct Hok as (_ & -> & _).
      rewrite !list_to_set_app_L !list_to_set_cons. set_solver.
    + pose proof (fresh_ptr_null (heap w)). destruct Hok as (_ & _ & ? & _).
      set_solver.
    + simpl. apply inserted_literals. by eapply store_ok_literals.
  - simpl. rewrite inserted_pth // decide_True //.
  - simpl. rewrite inserted_vl // decide_True //.
  - intros a Ha. simpl. rewrite inserted_pth // inserted_vl //.
    rewrite !decide_False //; intros ->; done.
Qed.

Lemma aug_entry_free_spec w l1 l2 e :
  store_ok w (l1 ++ e :: l2) → l2 ++ l1 ≠ [] → lit (heap w) e = Some false →
  ∃ w', aug_entry_free e w = Some (tt, w') ∧ head w' = head w ∧
    alloc_fail w' = alloc_fail w ∧
    store_ok w' (l1 ++ l2) ∧ same_entries w w' (l1 ++ l2).
Proof.
  intros Hok Hne Hlit. pose proof (store_ok_rot _ _ _ Hok) as (Hc & Hd & Hn).
  simpl in Hc. destruct (l2 ++ l1) as [|c t] eqn:Et; [done|].
  destruct (last_is_Some c t) as [b Hb].
  rewrite (aug_entry_free_eq _ _ _ _ _ Hc Hb Hlit).
  eexists; split; [done|]. split; [done|]. split; [done|].
  pose proof (cring_nodup _ _ Hc) as Hnd.
  apply NoDup_cons in Hnd as [He Hnd].
  assert (∀ a, a ∈ l1 ++ l2 ↔ a ∈ c :: t) as Hperm.
  { intros a. rewrite -Et. set_solver. }
  split_and!.
  - split_and!.
    + apply cring_rot. rewrite Et. simpl.
      apply (cring_frame (unspliced (heap w) b c)).
      * intros a Ha. rewrite nx_delete_ne ?pv_delete_ne //; intros ->; done.
      * by eapply unspliced_cring.
    + simpl. rewrite dom_delete_L /unspliced !dom_alter_L.
      destruct Hok as (_ & -> & _).
      rewrite !list_to_set_app_L list_to_set_cons.
      assert (e ∉ l1 ++ l2) as He' by by rewrite Hperm.
      set_solver.
    + destruct Hok as (_ & _ & ? & _). set_solver.
    + simpl. rewrite /unspliced. apply store_ok_literals in Hok. auto.
  - intros a Ha. simpl. rewrite /unspliced.
    assert (a ≠ e) as Hae.
    { intros ->. by apply Hperm in Ha. }
    by heap_simpl.
Qed.

(** [aug_entry_free] on an entry whose path is a string literal. *)
Lemma aug_entry_free_literal w l1 l2 e :
  store_ok w (l1 ++ e :: l2) → l2 ++ l1 ≠ [] → lit (heap w) e = Some true →
  aug_entry_free e w = None.
Proof.
  intros Hok Hne Hlit. pose proof (store_ok_rot _ _ _ Hok) as (H & _).
  simpl in H. destruct (l2 ++ l1) as [|c t] eqn:Et; [done|].
  destruct (last_is_Some c t) as [b Hl].
  pose proof (cring_nodup _ _ H) as Hnd.
  destruct (cring_link _ _ _ _ H) as [Hec _].
  assert (last (e :: c :: t) = Some b) as Hl' by by rewrite last_cons_cons.
  destruct (cring_ends _ _ _ _ H Hl') as [Hbe Heb].
  assert (b ≠ e) as Hbne by by eapply last_cons_ne.
  assert (is_Some (heap w !! b)) as Hb by by eapply nx_alive.
  assert (is_Some (heap w !! e)) as He by by eapply nx_alive.
  assert (is_Some (heap w !! c)) as Hc.
  { eapply cring_alive; [done|]. set_solver. }
  assert (c ≠ e) as Hce.
  { intros ->. apply NoDup_cons in Hnd as [Hnd _]. set_solver. }
  rewrite /aug_entry_free.
  rewrite (bind_rd_prev _ _ _ b) // (bind_rd_next _ _ _ c) // bind_store //.
  rewrite (bind_rd_next _ _ _ c); last by simpl; heap_simpl.
  rewrite (bind_rd_prev _ _ _ b); last by simpl; heap_simpl.
  rewrite bind_store; last by simpl; rewrite alive_alter.
  rewrite (bind_rd_literal _ _ _ true); last by simpl; heap_simpl.
  done.
Qed.

(** ** Strings and paths *)

Lemma strncmp_eq_take a b n : strncmp_eq a b n = true ↔ take n a = take n b.
Proof.
  revert a b. induction n as [|n IH]; intros a b; simpl.
  { by rewrite !take_0. }
  destruct a as [|x a], b as [|y b]; simpl; try done.
  case_decide as E.
  - subst y. rewrite IH. split; [by intros ->|by intros [= ->]].
  - split; [done|]. by intros [= ? _].
Qed.

Lemma char_at_ge (s : cstr) i : length s ≤ i → char_at s i = NUL.
Proof. intros H. by rewrite /char_at lookup_ge_None_2. Qed.

Lemma char_at_app_r (s t : cstr) : char_at (s ++ t) (length s) = char_at t 0.
Proof. by rewrite /char_at lookup_app_r // Nat.sub_diag. Qed.

Lemma char_at_lookup (s : cstr) i c : s !! i = Some c → char_at s i = c.
Proof. by rewrite /char_at => ->. Qed.

Lemma pathlen_le p : pathlen p ≤ length p.
Proof. rewrite /pathlen /strlen. case_match; lia. Qed.

Lemma pathlen_cases p :
  (pathlen p = length p)
  ∨ (1 < length p ∧ pathlen p = length p - 1 ∧ char_at p (length p - 1) = SEP).
Proof.
  rewrite /pathlen /strlen.
  destruct (bool_decide (1 < length p)) eqn:E1; simpl; [|by left].
  destruct (bool_decide (char_at p (length p - 1) = SEP)) eqn:E2; [|by left].
  apply bool_decide_eq_true in E1, E2. by right.
Qed.

Lemma pathlen_pos p : p ≠ [] → 0 < pathlen p.
Proof.
  intros Hp. destruct (pathlen_cases p) as [->|(? & -> & _)]; [|lia].
  destruct p; [done|simpl; lia].
Qed.

(** The character at the PathLength of a path is its terminator or a
    separator. *)
Lemma pathlen_boundary p :
  char_at p (pathlen p) = NUL ∨ char_at p (pathlen p) = SEP.
Proof.
  destruct (pathlen_cases p) as [->|(? & -> & ?)]; [left|by right].
  by apply char_at_ge.
Qed.

Lemma pathprefix_true p q :
  pathprefix p q = true ↔
  take (pathlen p) p = take (pathlen p) q
  ∧ (char_at q (pathlen p) = NUL ∨ char_at q (pathlen p) = SEP).
Proof.
  rewrite /pathprefix /STREQLEN andb_true_iff strncmp_eq_take orb_true_iff.
  by rewrite !bool_decide_eq_true.
Qed.

Lemma norm_length p : length (norm p) = pathlen p.
Proof. rewrite /norm length_take. pose proof (pathlen_le p). lia. Qed.

Lemma path_eq_refl q : path_eq q q = true.
Proof.
  rewrite /path_eq andb_diag. apply pathprefix_true. split; [done|].
  apply pathlen_boundary.
Qed.

Lemma path_eq_norm p : path_eq p (norm p) = true.
Proof.
  rewrite /path_eq andb_true_iff !pathprefix_true. split_and!.
  - by rewrite /norm take_take Nat.min_id.
  - left. apply char_at_ge. by rewrite norm_length.
  - rewrite /norm take_take. f_equal.
    pose proof (pathlen_le (take (pathlen p) p)) as H.
    rewrite length_take in H. lia.
  - destruct (pathlen_cases (norm p)) as [E|(Hl & E & Hc)]; rewrite E norm_length.
    + apply pathlen_boundary.
    + right. rewrite norm_length in Hc. rewrite -Hc /char_at /norm.
      rewrite lookup_take_lt //. rewrite norm_length in Hl. lia.
Qed.

(** A strict prefix of the stored path does not match the path. *)
Lemma path_eq_ancestor p k : k < pathlen p → path_eq p (take k (norm p)) = false.
Proof.
  intros Hk. rewrite /path_eq. apply andb_false_iff. left.
  apply not_true_iff_false. rewrite pathprefix_true. intros [E _].
  apply (f_equal length) in E. rewrite !length_take in E.
  pose proof (pathlen_le p). lia.
Qed.

(** ** [aug_entry_make] *)

Lemma first_match_exists w q l :
  NULL ∉ l → first_match w q l ≠ NULL ↔ exists_in w q l.
Proof.
  intros Hn. split.
  - intros H. destruct (first_match_found _ _ _ H). by eexists.
  - intros (a & Ha & E) H.
    pose proof (proj1 (first_match_null w q l Hn) H a Ha) as H'.
    by rewrite H' in E.
Qed.

Lemma exists_in_mono w w' q l l' :
  exists_in w q l → same_paths w w' l → l ⊆ l' → exists_in w' q l'.
Proof.
  intros (a & Ha & E) Hs Hsub. exists a. split; [by apply Hsub|].
  by rewrite (same_paths_path _ _ _ _ Hs Ha).
Qed.

Lemma ring_store_ok w l : ring w l → store_ok w l.
Proof. by intros [? _]. Qed.

Lemma ring_null w l : ring w l → NULL ∉ l.
Proof. by intros [(_ & _ & ? & _) _]. Qed.

Lemma ring_transfer w w' l :
  heap w' = heap w → head w' = head w → ring w l → ring w' l.
Proof. rewrite /ring /store_ok. by intros -> ->. Qed.

Lemma ring_head_elem w l : ring w l → head w ∈ l.
Proof. intros [_ [rest ->]]. by left. Qed.

(** Inserting in front of [head] appends to the traversal order. *)
Lemma ring_snoc w w' rest r :
  head w' = head w → store_ok w' (r :: head w :: rest) →
  ring w' (head w :: rest ++ [r]).
Proof.
  intros Hh Hok. split; [|rewrite Hh; eauto].
  by apply (store_ok_rot _ [r]) in Hok.
Qed.

Lemma aug_entry_make_from_spec path : ∀ rest pos w l,
  ring w l →
  ∃ ok w' ancs, aug_entry_make_from path pos rest w = Some (ok, w') ∧
    head w' = head w ∧ ring w' (l ++ ancs) ∧ same_entries w w' l ∧
    (∀ a, a ∈ ancs → ∃ k, pos ≤ k < pos + length rest
                          ∧ pth (heap w') a = Some (take k path)) ∧
    (ok = true → ∀ k, pos ≤ k → rest !! (k - pos) = Some SEP →
                 exists_in w' (take k path) (l ++ ancs)).
Proof.
  induction rest as [|c rest IH]; intros pos w l Hr.
  { exists true, w, []. rewrite app_nil_r. split_and!; try done.
    all: try (intros a Ha; by apply elem_of_nil in Ha).
    all: try (intros _ k _ Hk; by rewrite lookup_nil in Hk). }
  pose proof (ring_null _ _ Hr) as Hnull.
  (* the remaining rounds, from a store [w1] over [l ++ pre] *)
  assert (∀ w1 pre,
    head w1 = head w → ring w1 (l ++ pre) → same_entries w w1 l →
    (∀ a, a ∈ pre → pth (heap w1) a = Some (take pos path)) →
    (c = SEP → exists_in w1 (take pos path) (l ++ pre)) →
    ∃ ok w' ancs, aug_entry_make_from path (S pos) rest w1 = Some (ok, w') ∧
      head w' = head w ∧ ring w' (l ++ ancs) ∧ same_entries w w' l ∧
      (∀ a, a ∈ ancs → ∃ k, pos ≤ k < pos + length (c :: rest)
                            ∧ pth (heap w') a = Some (take k path)) ∧
      (ok = true → ∀ k, pos ≤ k → (c :: rest) !! (k - pos) = Some SEP →
                   exists_in w' (take k path) (l ++ ancs))) as Hnext.
  { intros w1 pre Hh1 Hr1 Hs1 Hpre Hex.
    destruct (IH (S pos) w1 (l ++ pre) Hr1)
      as (ok & w' & ancs & -> & Hh & Hr' & Hs & Hanc & Hall).
    exists ok, w', (pre ++ ancs). rewrite app_assoc.
    split_and!; try done.
    - congruence.
    - eapply same_entries_trans; [done..|set_solver].
    - intros a [Ha|Ha]%elem_of_app.
      + exists pos. simpl. split; [lia|].
        destruct (Hs a) as [-> _]; [set_solver|]. by apply Hpre.
      + destruct (Hanc a Ha) as (k & Hk & E). exists k. simpl. split; [lia|done].
    - intros Hok k Hk Hc. destruct (decide (k = pos)) as [->|Hne].
      + rewrite Nat.sub_diag /= in Hc. injection Hc as Hc.
        eapply exists_in_mono; [by apply Hex|by apply same_entries_paths|set_solver].
      + apply Hall; [done|lia|].
        replace (k - pos) with (S (k - S pos)) in Hc by lia. done. }
  simpl. case_decide as Hc; last first.
  { apply (Hnext w []); try done.
    all: try (by rewrite app_nil_r).
    all: try (intros a Ha; by apply elem_of_nil in Ha). }
  rewrite (bind_rd _ _ _ _ (aug_entry_find_spec _ _ _ Hr)).
  case_decide as Hf; last first.
  { apply (Hnext w []); try done.
    all: try (by rewrite app_nil_r).
    all: try (intros a Ha; by apply elem_of_nil in Ha).
    intros _. rewrite app_nil_r. by apply first_match_exists. }
  rewrite bind_get_head. destruct Hr as [Hok [rest0 ->]].
  destruct (aug_entry_insert_spec w [] rest0 (take pos path) (head w) Hok)
    as (r & w1 & Hins & Hh1 & Hcase).
  rewrite /bind Hins -/(bind _ _ w1).
  destruct Hcase as [[-> Hheap]|(Hr0 & Hfresh & Hok1 & Hp1 & _ & Hs1)].
  { case_decide; [|done]. exists false, w1, []. rewrite app_nil_r.
    split_and!; try done.
    all: try (intros a Ha; by apply elem_of_nil in Ha).
    + apply (ring_transfer w); [done..|]. split; eauto.
    + intros a _. by rewrite Hheap. }
  case_decide; [done|].
  apply (Hnext w1 [r]); try done.
  - simpl. rewrite -Hh1. apply (ring_snoc w1); [done|]. by rewrite Hh1.
  - by intros a ->%list_elem_of_singleton.
  - intros _. exists r. split; [set_solver|].
    rewrite (path_of_pth _ _ _ Hp1). apply path_eq_refl.
Qed.

Lemma char_at_Some (s : cstr) k c : k < length s → char_at s k = c → s !! k = Some c.
Proof.
  intros Hk. rewrite /char_at. destruct (lookup_lt_is_Some_2 s k Hk) as [x ->].
  simpl. by intros ->.
Qed.

Lemma aug_entry_make_spec w l1 l2 p nxt :
  p ≠ [] → ring w (l1 ++ nxt :: l2) →
  ∃ r w' ancs, aug_entry_make p nxt w = Some (r, w') ∧ head w' = head w ∧
    same_entries w w' (l1 ++ nxt :: l2) ∧
    (∀ a, a ∈ ancs → ∃ k, 1 ≤ k < pathlen p
                          ∧ pth (heap w') a = Some (take k (norm p))) ∧
    ((r = NULL ∧ ring w' ((l1 ++ nxt :: l2) ++ ancs)) ∨
     (r ≠ NULL ∧ (r ∉ (l1 ++ nxt :: l2) ++ ancs) ∧
      store_ok w' (l1 ++ r :: nxt :: l2 ++ ancs) ∧
      pth (heap w') r = Some (norm p) ∧ vl (heap w') r = Some None ∧
      (∀ k, 1 ≤ k < pathlen p → char_at (norm p) k = SEP →
            exists_in w' (take k (norm p)) ((l1 ++ nxt :: l2) ++ ancs)))).
Proof.
  intros Hp Hr. set (l := l1 ++ nxt :: l2) in *.
  assert (1 + length (drop 1 (norm p)) = pathlen p) as Hlen.
  { rewrite length_drop norm_length. pose proof (pathlen_pos p Hp). lia. }
  destruct (aug_entry_make_from_spec (norm p) (drop 1 (norm p)) 1 w l Hr)
    as (ok & w1 & ancs & Hloop & Hh1 & Hr1 & Hs1 & Hanc & Hall).
  rewrite Hlen in Hanc.
  assert (aug_entry_make p nxt w =
          (if ok then aug_entry_insert (norm p) nxt else ret NULL) w1) as ->.
  { rewrite /aug_entry_make. destruct p; [done|].
    by rewrite /bind -/(norm _) Hloop. }
  destruct ok; last first.
  { exists NULL, w1, ancs. split_and!; try done. by left. }
  pose proof (ring_store_ok _ _ Hr1) as Hok1.
  rewrite /l -app_assoc /= in Hok1.
  destruct (aug_entry_insert_spec w1 l1 (l2 ++ ancs) (norm p) nxt Hok1)
    as (r & w' & -> & Hh' & Hcase).
  exists r, w', ancs.
  destruct Hcase as [[-> Hheap]|(Hr0 & Hfresh & Hok' & Hp' & Hv' & Hs')].
  - split_and!; try done; try congruence.
    + intros a Ha. rewrite Hheap. by apply Hs1.
    + intros a Ha. rewrite Hheap. by apply Hanc.
    + left. split; [done|]. apply (ring_transfer w1); [done..|]. done.
  - assert (l1 ++ nxt :: l2 ++ ancs = l ++ ancs) as El
      by by rewrite /l -app_assoc.
    rewrite El in Hfresh Hs'.
    split_and!; try done; try congruence.
    + eapply same_entries_trans; [done..|set_solver].
    + intros a Ha. destruct (Hs' a) as [-> _]; [set_solver|]. by apply Hanc.
    + right. split_and!; try done.
      intros k Hk Hc.
      apply (exists_in_mono w1 _ _ (l ++ ancs)); [|by apply same_entries_paths|done].
      apply Hall; [done|lia|]. rewrite lookup_drop.
      replace (1 + (k - 1)) with k by lia.
      apply char_at_Some; [rewrite norm_length; lia|done].
Qed.

(** The two shapes of the traversal order after a node is spliced in
    front of an entry. *)
Lemma ring_spliced_head w w' rest r :
  head w' = head w → store_ok w' (r :: head w :: rest) →
  ring w' (head w :: rest ++ [r]).
Proof. apply ring_snoc. Qed.

Lemma ring_spliced_inner w w' x l1 l2 :
  head w' = head w → store_ok w' ((head w :: l1) ++ x :: l2) →
  ring w' (head w :: l1 ++ x :: l2).
Proof. intros Hh Hok. split; [done|]. rewrite Hh. eauto. Qed.

(** ** [aug_set] and [aug_get] *)

Lemma ring_set_value w l p v :
  ring w l → ring (with_heap (alter (set_value v) p (heap w)) (pop w)) l.
Proof.
  intros [(Hc & Hd & Hn & Hl) Hh]. split; [|done].
  split_and!; [|by rewrite /= dom_alter_L|done|simpl; auto].
  eapply cring_frame; [|done]. intros a _. simpl. by heap_simpl.
Qed.

Lemma aug_get_found w l path p v :
  ring w l → first_match w path l = p → p ≠ NULL → vl (heap w) p = Some v →
  aug_get path w = Some v.
Proof.
  intros Hr Hf Hp Hv. rewrite /aug_get (aug_entry_find_spec _ _ _ Hr) Hf /=.
  case_decide; [done|]. rewrite /vl in Hv. by destruct (heap w !! p).
Qed.

(** The tail of [aug_set] once the entry [p] is at hand. *)
Lemma aug_set_tail w l path value p :
  ring w l → p ∈ l → first_match w path l = p →
  ∃ r w', (run rd_value p;
           do dup ← malloc_ok;
           run store p (set_value (if dup : bool then Some value else None));
           if dup then ret 0%Z else ret (-1)%Z) w = Some (r, w') ∧
    head w' = head w ∧ ring w' l ∧ same_paths w w' l ∧
    (r = 0%Z → aug_get path w' = Some (Some value)).
Proof.
  intros Hr Hp Hf.
  destruct (store_ok_alive _ _ _ (ring_store_ok _ _ Hr) Hp) as [e He].
  rewrite (bind_rd_value _ _ _ (e_value e)); last by rewrite /vl He.
  rewrite bind_malloc_ok bind_store; last by rewrite /= He.
  rewrite pop_heap. set (w' := with_heap _ _).
  assert (ring w' l) as Hr' by by apply ring_set_value.
  assert (same_paths w w' l) as Hs.
  { intros a _. rewrite /w' /=. by heap_simpl. }
  exists (if next_ok w then 0%Z else (-1)%Z), w'.
  split_and!; try done; [by destruct (next_ok w)|].
  destruct (next_ok w) eqn:Hok; [|done]. intros _.
  apply (aug_get_found _ l _ p); [done| | |].
  - rewrite -Hf. apply first_match_ext. intros a Ha. by eapply same_paths_path.
  - intros ->. by apply (ring_null _ _ Hr).
  - by rewrite /w' /= vl_set_value // He.
Qed.

Lemma first_match_none w q l :
  (∀ a, a ∈ l → path_eq q (path_of w a) = false) → first_match w q l = NULL.
Proof.
  induction l as [|a l IH]; intros H; simpl; [done|].
  rewrite H; last by left. apply IH. intros b Hb. apply H. by right.
Qed.

Lemma aug_set_spec w l path value :
  path ≠ [] → ring w l →
  ∃ r w' l', aug_set path value w = Some (r, w') ∧ head w' = head w ∧
    ring w' l' ∧ l ⊆ l' ∧ same_paths w w' l ∧
    (r = 0%Z → aug_get path w' = Some (Some value)) ∧
    (r = 0%Z → first_match w path l = NULL →
     ∀ k, 1 ≤ k < pathlen path → char_at (norm path) k = SEP →
          exists_in w' (take k (norm path)) l').
Proof.
  intros Hp Hr. rewrite /aug_set.
  rewrite (bind_rd _ _ _ _ (aug_entry_find_spec _ _ _ Hr)).
  pose proof (ring_null _ _ Hr) as Hnull.
  case_decide as Hf; last first.
  { rewrite bind_ret. case_decide; [done|].
    destruct (first_match_found _ _ _ Hf) as [Hin _].
    destruct (aug_set_tail w l path value _ Hr Hin eq_refl)
      as (r & w' & -> & Hh & Hr' & Hs & Hget).
    exists r, w', l. split_and!; try done. }
  rewrite bind_assoc bind_get_head. pose proof Hr as [_ [rest El]].
  rewrite El in Hr.
  destruct (aug_entry_make_spec w [] rest path (head w) Hp Hr)
    as (r & w1 & ancs & Hmk & Hh1 & Hs1 & Hanc & Hcase).
  simpl in Hs1, Hcase. rewrite -!El in Hr Hs1 Hcase.
  rewrite (bind_eq _ _ _ _ _ Hmk).
  destruct Hcase as [[-> Hr1]|(Hr0 & Hfresh & Hok1 & Hp1 & Hv1 & Hall)].
  { case_decide; [|done]. exists (-1)%Z, w1, (l ++ ancs).
    split_and!; try done.
    - by rewrite El.
    - set_solver.
    - by apply same_entries_paths. }
  case_decide; [done|].
  assert (ring w1 ((l ++ ancs) ++ [r])) as Hr1.
  { rewrite El. apply (ring_snoc w w1 (rest ++ ancs) r Hh1 Hok1). }
  assert (first_match w1 path ((l ++ ancs) ++ [r]) = r) as Hfm.
  { rewrite first_match_app; last by (apply ring_null in Hr1; set_solver).
    rewrite decide_True; last first.
    - apply first_match_none. intros a [Ha|Ha]%elem_of_app.
      + rewrite (same_entries_path _ _ _ _ Hs1 Ha).
        by apply (proj1 (first_match_null _ _ _ Hnull) Hf).
      + destruct (Hanc a Ha) as (k & Hk & E).
        rewrite (path_of_pth _ _ _ E). apply path_eq_ancestor. lia.
    - by rewrite /= (path_of_pth _ _ _ Hp1) path_eq_norm. }
  destruct (aug_set_tail w1 _ path value r Hr1 ltac:(set_solver) Hfm)
    as (res & w' & -> & Hh & Hr' & Hs & Hget).
  exists res, w', ((l ++ ancs) ++ [r]). split_and!; try done.
  - congruence.
  - set_solver.
  - eapply same_paths_trans; [by apply same_entries_paths|done|set_solver].
  - intros _ _ k Hk Hc. eapply exists_in_mono; [by apply Hall|..].
    + intros a Ha. apply Hs. set_solver.
    + set_solver.
Qed.

(** ** [aug_rm] *)

(** In traversal order every entry is linked to the one after it, the
    last one to [head]. *)
Lemma ring_linked w l1 a l2 :
  ring w (l1 ++ a :: l2) → linked (heap w) a (hd (head w) l2).
Proof.
  intros [(Hc & _) [rest El]]. apply cring_rot in Hc. simpl in Hc.
  destruct l2 as [|x l2]; simpl.
  - destruct l1 as [|y l1]; simpl in *.
    + injection El as -> _. by apply cring_single.
    + injection El as -> _. by apply cring_link in Hc.
  - by apply cring_link in Hc.
Qed.

Lemma alive_pth w a : is_Some (heap w !! a) → pth (heap w) a = Some (path_of w a).
Proof. intros [e He]. by rewrite /path_of /pth He. Qed.

Lemma filter_ext_elem {A} (P Q : A → Prop) `{!∀ x, Decision (P x)}
    `{!∀ x, Decision (Q x)} (l : list A) :
  (∀ a, a ∈ l → P a ↔ Q a) → filter P l = filter Q l.
Proof.
  induction l as [|x l IH]; intros Hext; [done|].
  rewrite !filter_cons IH; last by (intros a Ha; apply Hext; by right).
  destruct (Hext x ltac:(by left)). repeat case_decide; naive_solver.
Qed.

Lemma aug_rm_test_sentinel path q :
  q = P_SYSTEM ∨ q = P_SYSTEM_CONFIG → aug_rm_test path q = false.
Proof.
  intros Hq. rewrite /aug_rm_test /STREQ.
  destruct Hq as [-> | ->].
  - rewrite (bool_decide_eq_true_2 (P_SYSTEM = P_SYSTEM)) //=.
    by rewrite andb_false_r.
  - rewrite (bool_decide_eq_true_2 (P_SYSTEM_CONFIG = P_SYSTEM_CONFIG)) //=.
    by rewrite andb_false_r.
Qed.

Lemma aug_rm_test_literal w l path a :
  store_ok w l → is_Some (heap w !! a) → aug_rm_test path (path_of w a) = true →
  lit (heap w) a = Some false.
Proof.
  intros Hok [x Hx] Htest. rewrite /lit Hx /=. f_equal.
  destruct (e_literal x) eqn:El; [|done].
  assert (protected (path_of w a)) as Hp.
  { eapply store_ok_literal; [exact Hok|]. by rewrite /lit Hx /= El. }
  by rewrite (aug_rm_test_sentinel _ _ Hp) in Htest.
Qed.

Lemma aug_rm_from_spec path : ∀ T K w fuel cnt,
  ring w (head w :: K ++ T) →
  length T < fuel →
  ∃ w',
    aug_rm_from fuel path
      (match T with [] => hd (head w) K | _ :: T' => hd (head w) T' end) cnt w
    = Some ((cnt + Z.of_nat (length (filter (rm_hit w path) T)))%Z, w') ∧
    head w' = head w ∧ alloc_fail w' = alloc_fail w ∧
    ring w' (head w :: K ++ filter (λ a, ¬ rm_hit w path a) T) ∧
    same_entries w w' (head w :: K ++ filter (λ a, ¬ rm_hit w path a) T).
Proof.
  induction T as [|q T IH]; intros K w fuel cnt Hr Hfuel;
    (destruct fuel as [|fuel]; [simpl in Hfuel; lia|]); simpl.
  - rewrite bind_get_head. rewrite app_nil_r in Hr.
    destruct (ring_linked w [] (head w) K Hr) as [Hn _].
    rewrite (bind_rd_next _ _ _ _ Hn). rewrite decide_True //.
    exists w. rewrite app_nil_r Z.add_0_r. split_and!; try done.
  - rewrite bind_get_head.
    destruct (ring_linked w [] (head w) (K ++ q :: T) Hr) as [Hn _].
    rewrite (bind_rd_next _ _ _ _ Hn).
    pose proof Hr as [Hok _]. pose proof Hok as ([Hnd _] & _).
    assert (hd (head w) T ≠ hd (head w) (K ++ q :: T)) as Hne.
    { apply NoDup_cons in Hnd as [Hh Hnd].
      apply NoDup_app in Hnd as (HK & HKT & HT).
      apply NoDup_cons in HT as [Hq HT].
      assert (hd (head w) T = head w ∨ hd (head w) T ∈ T) as HT'.
      { destruct T; simpl; [by left|right; by left]. }
      assert (hd (head w) (K ++ q :: T) = q ∨ hd (head w) (K ++ q :: T) ∈ K)
        as HK'.
      { destruct K; simpl; [by left|right; by left]. }
      intros Heq. rewrite -Heq in HK'.
      destruct HT' as [E|E], HK' as [E'|E'].
      - apply Hh. rewrite -E E'. apply elem_of_app. right. by left.
      - apply Hh. rewrite -E. apply elem_of_app. by left.
      - apply Hq. by rewrite -E'.
      - apply (HKT _ E'). by right. }
    rewrite decide_False //.
    change (head w :: K ++ q :: T) with ((head w :: K) ++ q :: T) in Hr.
    destruct (ring_linked w _ q T Hr) as [Hqn Hqp].
    rewrite (bind_rd_prev _ _ _ _ Hqp).
    assert (is_Some (heap w !! q)) as Hq by by eapply nx_alive.
    rewrite (bind_rd_path _ _ _ _ (alive_pth _ _ Hq)).
    destruct (aug_rm_test path (path_of w q)) eqn:Htest.
    + rewrite bind_assoc (bind_rd_prev _ _ _ _ Hqp).
      destruct (aug_entry_free_spec w (head w :: K) T q Hok)
        as (w1 & Hfree & Hh1 & Ha1 & Hok1 & Hs1).
      { by destruct T. }
      { by eapply aug_rm_test_literal. }
      rewrite bind_assoc (bind_eq _ _ _ _ _ Hfree) bind_ret.
      assert (ring w1 (head w1 :: K ++ T)) as Hr1.
      { rewrite Hh1. split; [done|]. rewrite Hh1. eauto. }
      assert (nx (heap w1) (hd (head w) T)
              = Some (match T with [] => hd (head w1) K | _ :: T' => hd (head w1) T' end))
        as Hpn.
      { destruct T as [|q' T']; simpl.
        - destruct (ring_linked w1 [] (head w1) K) as [E _];
            [by rewrite app_nil_r in Hr1|]. by rewrite -Hh1.
        - change (head w1 :: K ++ q' :: T') with ((head w1 :: K) ++ q' :: T') in Hr1.
          by destruct (ring_linked w1 _ q' T' Hr1) as [E _]. }
      rewrite (bind_rd_next _ _ _ _ Hpn).
      destruct (IH K w1 fuel (cnt + 1)%Z Hr1) as (w' & Hloop & Hh & Ha & Hr' & Hs');
        [simpl in Hfuel; lia|].
      assert (∀ a, a ∈ T → path_of w1 a = path_of w a) as Hpaths.
      { intros a Ha'. eapply same_entries_path; [done|set_solver]. }
      assert (filter (rm_hit w1 path) T = filter (rm_hit w path) T) as EF1.
      { apply filter_ext_elem. intros a Ha'. by rewrite /rm_hit Hpaths. }
      assert (filter (λ a, ¬ rm_hit w1 path a) T
              = filter (λ a, ¬ rm_hit w path a) T) as EF2.
      { apply filter_ext_elem. intros a Ha'. by rewrite /rm_hit Hpaths. }
      rewrite EF1 EF2 Hh1 in Hloop Hr' Hs'.
      exists w'. rewrite filter_cons_True // filter_cons_False;
        last by (intros Hn'; apply Hn').
      split_and!; try congruence.
      * rewrite Hh1 Hloop /=. do 2 f_equal. lia.
      * eapply same_entries_trans; [|done|done].
        intros a Ha'. apply Hs1. apply elem_of_cons in Ha' as [->|Ha']; [set_solver|].
        apply elem_of_app in Ha' as [?|Ha']; [set_solver|].
        apply list_elem_of_filter in Ha' as [_ ?]. set_solver.
    + rewrite bind_ret.
      assert (ring w (head w :: (K ++ [q]) ++ T)) as Hr1
        by by rewrite -app_assoc.
      assert (nx (heap w) (hd (head w) T)
              = Some (match T with [] => hd (head w) (K ++ [q]) | _ :: T' => hd (head w) T' end))
        as Hpn.
      { destruct T as [|q' T']; simpl.
        - destruct (ring_linked w [] (head w) (K ++ [q])) as [E _]; [|done].
          by rewrite app_nil_r in Hr1.
        - change (head w :: (K ++ [q]) ++ q' :: T')
            with ((head w :: K ++ [q]) ++ q' :: T') in Hr1.
          by destruct (ring_linked w _ q' T' Hr1) as [E _]. }
      rewrite (bind_rd_next _ _ _ _ Hpn).
      destruct (IH (K ++ [q]) w fuel cnt Hr1) as (w' & Hloop & Hh & Ha & Hr' & Hs');
        [simpl in Hfuel; lia|].
      exists w'. rewrite filter_cons_False; last by rewrite /rm_hit Htest.
      rewrite filter_cons_True; last by rewrite /rm_hit Htest.
      rewrite -app_assoc /= in Hr' Hs'. by split_and!.
Qed.

Lemma aug_rm_spec w rest path :
  ring w (head w :: rest) →
  ∃ w',
    aug_rm path w
    = Some (Z.of_nat (length (filter (rm_hit w path) rest)), w') ∧
    head w' = head w ∧ alloc_fail w' = alloc_fail w ∧
    ring w' (head w :: filter (λ a, ¬ rm_hit w path a) rest) ∧
    same_entries w w' (head w :: filter (λ a, ¬ rm_hit w path a) rest).
Proof.
  intros Hr. rewrite /aug_rm bind_get_head.
  destruct (ring_linked w [] (head w) rest Hr) as [Hn _].
  rewrite (bind_rd_next _ _ _ _ Hn).
  assert (nx (heap w) (hd (head w) rest)
          = Some (match rest with [] => hd (head w) [] | _ :: T' => hd (head w) T' end))
    as Hnn.
  { destruct rest as [|q T]; simpl; [done|].
    change (head w :: q :: T) with ([head w] ++ q :: T) in Hr.
    by destruct (ring_linked w _ q T Hr) as [E _]. }
  rewrite (bind_rd_next _ _ _ _ Hnn).
  rewrite (bind_rd _ _ _ (size (heap w))) //.
  destruct (aug_rm_from_spec path rest [] w (size (heap w)) 0%Z Hr)
    as (w' & Hloop & Hrest).
  { rewrite (store_ok_size _ _ (ring_store_ok _ _ Hr)) /=. lia. }
  exists w'. by rewrite Hloop Z.add_0_l.
Qed.

(** ** Directory prefixes *)

Lemma strrchr_None p c : strrchr p c = None ↔ c ∉ p.
Proof.
  induction p as [|x p IH]; simpl.
  - split; [intros _; apply not_elem_of_nil|done].
  - destruct (strrchr p c) as [i|] eqn:E.
    + split; [done|]. intros Hn. assert (c ∉ p) as Hp by set_solver.
      apply IH in Hp. done.
    + case_decide as Hx.
      * split; [done|]. intros Hn. exfalso. apply Hn. subst. by left.
      * split; [|done]. intros _ [?|Hin]%elem_of_cons; [by subst|].
        by apply (proj1 IH).
Qed.

Lemma strrchr_Some p c i :
  strrchr p c = Some i ↔ ∃ d b, p = d ++ c :: b ∧ (c ∉ b) ∧ i = length d.
Proof.
  revert i. induction p as [|x p IH]; intros i; simpl.
  - split; [done|]. intros (d & b & E & _). by destruct d.
  - destruct (strrchr p c) as [j|] eqn:E.
    + split.
      * intros [= <-]. destruct (proj1 (IH j) eq_refl) as (d & b & -> & Hb & ->).
        by exists (x :: d), b.
      * intros (d & b & Ep & Hb & ->). destruct d as [|y d]; simplify_eq/=.
        { apply strrchr_None in Hb. congruence. }
        f_equal. assert (Some j = Some (length d)) as E'.
        { apply IH. by exists d, b. }
        congruence.
    + apply strrchr_None in E. case_decide as Hx.
      * subst x. split.
        -- intros [= <-]. by exists [], p.
        -- intros (d & b & Ep & Hb & ->). destruct d as [|y d]; [done|].
           simplify_eq/=. exfalso. apply E. set_solver.
      * split; [done|]. intros (d & b & Ep & Hb & ->).
        destruct d as [|y d]; simplify_eq/=. exfalso. apply E. set_solver.
Qed.

Lemma strrchr_dir p i : strrchr p SEP = Some i → dir_of p (take i p) ∧ i < length p.
Proof.
  intros (d & b & -> & Hb & ->)%strrchr_Some. split.
  - exists b. by rewrite take_app_length.
  - rewrite length_app /=. lia.
Qed.

Lemma dir_of_strrchr p d : dir_of p d → strrchr p SEP = Some (length d).
Proof. intros (b & -> & Hb). apply strrchr_Some. by exists d, b. Qed.

Lemma dir_of_take p d : dir_of p d → d = take (length d) p.
Proof. intros (b & -> & _). by rewrite take_app_length. Qed.

Lemma pathlen_ends p :
  1 < length p → char_at p (length p - 1) = SEP → pathlen p = length p - 1.
Proof.
  intros H1 H2. rewrite /pathlen /strlen.
  by rewrite bool_decide_eq_true_2 // bool_decide_eq_true_2.
Qed.

Lemma pathprefix_length p q : pathprefix p q = true → pathlen p ≤ length q.
Proof.
  intros [E _]%pathprefix_true. apply (f_equal length) in E.
  rewrite !length_take in E. pose proof (pathlen_le p). lia.
Qed.

Lemma path_eq_true a q :
  path_eq a q = true ↔ pathprefix a q = true ∧ pathprefix q a = true.
Proof. apply andb_true_iff. Qed.

(** Two paths of different lengths that the same entry matches: the
    longer one ends in a separator. *)
Lemma path_eq_longer a b q :
  path_eq a q = true → path_eq b q = true →
  pathlen b = length b → length a < length b → False.
Proof.
  intros [_ Hqa]%path_eq_true [Hbq Hqb]%path_eq_true Hb Hlt.
  pose proof (pathprefix_length _ _ Hbq) as H1.
  pose proof (pathprefix_length _ _ Hqa) as H2.
  apply pathprefix_true in Hbq as [Ebq _].
  rewrite Hb in H1 Ebq.
  destruct (pathlen_cases q) as [E|(Hq1 & E & Hc)]; [lia|].
  assert (length q = length b) as El by lia.
  assert (q = b) as ->.
  { rewrite take_ge // in Ebq. rewrite -El take_ge // in Ebq. }
  rewrite (pathlen_ends _ Hq1 Hc) in Hb. lia.
Qed.

Lemma strrchr_last p i :
  strrchr p SEP = Some i → char_at p (length p - 1) = SEP → i = length p - 1.
Proof.
  intros (d & b & -> & Hb & ->)%strrchr_Some Hc.
  destruct b as [|x b]; [rewrite length_app /=; lia|]. exfalso. apply Hb.
  assert (last (d ++ SEP :: x :: b) = Some SEP) as Hl.
  { rewrite last_lookup. rewrite /char_at in Hc.
    replace (pred (length (d ++ SEP :: x :: b)))
      with (length (d ++ SEP :: x :: b) - 1) by lia.
    destruct (_ !! _) eqn:E; simpl in Hc; [by subst|].
    apply lookup_ge_None in E. rewrite length_app /= in E. lia. }
  rewrite last_app last_cons_cons in Hl.
  destruct (last (x :: b)) eqn:E; [|by apply last_None in E].
  injection Hl as ->. by apply last_elem.
Qed.

Lemma strrchr_at p i : strrchr p SEP = Some i → p !! i = Some SEP.
Proof.
  intros (d & b & -> & Hb & ->)%strrchr_Some.
  by rewrite lookup_app_r // Nat.sub_diag.
Qed.

(** Two distinct paths with the same directory prefix are never matched
    by the same entry. *)
Lemma path_eq_same_dir path sibling q i :
  strrchr path SEP = Some i → strrchr sibling SEP = Some i →
  take i path = take i sibling → path ≠ sibling →
  path_eq path q = true → path_eq sibling q = true → False.
Proof.
  intros Hp Hs Hd Hne Hpq Hsq.
  pose proof (strrchr_dir _ _ Hp) as [_ Hip].
  pose proof (strrchr_dir _ _ Hs) as [_ His].
  assert (∀ p, strrchr p SEP = Some i → pathlen p ≠ length p →
               p = take i p ++ [SEP]) as Hends.
  { intros p Hi Hl. destruct (pathlen_cases p) as [?|(H1 & _ & Hc)]; [done|].
    pose proof (strrchr_last _ _ Hi Hc) as Ei.
    destruct (proj1 (strrchr_Some _ _ _) Hi) as (d & b & -> & _ & ->).
    rewrite take_app_length. rewrite length_app /= in Ei.
    destruct b; [done|simpl in Ei; lia]. }
  assert (∀ a b, strrchr a SEP = Some i → strrchr b SEP = Some i →
               path_eq a q = true → path_eq b q = true →
               pathlen a = length a → pathlen b ≠ length b → False) as Hmixed.
  { intros a b Ha Hb Haq Hbq Ea Eb.
    pose proof (strrchr_dir _ _ Ha) as [_ Hia].
    pose proof (strrchr_dir _ _ Hb) as [_ Hib].
    pose proof (Hends _ Hb Eb) as E. apply (f_equal length) in E.
    rewrite length_app length_take /= in E.
    destruct (pathlen_cases b) as [?|(Hb1 & _ & _)]; [done|].
    destruct (decide (length b = length a)) as [El|El].
    - assert (i = length a - 1) as -> by lia.
      rewrite pathlen_ends in Ea; [lia|lia|].
      apply char_at_lookup. by apply strrchr_at.
    - eapply (path_eq_longer b a); [done..|lia]. }
  destruct (decide (pathlen path = length path)) as [Ep|Ep],
           (decide (pathlen sibling = length sibling)) as [Es|Es].
  - destruct (Nat.lt_trichotomy (length path) (length sibling)) as [Hlt|[Heq|Hlt]].
    + by eapply (path_eq_longer path sibling).
    + apply Hne. apply path_eq_true in Hpq, Hsq.
      destruct Hpq as [[E1 _]%pathprefix_true _], Hsq as [[E2 _]%pathprefix_true _].
      rewrite Ep take_ge // in E1. rewrite Es take_ge // in E2.
      by rewrite E1 E2 Heq.
    + by eapply (path_eq_longer sibling path).
  - by apply (Hmixed path sibling).
  - by apply (Hmixed sibling path).
  - apply Hne. rewrite (Hends _ Hp Ep) (Hends _ Hs Es). by rewrite Hd.
Qed.

(** ** [aug_insert] *)

Lemma respliced_cring h p s t b :
  cring h (s :: t) → last (s :: t) = Some b → p ∉ s :: t → is_Some (h !! p) →
  cring (respliced h p b s) (s :: t ++ [p]).
Proof.
  intros H Hl Hp Hap.
  assert (is_Some (h !! s)) as Hs by (eapply cring_alive; [done|by left]).
  assert (is_Some (h !! b)) as Hb by (eapply cring_alive; [done|by apply last_elem]).
  assert (b ≠ p) as Hbp by (intros ->; by apply Hp, last_elem).
  assert (s ≠ p) as Hsp by (intros ->; apply Hp; by left).
  eapply cring_snoc; [done..| | | |]; rewrite /respliced.
  - split.
    + rewrite nx_set_prev nx_alter_ne // nx_set_prev nx_set_next //.
    + rewrite pv_alter_ne // pv_set_next pv_set_prev //. alive_tac.
  - split.
    + rewrite nx_set_prev nx_set_next //. alive_tac.
    + rewrite pv_set_prev //. alive_tac.
  - intros a Ha Hab. assert (a ≠ p) by (by intros ->). by heap_simpl.
  - intros a Ha Has. assert (a ≠ p) by (by intros ->). by heap_simpl.
Qed.

(** The relinking branch of [aug_insert] on a ring seen from [p], with
    [s] further on. *)
Lemma aug_insert_relink_eq w p c t b t1 s t2 b' :
  cring (heap w) (p :: c :: t) → last (c :: t) = Some b →
  c :: t = t1 ++ s :: t2 → last (s :: t2 ++ t1) = Some b' →
  (do pp ← rd_prev p;
   do pn ← rd_next p;
   run store pp (set_next pn);
   do pn ← rd_next p;
   do pp ← rd_prev p;
   run store pn (set_prev pp);
   do sp ← rd_prev s;
   run store sp (set_next p);
   do sp ← rd_prev s;
   run store p (set_prev sp);
   run store p (set_next s);
   run store s (set_prev p);
   ret 0%Z) w
  = Some (0%Z, with_heap (respliced (unspliced (heap w) b c) p b' s) w)
  ∧ cring (respliced (unspliced (heap w) b c) p b' s) (s :: (t2 ++ t1) ++ [p]).
Proof.
  intros H Hl Et Hl'. pose proof (cring_nodup _ _ H) as Hnd.
  destruct (cring_link _ _ _ _ H) as [Hpc _].
  assert (last (p :: c :: t) = Some b) as Hlp by by rewrite last_cons_cons.
  destruct (cring_ends _ _ _ _ H Hlp) as [Hbp Hpb].
  assert (b ≠ p) as Hne by by eapply last_cons_ne.
  assert (is_Some (heap w !! b)) as Hb by by eapply nx_alive.
  assert (is_Some (heap w !! p)) as Hp by by eapply nx_alive.
  assert (is_Some (heap w !! c)) as Hc.
  { eapply cring_alive; [done|]. set_solver. }
  assert (c ≠ p) as Hcp.
  { intros ->. apply NoDup_cons in Hnd as [Hnd _]. set_solver. }
  pose proof (unspliced_cring _ _ _ _ _ H Hl) as H1.
  rewrite Et in H1. apply cring_rot in H1. simpl in H1.
  destruct (cring_ends _ _ _ _ H1 Hl') as [_ Hsb'].
  assert (p ∉ s :: t2 ++ t1) as Hps.
  { apply NoDup_cons in Hnd as [Hnd _]. rewrite Et in Hnd. set_solver. }
  assert (is_Some (unspliced (heap w) b c !! p)) as Hp1.
  { by rewrite /unspliced !alive_alter. }
  assert (is_Some (unspliced (heap w) b c !! s)) as Hs1.
  { eapply cring_alive; [done|by left]. }
  assert (is_Some (unspliced (heap w) b c !! b')) as Hb1.
  { eapply cring_alive; [done|by apply last_elem]. }
  assert (is_Some (heap w !! s)) as Hs0 by by rewrite /unspliced !alive_alter in Hs1.
  assert (is_Some (heap w !! b')) as Hb0 by by rewrite /unspliced !alive_alter in Hb1.
  split; [|by apply respliced_cring].
  rewrite (bind_rd_prev _ _ _ b) // (bind_rd_next _ _ _ c) // bind_store //.
  rewrite (bind_rd_next _ _ _ c); last by simpl; heap_simpl.
  rewrite (bind_rd_prev _ _ _ b); last by simpl; heap_simpl.
  rewrite bind_store; last by simpl; rewrite alive_alter.
  rewrite with_heap_twice /= -/(unspliced (heap w) b c).
  rewrite (bind_rd_prev _ _ _ b') //.
  rewrite bind_store //.
  rewrite (bind_rd_prev _ _ _ b'); last by simpl; heap_simpl.
  rewrite bind_store; last alive_tac.
  rewrite bind_store; last alive_tac.
  rewrite bind_store; last alive_tac.
  done.
Qed.

Lemma store_ok_ring w L :
  store_ok w L → head w ∈ L → ∃ l, ring w l ∧ ∀ a, a ∈ l ↔ a ∈ L.
Proof.
  intros Hok (L1 & L2 & ->)%list_elem_of_split.
  exists (head w :: L2 ++ L1). split.
  - split; [by apply (store_ok_rot _ L1 (head w :: L2))|eauto].
  - intros a. set_solver.
Qed.

Lemma aug_insert_relink_spec w l p s :
  ring w l → p ∈ l → s ∈ l → p ≠ s →
  ∃ w' l',
    (do pp ← rd_prev p;
     do pn ← rd_next p;
     run store pp (set_next pn);
     do pn ← rd_next p;
     do pp ← rd_prev p;
     run store pn (set_prev pp);
     do sp ← rd_prev s;
     run store sp (set_next p);
     do sp ← rd_prev s;
     run store p (set_prev sp);
     run store p (set_next s);
     run store s (set_prev p);
     ret 0%Z) w = Some (0%Z, w') ∧
    head w' = head w ∧ alloc_fail w' = alloc_fail w ∧
    ring w' l' ∧ (∀ a, a ∈ l' ↔ a ∈ l) ∧
    same_entries w w' l ∧ linked (heap w') p s.
Proof.
  intros Hr Hp Hs Hne. pose proof (ring_head_elem _ _ Hr) as Hhd.
  destruct Hr as [Hok _].
  apply list_elem_of_split in Hp as (l1 & l2 & ->).
  pose proof (store_ok_rot _ _ _ Hok) as (Hc & _). simpl in Hc.
  assert (s ∈ l2 ++ l1) as Hs' by set_solver.
  apply list_elem_of_split in Hs' as (t1 & t2 & Et).
  destruct (l2 ++ l1) as [|c t] eqn:Ec; [by destruct t1|].
  destruct (last_is_Some c t) as [b Hb].
  destruct (last_is_Some s (t2 ++ t1)) as [b' Hb'].
  destruct (aug_insert_relink_eq w p c t b t1 s t2 b' Hc Hb Et Hb')
    as [-> Hc'].
  set (w' := with_heap _ w).
  assert (∀ a, a ∈ s :: (t2 ++ t1) ++ [p] ↔ a ∈ l1 ++ p :: l2) as Hmem.
  { intros a. transitivity (a = p ∨ a ∈ l2 ++ l1).
    - rewrite Ec Et. rewrite !elem_of_cons !elem_of_app !elem_of_cons.
      rewrite elem_of_nil. tauto.
    - rewrite !elem_of_app !elem_of_cons. tauto. }
  assert (store_ok w' (s :: (t2 ++ t1) ++ [p])) as Hok'.
  { split_and!; [done| | |].
    - rewrite /w' with_heap_heap /respliced /unspliced !dom_alter_L.
      destruct Hok as (_ & -> & _). apply set_eq. intros a.
      by rewrite !elem_of_list_to_set Hmem.
    - destruct Hok as (_ & _ & Hn & _). by rewrite Hmem.
    - rewrite /w' with_heap_heap /respliced /unspliced.
      apply store_ok_literals in Hok. auto 10. }
  destruct (store_ok_ring w' _ Hok') as (l' & Hr' & Hl').
  { rewrite /w' /=. by apply Hmem. }
  exists w', l'. split_and!; try done.
  - intros a. by rewrite Hl' Hmem.
  - intros a _. rewrite /w' /= /respliced /unspliced. by heap_simpl.
  - change (s :: (t2 ++ t1) ++ [p]) with (s :: ((t2 ++ t1) ++ [p])) in Hc'.
    by apply cring_link_last in Hc'.
Qed.

Lemma aug_insert_spec w l path sibling :
  ring w l →
  ∃ r w' l', aug_insert path sibling w = Some (r, w') ∧ head w' = head w ∧
    ring w' l' ∧ l ⊆ l' ∧ same_entries w w' l.
Proof.
  intros Hr. rewrite /aug_insert.
  assert (∃ r w' l', ret (-1)%Z w = Some (r, w') ∧ head w' = head w ∧
            ring w' l' ∧ l ⊆ l' ∧ same_entries w w' l) as Hfail.
  { exists (-1)%Z, w, l. by split_and!. }
  destruct (STREQ path sibling) eqn:Heq; [done|].
  destruct (strrchr path SEP) as [pdir|] eqn:Hpd; [|done].
  destruct (strrchr sibling SEP) as [sdir|] eqn:Hsd; [|done].
  case_decide as Hdir; [done|]. subst sdir.
  rewrite /STRNEQLEN. destruct (strncmp_eq path sibling pdir) eqn:Hcmp; [|done].
  simpl. apply strncmp_eq_take in Hcmp.
  apply bool_decide_eq_false in Heq.
  rewrite (bind_rd _ _ _ _ (aug_entry_find_spec _ _ _ Hr)).
  case_decide as Hs; [done|].
  rewrite (bind_rd _ _ _ _ (aug_entry_find_spec _ _ _ Hr)).
  destruct (first_match_found _ _ _ Hs) as [Hsin Hsq].
  case_decide as Hp.
  - apply list_elem_of_split in Hsin as (l1 & l2 & El). rewrite El in Hr.
    assert (path ≠ []) as Hpath by (intros ->; done).
    destruct (aug_entry_make_spec w l1 l2 path _ Hpath Hr)
      as (r & w1 & ancs & Hmk & Hh1 & Hs1 & Hanc & Hcase).
    rewrite (bind_eq _ _ _ _ _ Hmk) -El in Hs1 Hcase |- *.
    destruct Hcase as [[-> Hr1]|(Hr0 & Hfresh & Hok1 & _)].
    + exists (-1)%Z, w1, (l ++ ancs). split_and!; try done. set_solver.
    + destruct (store_ok_ring w1 _ Hok1) as (l' & Hr' & Hl').
      { rewrite Hh1. pose proof (ring_head_elem _ _ Hr). set_solver. }
      exists 0%Z, w1, l'. rewrite decide_False //. split_and!; try done.
      intros a Ha. apply Hl'. rewrite El in Ha. set_solver.
  - destruct (first_match_found _ _ _ Hp) as [Hpin Hpq].
    destruct (aug_insert_relink_spec w l _ _ Hr Hpin Hsin)
      as (w' & l' & -> & Hh & _ & Hr' & Hl' & Hs' & _).
    { intros E. rewrite E in Hpq.
      by eapply (path_eq_same_dir path sibling). }
    exists 0%Z, w', l'. split_and!; try done. intros a Ha. by apply Hl'.
Qed.

(** ** [aug_ls] and [aug_match] over the traversal order *)

Lemma aug_ls_from_spec w path copy suf : ∀ p fuel cnt arr,
  Forall2 (linked (heap w)) (p :: suf) (suf ++ [head w]) →
  head w ∉ suf →
  length suf < fuel →
  aug_ls_from fuel path copy p cnt arr w
  = ls_list path copy (path_of w <$> p :: suf) cnt arr.
Proof.
  induction suf as [|p' suf IH]; intros p fuel cnt arr HF Hhd Hlen;
    (destruct fuel as [|fuel]; [simpl in Hlen; lia|]);
    apply Forall2_cons_1 in HF as [[Hn _] HF];
    rewrite fmap_cons /= /path_of /pth; rewrite /nx in Hn;
    destruct (heap w !! p) as [e|] eqn:He; try done;
    simpl in Hn |- *; injection Hn as Hn;
    fold (ls_step path copy (e_path e) cnt arr);
    destruct (ls_step path copy (e_path e) cnt arr) as [[c a]|]; try done; simpl.
  - by rewrite decide_True.
  - rewrite decide_False; last set_solver.
    rewrite Hn IH //; [set_solver|simpl in Hlen; lia].
Qed.

Lemma aug_ls_pass w l path copy cnt arr :
  ring w l →
  aug_ls_from (size (heap w)) path copy (head w) cnt arr w
  = ls_list path copy (paths w l) cnt arr.
Proof.
  intros [Hok [rest ->]]. pose proof Hok as ([Hnd HF] & _).
  apply aug_ls_from_spec.
  - by rewrite rot1_cons in HF.
  - by apply NoDup_cons in Hnd as [? _].
  - rewrite (store_ok_size _ _ Hok) /=. lia.
Qed.

Lemma ls_list_count path qs : ∀ cnt arr,
  ls_list path false qs cnt arr
  = Some ((cnt + Z.of_nat (length (filter (ls_hit path) qs)))%Z, arr).
Proof.
  induction qs as [|q qs IH]; intros cnt arr; simpl.
  { by rewrite Z.add_0_r. }
  rewrite /ls_step. destruct (aug_ls_test path q) eqn:E; simpl.
  - rewrite IH filter_cons_True //=. do 2 f_equal. lia.
  - rewrite IH filter_cons_False //. by rewrite /ls_hit E.
Qed.

Lemma ls_list_copy path qs : ∀ pre n,
  length (filter (ls_hit path) qs) ≤ n →
  ls_list path true qs (Z.of_nat (length pre)) ((Some <$> pre) ++ replicate n None)
  = Some (Z.of_nat (length pre + length (filter (ls_hit path) qs)),
          (Some <$> pre ++ filter (ls_hit path) qs)
          ++ replicate (n - length (filter (ls_hit path) qs)) None).
Proof.
  induction qs as [|q qs IH]; intros pre n Hn; simpl.
  { by rewrite Nat.add_0_r app_nil_r Nat.sub_0_r. }
  rewrite /ls_step. destruct (aug_ls_test path q) eqn:E; simpl.
  - rewrite filter_cons_True // /= in Hn |- *.
    destruct n as [|n]; [lia|].
    rewrite decide_True;
      last by (rewrite Nat2Z.id length_app length_fmap /=; lia).
    simpl. rewrite Nat2Z.id.
    replace (<[length pre:=Some q]> ((Some <$> pre) ++ None :: replicate n None))
      with ((Some <$> pre ++ [q]) ++ replicate n None).
    2:{ rewrite fmap_app /= -app_assoc /=.
        rewrite insert_app_r_alt ?length_fmap // Nat.sub_diag //. }
    replace (Z.of_nat (length pre) + 1)%Z with (Z.of_nat (length (pre ++ [q])))
      by (rewrite length_app /=; lia).
    rewrite IH; last lia. rewrite length_app /= -!app_assoc /=.
    do 2 f_equal. lia.
  - assert (¬ ls_hit path q) as Hq by by rewrite /ls_hit E.
    rewrite filter_cons_False // in Hn. rewrite filter_cons_False //.
    by apply IH.
Qed.

(** [aug_ls] counts and copies the paths that pass its test, in traversal
    order. *)
Lemma aug_ls_spec w l path (children : bool) :
  ring w l →
  aug_ls path children w =
  let hits := filter (ls_hit path) (paths w l) in
  if children then
    if next_ok w
    then Some ((Z.of_nat (length hits), Some (Some <$> hits)), pop w)
    else Some (((-1)%Z, None), pop w)
  else Some ((Z.of_nat (length hits), None), w).
Proof.
  intros Hr. rewrite /aug_ls.
  rewrite (bind_rd _ _ _ (Z.of_nat (length (filter (ls_hit path) (paths w l))), []));
    last by rewrite (aug_ls_pass _ l) // ls_list_count.
  simpl. destruct children; simpl; [|done].
  rewrite bind_malloc_ok. destruct (next_ok w); simpl; [|done].
  rewrite (bind_rd _ _ _ (Z.of_nat (length (filter (ls_hit path) (paths w l))),
                          Some <$> filter (ls_hit path) (paths w l))); first done.
  cbv beta. rewrite (aug_ls_pass (pop w) l); last by apply (ring_transfer w).
  rewrite /= Nat2Z.id.
  pose proof (ls_list_copy path (paths (pop w) l) []
                (length (filter (ls_hit path) (paths w l)))) as H.
  simpl in H. rewrite H //. by rewrite Nat.sub_diag app_nil_r.
Qed.

Lemma aug_match_from_spec w pattern size suf : ∀ p fuel cnt matches,
  Forall2 (linked (heap w)) (p :: suf) (suf ++ [head w]) →
  head w ∉ suf →
  length suf < fuel →
  aug_match_from fuel pattern size p cnt matches w
  = match_list pattern size (path_of w <$> p :: suf) cnt matches.
Proof.
  induction suf as [|p' suf IH]; intros p fuel cnt matches HF Hhd Hlen;
    (destruct fuel as [|fuel]; [simpl in Hlen; lia|]);
    apply Forall2_cons_1 in HF as [[Hn _] HF];
    rewrite fmap_cons /= /path_of /pth; rewrite /nx in Hn;
    destruct (heap w !! p) as [e|] eqn:He; try done;
    simpl in Hn |- *; injection Hn as Hn;
    rewrite /match_step;
    destruct (fnmatch_noescape pattern (e_path e)) as [m|]; try done; simpl;
    match goal with
    | |- context [mbind _ ?x] => destruct x as [[c a]|]; try done; simpl
    end.
  - by rewrite decide_True.
  - rewrite decide_False; last set_solver.
    rewrite Hn IH //; [set_solver|simpl in Hlen; lia].
Qed.

Lemma aug_match_spec w l pattern matches size :
  ring w l →
  aug_match pattern matches size w
  = match_list pattern size (paths w l) 0%Z matches.
Proof.
  intros [Hok [rest ->]]. pose proof Hok as ([Hnd HF] & _).
  apply aug_match_from_spec.
  - by rewrite rot1_cons in HF.
  - by apply NoDup_cons in Hnd as [? _].
  - rewrite (store_ok_size _ _ Hok) /=. lia.
Qed.

(** With no room in the caller's array, [aug_match] counts the matches
    and leaves the array alone. *)
Lemma match_list_count pattern size qs : ∀ cnt matches,
  (size ≤ cnt)%Z →
  Forall (λ q, is_Some (fnmatch_noescape pattern q)) qs →
  match_list pattern size qs cnt matches
  = Some ((cnt + Z.of_nat (length (filter (match_hit pattern) qs)))%Z, matches).
Proof.
  induction qs as [|q qs IH]; intros cnt matches Hsz Hall; simpl.
  { by rewrite Z.add_0_r. }
  apply Forall_cons in Hall as [[m Hm] Hall].
  rewrite /match_step Hm /=. destruct m; simpl.
  - rewrite decide_False; last lia. simpl.
    rewrite IH //; last lia. rewrite filter_cons_True //=. do 2 f_equal. lia.
  - rewrite IH // filter_cons_False //. rewrite /match_hit Hm. by intros [=].
Qed.

(** ** The store invariant and the public operations *)

Lemma inv_extend w w' l l' :
  ring w l → path_of w (head w) = P_SYSTEM →
  (∃ a, a ∈ l ∧ path_of w a = P_SYSTEM_CONFIG) →
  head w' = head w → ring w' l' → l ⊆ l' → same_paths w w' l → inv w'.
Proof.
  intros Hr Hsys (a & Ha & Hcfg) Hh Hr' Hsub Hs. exists l'. split_and!; [done|..].
  - rewrite Hh (same_paths_path _ _ _ _ Hs) //. by apply ring_head_elem.
  - exists a. split; [by apply Hsub|]. by rewrite (same_paths_path _ _ _ _ Hs).
Qed.

Lemma aug_set_preserves path value : preserves (aug_set path value).
Proof.
  intros w r w' (l & Hr & Hsys & Hcfg) Hset.
  destruct (decide (path = [])) as [->|Hp].
  - revert Hset. rewrite /aug_set.
    rewrite (bind_rd _ _ _ _ (aug_entry_find_spec _ _ _ Hr)).
    case_decide as Hf.
    { by rewrite bind_assoc bind_get_head. }
    rewrite bind_ret. case_decide; [done|].
    destruct (first_match_found _ _ _ Hf) as [Hin _].
    destruct (aug_set_tail w l [] value _ Hr Hin eq_refl)
      as (r0 & w0 & -> & Hh & Hr' & Hs & _).
    intros [= <- <-].
    by apply (inv_extend w w0 l l).
  - destruct (aug_set_spec w l path value Hp Hr)
      as (r0 & w0 & l' & E & Hh & Hr' & Hsub & Hs & _).
    rewrite E in Hset. injection Hset as <- <-.
    by apply (inv_extend w w0 l l').
Qed.

Lemma aug_insert_preserves path sibling : preserves (aug_insert path sibling).
Proof.
  intros w r w' (l & Hr & Hsys & Hcfg) Hins.
  destruct (aug_insert_spec w l path sibling Hr)
    as (r0 & w0 & l' & E & Hh & Hr' & Hsub & Hs).
  rewrite E in Hins. injection Hins as <- <-.
  apply (inv_extend w w0 l l'); try done. by apply same_entries_paths.
Qed.

Lemma aug_rm_preserves path : preserves (aug_rm path).
Proof.
  intros w r w' (l & Hr & Hsys & a & Ha & Hcfg) Hrm.
  pose proof Hr as [_ [rest ->]].
  destruct (aug_rm_spec w rest path Hr) as (w0 & E & Hh & _ & Hr' & Hs).
  rewrite E in Hrm. injection Hrm as <- <-.
  exists (head w :: filter (λ a, ¬ rm_hit w path a) rest). rewrite Hh.
  split_and!; [done|..].
  - rewrite (same_entries_path _ _ _ _ Hs) //. by left.
  - exists a. assert (a ∈ head w :: filter (λ a, ¬ rm_hit w path a) rest) as Ha'.
    { apply elem_of_cons in Ha as [->|Ha]; [by left|]. right.
      apply list_elem_of_filter. split; [|done].
      rewrite /rm_hit aug_rm_test_sentinel; [done|by right]. }
    split; [done|]. by rewrite (same_entries_path _ _ _ _ Hs).
Qed.

Lemma aug_init_providers_preserves providers :
  Forall provider_ok providers → preserves (aug_init_providers providers).
Proof.
  induction 1 as [|p ps (Hi & Hl & _) _ IH]; intros w r w' Hinv; simpl.
  { by intros [= <- <-]. }
  rewrite /bind. destruct (prov_init p w) as [[r1 w1]|] eqn:E1; [|done].
  pose proof (Hi _ _ _ Hinv E1) as Hinv1.
  case_decide; [by intros [= <- <-]|].
  destruct (prov_load p w1) as [[r2 w2]|] eqn:E2; [|done].
  pose proof (Hl _ _ _ Hinv1 E2) as Hinv2.
  case_decide; [by intros [= <- <-]|].
  by apply IH.
Qed.

Lemma aug_save_preserves providers :
  Forall provider_ok providers → preserves (aug_save providers).
Proof.
  induction 1 as [|p ps (_ & _ & Hs) _ IH]; intros w r w' Hinv; simpl.
  { by intros [= <- <-]. }
  rewrite /bind. destruct (prov_save p w) as [[r1 w1]|] eqn:E1; [|done].
  pose proof (Hs _ _ _ Hinv E1) as Hinv1.
  case_decide; [by intros [= <- <-]|].
  by apply IH.
Qed.

Lemma inv_head w : inv w → head w ≠ NULL.
Proof.
  intros (l & Hr & _) E. apply (ring_null _ _ Hr). rewrite -E.
  by apply ring_head_elem.
Qed.

Lemma fresh_store_ring o : ring (fresh_store o) [1%N; 2%N].
Proof.
  split; [|by exists [2%N]]. split_and!.
  - split.
    + apply NoDup_cons. split; [|apply NoDup_singleton].
      by intros E%list_elem_of_singleton.
    + repeat constructor.
  - rewrite /fresh_store /= !dom_insert_L dom_empty_L. set_solver.
  - intros [E|[E|E]%elem_of_cons]%elem_of_cons; try done.
    by apply elem_of_nil in E.
  - rewrite /fresh_store /=.
    apply literals_protected_insert; [by right|].
    apply literals_protected_insert; [by left|].
    intros a e. by rewrite lookup_empty.
Qed.

Lemma fresh_store_inv o : inv (fresh_store o).
Proof.
  exists [1%N; 2%N]. split_and!; [apply fresh_store_ring|done|].
  exists 2%N. split; [|done]. right. by left.
Qed.

Lemma aug_init_boot providers w :
  uninit w →
  if next_ok w && next_ok (pop w)
  then aug_init providers w
       = aug_init_providers providers (fresh_store (tail (tail (alloc_fail w))))
  else ∃ w', aug_init providers w = Some ((-1)%Z, w').
Proof.
  destruct w as [h hd o]. intros [Hh Hd]. simpl in Hh, Hd. subst h hd.
  destruct o as [|[] [|[] o]]; vm_compute; try reflexivity; by eexists.
Qed.

Lemma aug_init_preserves providers :
  Forall provider_ok providers →
  ∀ w r w', inv w ∨ uninit w → aug_init providers w = Some (r, w') →
            r = 0%Z → inv w'.
Proof.
  intros Hp w r w' [Hinv|Hun] Hinit Hr.
  - pose proof (inv_head _ Hinv) as Hh. revert Hinit.
    rewrite /aug_init bind_get_head. case_decide; [done|].
    rewrite bind_ret. case_decide; [done|].
    by apply aug_init_providers_preserves.
  - pose proof (aug_init_boot providers w Hun) as H.
    destruct (next_ok w && next_ok (pop w)).
    + rewrite H in Hinit.
      eapply aug_init_providers_preserves; [done| |done]. apply fresh_store_inv.
    + destruct H as [w0 H]. rewrite H in Hinit. injection Hinit as <- <-. done.
Qed.

(** ** The calls of the public API *)

Lemma bind_inv {A B} (m : M A) (f : A → B) w r w' :
  (do x ← m; ret (f x)) w = Some (r, w') →
  ∃ x, m w = Some (x, w') ∧ r = f x.
Proof.
  rewrite /bind. destruct (m w) as [[x w1]|]; [|done].
  intros [= <- <-]. eauto.
Qed.

Lemma rd_inv {A} (f : world → option A) w x w' :
  rd f w = Some (x, w') → w' = w.
Proof. rewrite /rd. destruct (f w); [|done]. by intros [= _ <-]. Qed.

Lemma aug_ls_preserves path children : preserves (aug_ls path children).
Proof.
  intros w r w' Hinv. pose proof Hinv as (l & Hr & Hsys & Hcfg).
  rewrite (aug_ls_spec _ l) //=.
  assert (inv (pop w)) as Hpop.
  { exists l. split_and!; [by apply (ring_transfer w)|done..]. }
  destruct children; [destruct (next_ok w)|]; by intros [= <- <-].
Qed.

Theorem exec_preserves_inv providers c w r w' :
  Forall provider_ok providers →
  callable c w → exec providers c w = Some (r, w') → succeeded r → inv w'.
Proof.
  intros Hp Hc Hex Hok. destruct c; simpl in Hex;
    apply bind_inv in Hex as (x & Hex & ->); simpl in Hok.
  - subst x. eapply aug_init_preserves; [done| |done..].
    destruct Hc as [?|[? _]]; eauto.
  - destruct Hc as [Hinv|[_ [=]]]. by rewrite (rd_inv _ _ _ _ Hex).
  - destruct Hc as [Hinv|[_ [=]]]. by eapply aug_set_preserves.
  - destruct Hc as [Hinv|[_ [=]]]. by rewrite (rd_inv _ _ _ _ Hex).
  - destruct Hc as [Hinv|[_ [=]]]. by eapply aug_insert_preserves.
  - destruct Hc as [Hinv|[_ [=]]]. by eapply aug_rm_preserves.
  - destruct Hc as [Hinv|[_ [=]]]. by eapply aug_ls_preserves.
  - destruct Hc as [Hinv|[_ [=]]]. by rewrite (rd_inv _ _ _ _ Hex).
  - destruct Hc as [Hinv|[_ [=]]]. by eapply aug_save_preserves.
Qed.

(** ** Calls whose allocations succeed *)

Lemma allocations_succeed_next w : allocations_succeed w → next_ok w = true.
Proof.
  rewrite /allocations_succeed /next_ok. destruct (alloc_fail w) as [|b o]; [done|].
  by intros [-> _]%Forall_cons_1.
Qed.

Lemma allocations_succeed_pop w : allocations_succeed w → allocations_succeed (pop w).
Proof.
  rewrite /allocations_succeed /pop /=. destruct (alloc_fail w) as [|b o]; [done|].
  by intros [_ H]%Forall_cons_1.
Qed.

Lemma aug_entry_insert_succeeds w l1 l2 path nxt r w' :
  store_ok w (l1 ++ nxt :: l2) → allocations_succeed w →
  aug_entry_insert path nxt w = Some (r, w') →
  r ≠ NULL ∧ allocations_succeed w'.
Proof.
  intros Hok Ha. pose proof (store_ok_rot _ _ _ Hok) as (Hc & _).
  simpl in Hc. destruct (last_is_Some nxt (l2 ++ l1)) as [b Hb].
  rewrite (aug_entry_insert_eq _ _ _ _ _ Hc Hb).
  rewrite (allocations_succeed_next _ Ha).
  rewrite (allocations_succeed_next _ (allocations_succeed_pop _ Ha)).
  intros [= <- <-]. split; [apply fresh_ptr_null|].
  by apply allocations_succeed_pop, allocations_succeed_pop in Ha.
Qed.

Lemma aug_entry_make_from_succeeds path : ∀ rest pos w l ok w',
  ring w l → allocations_succeed w →
  aug_entry_make_from path pos rest w = Some (ok, w') →
  ok = true ∧ allocations_succeed w'.
Proof.
  induction rest as [|c rest IH]; intros pos w l ok w' Hr Ha; simpl.
  { by intros [= <- <-]. }
  case_decide as Hc; [|by apply (IH _ _ l)].
  rewrite (bind_rd _ _ _ _ (aug_entry_find_spec _ _ _ Hr)).
  case_decide as Hf; [|by apply (IH _ _ l)].
  rewrite bind_get_head. pose proof Hr as [Hok [rest0 El]]. rewrite El in Hok.
  destruct (aug_entry_insert_spec w [] rest0 (take pos path) (head w) Hok)
    as (r & w1 & Hins & Hh1 & Hcase).
  destruct (aug_entry_insert_succeeds w [] rest0 _ _ _ _ Hok Ha Hins) as [Hr0 Ha1].
  rewrite (bind_eq _ _ _ _ _ Hins). cbv beta.
  destruct Hcase as [[-> _]|(_ & Hfresh & Hok1 & _)]; [done|].
  case_decide; [done|].
  apply (IH (S pos) w1 (head w :: rest0 ++ [r])); [|done].
  by apply (ring_snoc w).
Qed.

Lemma aug_entry_make_succeeds w l1 l2 p nxt r w' :
  ring w (l1 ++ nxt :: l2) → allocations_succeed w →
  aug_entry_make p nxt w = Some (r, w') →
  r ≠ NULL ∧ allocations_succeed w'.
Proof.
  intros Hr Ha. rewrite /aug_entry_make. destruct p as [|c p]; [done|].
  rewrite -/(norm (c :: p)).
  destruct (aug_entry_make_from_spec (norm (c :: p)) (drop 1 (norm (c :: p))) 1
              w _ Hr) as (ok & w0 & ancs & Hloop & _ & Hr0 & _).
  rewrite (bind_eq _ _ _ _ _ Hloop).
  destruct (aug_entry_make_from_succeeds _ _ _ _ _ _ _ Hr Ha Hloop) as [-> Ha0].
  apply ring_store_ok in Hr0. rewrite -app_assoc /= in Hr0.
  by eapply aug_entry_insert_succeeds.
Qed.

Lemma aug_set_tail_eq w p value e :
  heap w !! p = Some e →
  (run rd_value p;
   do dup ← malloc_ok;
   run store p (set_value (if dup : bool then Some value else None));
   if dup then ret 0%Z else ret (-1)%Z) w
  = Some (if next_ok w then 0%Z else (-1)%Z,
          with_heap (alter (set_value (if next_ok w then Some value else None))
                       p (heap w)) (pop w)).
Proof.
  intros He. rewrite (bind_rd_value _ _ _ (e_value e)); last by rewrite /vl He.
  rewrite bind_malloc_ok bind_store; last by rewrite /= He.
  rewrite pop_heap. by destruct (next_ok w).
Qed.

Lemma aug_set_found_eq w l path value :
  ring w l → first_match w path l ≠ NULL →
  aug_set path value w
  = Some (if next_ok w then 0%Z else (-1)%Z,
          with_heap (alter (set_value (if next_ok w then Some value else None))
                       (first_match w path l) (heap w)) (pop w)).
Proof.
  intros Hr Hf. rewrite /aug_set.
  rewrite (bind_rd _ _ _ _ (aug_entry_find_spec _ _ _ Hr)).
  case_decide; [done|]. rewrite bind_ret. case_decide; [done|].
  destruct (first_match_found _ _ _ Hf) as [Hin _].
  destruct (store_ok_alive _ _ _ (ring_store_ok _ _ Hr) Hin) as [e He].
  by apply (aug_set_tail_eq _ _ _ e).
Qed.

Lemma aug_set_succeeds w l path value :
  path ≠ [] → ring w l → allocations_succeed w →
  ∃ w', aug_set path value w = Some (0%Z, w').
Proof.
  intros Hp Hr Ha.
  destruct (decide (first_match w path l = NULL)) as [Hf|Hf]; last first.
  { rewrite (aug_set_found_eq _ _ _ _ Hr Hf) (allocations_succeed_next _ Ha).
    eauto. }
  rewrite /aug_set (bind_rd _ _ _ _ (aug_entry_find_spec _ _ _ Hr)).
  case_decide; [|done].
  rewrite bind_assoc bind_get_head. pose proof Hr as [_ [rest El]].
  rewrite El in Hr.
  destruct (aug_entry_make_spec w [] rest path (head w) Hp Hr)
    as (r & w1 & ancs & Hmk & Hh1 & _ & _ & Hcase).
  destruct (aug_entry_make_succeeds w [] rest _ _ _ _ Hr Ha Hmk) as [Hr0 Ha1].
  rewrite (bind_eq _ _ _ _ _ Hmk).
  destruct Hcase as [[-> _]|(_ & _ & Hok1 & _)]; [done|].
  case_decide; [done|].
  assert (is_Some (heap w1 !! r)) as [e He].
  { apply (store_ok_alive _ _ _ Hok1). set_solver. }
  rewrite (aug_set_tail_eq _ _ _ e He) (allocations_succeed_next _ Ha1). eauto.
Qed.

(** The ancestors of a path that [aug_insert] creates. *)
Lemma aug_insert_new_ancestors w l path sibling w' :
  ring w l → first_match w path l = NULL →
  aug_insert path sibling w = Some (0%Z, w') →
  ∃ l', ring w' l' ∧
    ∀ k, 1 ≤ k < pathlen path → char_at (norm path) k = SEP →
         exists_in w' (take k (norm path)) l'.
Proof.
  intros Hr Hp. rewrite /aug_insert.
  destruct (STREQ path sibling) eqn:Heq; [by intros [= ? _]|].
  destruct (strrchr path SEP) as [pdir|] eqn:Hpd; [|by intros [= ? _]].
  destruct (strrchr sibling SEP) as [sdir|] eqn:Hsd; [|by intros [= ? _]].
  case_decide as Hdir; [by intros [= ? _]|]. subst sdir.
  rewrite /STRNEQLEN. destruct (strncmp_eq path sibling pdir) eqn:Hcmp;
    [|by intros [= ? _]].
  simpl. rewrite (bind_rd _ _ _ _ (aug_entry_find_spec _ _ _ Hr)).
  case_decide as Hs; [by intros [= ? _]|].
  rewrite (bind_rd _ _ _ _ (aug_entry_find_spec _ _ _ Hr)).
  destruct (first_match_found _ _ _ Hs) as [Hsin Hsq].
  rewrite Hp. case_decide; [|done].
  pose proof Hsin as Hsin'.
  apply list_elem_of_split in Hsin' as (l1 & l2 & El).
  assert (path ≠ []) as Hpath by (intros ->; done).
  pose proof Hr as Hr2. rewrite El in Hr2.
  destruct (aug_entry_make_spec w l1 l2 path _ Hpath Hr2)
    as (r & w1 & ancs & Hmk & Hh1 & Hs1 & Hanc & Hcase).
  rewrite (bind_eq _ _ _ _ _ Hmk). cbv beta. rewrite -El in Hs1 Hcase.
  destruct Hcase as [[-> Hr1]|(Hr0 & Hfresh & Hok1 & Hpth & _ & Hall)].
  { case_decide; [by intros [= ?]|done]. }
  case_decide; [done|]. intros [= <-].
  destruct (store_ok_ring w1 _ Hok1) as (l' & Hr' & Hl').
  { rewrite Hh1. pose proof (ring_head_elem _ _ Hr) as Hh. rewrite El in Hh.
    set_solver. }
  exists l'. split; [done|]. intros k Hk Hc.
  destruct (Hall k Hk Hc) as (a & Ha & E). exists a. split; [|done].
  apply Hl'. clear -Ha El. rewrite El in Ha.
  rewrite !elem_of_app !elem_of_cons !elem_of_app.
  rewrite !elem_of_app !elem_of_cons in Ha. tauto.
Qed.

(** * The claims *)

Lemma valid_path_nonempty p : valid_path p → p ≠ [].
Proof. by intros [[r ->] _]. Qed.

(** C1.  Round trip: on a well-formed store and for a valid absolute path
    [p], whenever [aug_set p v] returns success, [aug_get p] on the
    resulting store returns exactly [v]; [aug_set p v] does return
    success when no allocation fails, and it returns in every case. *)
Theorem aug_set_get_roundtrip (w : world) (p v : cstr) :
  inv w → valid_path p →
  (∀ w', aug_set p v w = Some (0%Z, w') → aug_get p w' = Some (Some v))
  ∧ (allocations_succeed w →
     ∃ w', aug_set p v w = Some (0%Z, w') ∧ aug_get p w' = Some (Some v))
  ∧ ∃ r w', aug_set p v w = Some (r, w').
Proof.
  intros (l & Hr & _) Hp. pose proof (valid_path_nonempty _ Hp) as Hne.
  destruct (aug_set_spec w l p v Hne Hr)
    as (r & w' & l' & E & _ & _ & _ & _ & Hget & _).
  assert (∀ w1, aug_set p v w = Some (0%Z, w1) → aug_get p w1 = Some (Some v))
    as Hround.
  { intros w1 E1. rewrite E in E1. injection E1 as -> ->. by apply Hget. }
  split; [done|]. split; [|by eauto].
  intros Ha. destruct (aug_set_succeeds w l p v Hne Hr Ha) as [w1 E1].
  exists w1. split; [done|]. by apply Hround.
Qed.

Lemma aug_set_get_roundtrip_witness :
  inv (fresh_store []) ∧ valid_path (str "/a/b")
  ∧ allocations_succeed (fresh_store [])
  ∧ ∃ w', aug_set (str "/a/b") (str "x") (fresh_store []) = Some (0%Z, w')
          ∧ aug_get (str "/a/b") w' = Some (Some (str "x")).
Proof.
  assert (valid_path (str "/a/b")) as H2.
  { split; [by eexists|]. apply (bool_decide_unpack _). by vm_compute. }
  assert (allocations_succeed (fresh_store [])) as H3 by apply Forall_nil_2.
  split; [apply fresh_store_inv|]. split; [exact H2|]. split; [exact H3|].
  exact (proj1 (proj2 (aug_set_get_roundtrip (fresh_store []) (str "/a/b")
                         (str "x") (fresh_store_inv []) H2)) H3).
Defined.

Lemma aug_exists_spec w l q :
  ring w l → aug_exists q w = Some (bool_decide (first_match w q l ≠ NULL)).
Proof. intros Hr. by rewrite /aug_exists (aug_entry_find_spec _ _ _ Hr). Qed.

Lemma aug_exists_true w l q :
  ring w l → aug_exists q w = Some true ↔ exists_in w q l.
Proof.
  intros Hr. rewrite (aug_exists_spec _ _ _ Hr).
  rewrite -(first_match_exists _ _ _ (ring_null _ _ Hr)).
  split.
  - intros [= E]. by apply bool_decide_eq_true in E.
  - intros E. by rewrite bool_decide_eq_true_2.
Qed.

Lemma ring_entry_at w l a : ring w l → a ∈ l → entry_at w (path_of w a).
Proof.
  intros Hr Ha.
  destruct (store_ok_alive _ _ _ (ring_store_ok _ _ Hr) Ha) as [e He].
  exists a, e. split; [done|]. by rewrite /path_of /pth He.
Qed.

Lemma inv_has_sentinels w : inv w → has_sentinels w.
Proof.
  intros (l & Hr & Hsys & a & Ha & Hcfg).
  pose proof (ring_head_elem _ _ Hr) as Hh. split_and!.
  - rewrite -Hsys. by eapply ring_entry_at.
  - rewrite -Hcfg. by eapply ring_entry_at.
  - apply (aug_exists_true _ l); [done|]. exists (head w). split; [done|].
    rewrite Hsys. apply path_eq_refl.
  - apply (aug_exists_true _ l); [done|]. exists a. split; [done|].
    rewrite Hcfg. apply path_eq_refl.
Qed.

Lemma preserves_ret {A} (x : A) : preserves (ret x).
Proof. by intros w r w' Hinv [= _ <-]. Qed.

Lemma demo_provider_ok : provider_ok demo_provider.
Proof.
  split_and!; [apply preserves_ret|apply aug_set_preserves|apply preserves_ret].
Qed.

Lemma after_inv {A} (m : M A) w : preserves m → inv w → inv (after m w).
Proof.
  intros Hm Hinv. rewrite /after. destruct (m w) as [[r w']|] eqn:E; [|done].
  by eapply Hm.
Qed.

Lemma boot_uninit o : uninit (boot o).
Proof. done. Qed.

(** The sentinels survive [aug_rm], whatever its argument. *)
Lemma aug_rm_keeps_sentinels w path :
  inv w →
  ∃ n w', aug_rm path w = Some (n, w') ∧ inv w' ∧
    ∀ a e, heap w !! a = Some e →
           e_path e = P_SYSTEM ∨ e_path e = P_SYSTEM_CONFIG →
           pth (heap w') a = Some (e_path e).
Proof.
  intros Hinv. pose proof Hinv as (l & Hr & Hsys & Hcfg).
  pose proof Hr as [Hok [rest ->]].
  destruct (aug_rm_spec w rest path Hr) as (w' & E & Hh & _ & Hr' & Hs).
  eexists _, w'. split; [done|]. split; [by eapply aug_rm_preserves|].
  intros a e Ha Hp.
  assert (a ∈ head w :: rest) as Hin by (eapply store_ok_elem; eauto).
  assert (path_of w a = e_path e) as Hpa by by rewrite /path_of /pth Ha.
  assert (a ∈ head w :: filter (λ a, ¬ rm_hit w path a) rest) as Hin'.
  { apply elem_of_cons in Hin as [->|Hin]; [by left|]. right.
    apply list_elem_of_filter. split; [|done].
    by rewrite /rm_hit Hpa aug_rm_test_sentinel. }
  destruct (Hs a Hin') as [-> _]. by rewrite /pth Ha.
Qed.

(** C2.  The code does not keep the sentinels on the list after every
    successful operation.  An [aug_init] whose first allocation succeeds
    and whose second fails returns -1 and leaves [head] at a zeroed node;
    the next [aug_init] finds [head] set and, with providers that leave
    the store alone, returns success on that store, where no entry has
    the path [/system] or [/system/config] and [aug_exists], which
    follows the null [next] of [head], is undefined. *)
Theorem aug_init_retry_without_sentinels :
  exec [idle_provider] CInit (boot [false; true])
  = Some (RStatus (-1)%Z, store_half_init)
  ∧ exec [idle_provider] CInit store_half_init
    = Some (RStatus 0%Z, store_half_init)
  ∧ exec [] CInit store_half_init = Some (RStatus 0%Z, store_half_init)
  ∧ succeeded (RStatus 0%Z)
  ∧ ¬ entry_at store_half_init P_SYSTEM
  ∧ ¬ entry_at store_half_init P_SYSTEM_CONFIG
  ∧ ¬ has_sentinels store_half_init
  ∧ aug_exists P_SYSTEM store_half_init = None
  ∧ aug_exists P_SYSTEM_CONFIG store_half_init = None.
Proof.
  assert (∀ q, q ≠ [] → ¬ entry_at store_half_init q) as Hno.
  { intros q Hq (a & e & He & Hp).
    assert (heap store_half_init = {[1%N := Entry [] false None NULL NULL]})
      as Hh by (vm_compute; reflexivity).
    rewrite Hh in He. apply lookup_singleton_Some in He as [_ <-].
    simpl in Hp. by subst q. }
  split_and!; try (by vm_compute).
  - by apply Hno.
  - by apply Hno.
  - intros [H _]. by apply Hno in H.
Qed.

Lemma store_ok_well_linked w l : store_ok w l → well_linked w.
Proof.
  intros Hok. split.
  - intros e He. pose proof (store_ok_elem _ _ _ Hok He) as Hin.
    apply list_elem_of_split in Hin as (l1 & l2 & ->).
    pose proof (store_ok_rot _ _ _ Hok) as ([Hnd HF] & Hd & _).
    exists (l2 ++ l1). split_and!; [|done|].
    + simpl in HF. by eapply Forall2_impl; [done|intros ?? []].
    + intros a. rewrite -elem_of_dom Hd elem_of_list_to_set. done.
  - intros e x He. assert (is_Some (heap w !! e)) as He' by eauto.
    pose proof (store_ok_elem _ _ _ Hok He') as Hin.
    apply list_elem_of_split in Hin as (l1 & l2 & ->).
    pose proof (store_ok_rot _ _ _ Hok) as (Hc & _). simpl in Hc.
    destruct (last_is_Some e (l2 ++ l1)) as [b Hb].
    destruct (cring_ends _ _ _ _ Hc Hb) as [Hbn Hep].
    rewrite /pv He /= in Hep. injection Hep as ->. split; [done|].
    destruct Hc as [_ HF]. rewrite rot1_cons in HF.
    destruct (l2 ++ l1) as [|c t]; simpl in HF;
      apply Forall2_cons_1 in HF as [[Hen Hcp] _];
      rewrite /nx He /= in Hen; by injection Hen as ->.
Qed.

Lemma inv_well_linked w : inv w → well_linked w.
Proof. intros (l & [Hok _] & _). by eapply store_ok_well_linked. Qed.

(** After the relinking branch of [aug_insert] the entry found for
    [path] is linked in front of the entry found for [sibling]. *)
Lemma aug_insert_existing w l path sibling r w' :
  ring w l → first_match w path l ≠ NULL →
  aug_insert path sibling w = Some (r, w') → r = 0%Z →
  first_match w sibling l ≠ NULL
  ∧ linked (heap w') (first_match w path l) (first_match w sibling l).
Proof.
  intros Hr Hp. rewrite /aug_insert.
  destruct (STREQ path sibling) eqn:Heq; [by intros [= <- _]|].
  destruct (strrchr path SEP) as [pdir|] eqn:Hpd; [|by intros [= <- _]].
  destruct (strrchr sibling SEP) as [sdir|] eqn:Hsd; [|by intros [= <- _]].
  case_decide as Hdir; [by intros [= <- _]|]. subst sdir.
  rewrite /STRNEQLEN. destruct (strncmp_eq path sibling pdir) eqn:Hcmp;
    [|by intros [= <- _]].
  simpl. apply strncmp_eq_take in Hcmp. apply bool_decide_eq_false in Heq.
  rewrite (bind_rd _ _ _ _ (aug_entry_find_spec _ _ _ Hr)).
  case_decide as Hs; [by intros [= <- _]|].
  rewrite (bind_rd _ _ _ _ (aug_entry_find_spec _ _ _ Hr)).
  case_decide; [done|].
  destruct (first_match_found _ _ _ Hs) as [Hsin Hsq].
  destruct (first_match_found _ _ _ Hp) as [Hpin Hpq].
  destruct (aug_insert_relink_spec w l _ _ Hr Hpin Hsin)
    as (w0 & l' & -> & _ & _ & _ & _ & _ & Hlink).
  { intros E. rewrite E in Hpq. by eapply (path_eq_same_dir path sibling). }
  by intros [= _ <-] _.
Qed.

Lemma store_a_b_c_inv : inv store_a_b_c.
Proof.
  apply after_inv; [apply aug_set_preserves|].
  apply after_inv; [apply aug_set_preserves|]. apply fresh_store_inv.
Qed.

(** C3.  The code does not keep the list circular after every successful
    operation.  On the store left by an [aug_init] whose second
    allocation failed, the next [aug_init], with providers that leave the
    store alone, returns success although [head] is an entry whose [next]
    and [prev] are null: following [next] from it never returns to it,
    and [prev] and [next] are no inverses. *)
Theorem aug_init_retry_breaks_ring :
  exec [idle_provider] CInit store_half_init
  = Some (RStatus 0%Z, store_half_init)
  ∧ succeeded (RStatus 0%Z)
  ∧ is_Some (heap store_half_init !! head store_half_init)
  ∧ nx (heap store_half_init) (head store_half_init) = Some NULL
  ∧ pv (heap store_half_init) (head store_half_init) = Some NULL
  ∧ heap store_half_init !! NULL = None
  ∧ ¬ circular store_half_init
  ∧ ¬ inverse_links store_half_init
  ∧ ¬ well_linked store_half_init.
Proof.
  assert (head store_half_init = 1%N) as Hh by (vm_compute; reflexivity).
  assert (heap store_half_init !! 1%N = Some (Entry [] false None NULL NULL))
    as H1 by (vm_compute; reflexivity).
  assert (heap store_half_init !! NULL = None) as H0 by (vm_compute; reflexivity).
  assert (¬ circular store_half_init) as Hc.
  { intros H. destruct (H 1%N) as (t & Hcyc & _); [by rewrite H1|].
    rewrite /next_cycle in Hcyc. destruct t as [|b t]; simpl in Hcyc.
    - apply Forall2_cons_1 in Hcyc as [Hn _]. by rewrite /nx H1 in Hn.
    - apply Forall2_cons_1 in Hcyc as [Hn Hcyc].
      rewrite /nx H1 /= in Hn. injection Hn as <-.
      destruct (t ++ [1%N]) as [|c t']; [by apply Forall2_cons_nil_inv in Hcyc|].
      apply Forall2_cons_1 in Hcyc as [Hn _]. by rewrite /nx H0 in Hn. }
  assert (¬ inverse_links store_half_init) as Hi.
  { intros H. destruct (H _ _ H1) as [Hn _]. by rewrite /nx /= H0 in Hn. }
  rewrite Hh. split; [by vm_compute|]. split; [done|].
  split; [by rewrite H1|]. split; [by rewrite /nx H1|].
  split; [by rewrite /pv H1|]. split; [done|]. split; [done|].
  split; [done|]. by intros [H _].
Qed.

Lemma aug_rm_test_scope path q :
  NUL ∉ q → aug_rm_test path q = true ↔ in_scope path q.
Proof.
  intros Hnul. rewrite /aug_rm_test /STREQLEN /STREQ /in_scope /protected.
  rewrite !andb_true_iff !negb_true_iff !bool_decide_eq_false orb_true_iff.
  rewrite !bool_decide_eq_true strncmp_eq_take -/(norm path).
  assert (take (pathlen path) q = norm path
          ∧ (char_at q (pathlen path) = NUL ∨ char_at q (pathlen path) = SEP)
          ↔ subtree (norm path) q) as ->.
  { split.
    - intros [Et Hc]. assert (q = norm path ++ drop (pathlen path) q) as Eq.
      { by rewrite -Et take_drop. }
      destruct (drop (pathlen path) q) as [|c k] eqn:Ed.
      + left. by rewrite Eq app_nil_r.
      + right. assert (char_at q (pathlen path) = c) as Ec.
        { rewrite Eq -(norm_length path) char_at_app_r. done. }
        rewrite Ec in Hc. destruct Hc as [-> | ->].
        * exfalso. apply Hnul. rewrite Eq. set_solver.
        * exists k. by rewrite Eq -app_assoc.
    - intros [-> | [k ->]].
      + split; [by rewrite take_ge // norm_length|].
        left. apply char_at_ge. by rewrite norm_length.
      + split.
        * by rewrite -app_assoc -(norm_length path) take_app_length.
        * right. by rewrite -app_assoc -(norm_length path) char_at_app_r. }
  split; [intros [[? ?] ?]|intros [? ?]]; naive_solver.
Qed.

(** The sentinels are kept because they are protected, whether or not the
    store holds C strings. *)
Lemma aug_rm_filters w l path :
  ring w l → (∀ a, a ∈ l → NUL ∉ path_of w a) →
  filter (rm_hit w path) l = filter (λ a, in_scope path (path_of w a)) l
  ∧ filter (λ a, ¬ rm_hit w path a) l
    = filter (λ a, ¬ in_scope path (path_of w a)) l.
Proof.
  intros Hr Hnul. split; apply filter_ext_elem; intros a Ha;
    rewrite /rm_hit aug_rm_test_scope //; by apply Hnul.
Qed.

(** C4 as stated fails: [/a/bc] extends [/a] past a separator, so
    [aug_rm "/a"] removes it together with [/a] and [/a/b]. *)
Lemma aug_rm_a_removes_a_bc :
  aug_exists (str "/a/bc") store_a_b_bc = Some true
  ∧ fst <$> aug_rm (str "/a") store_a_b_bc = Some 3%Z
  ∧ aug_exists (str "/a/bc") (after (aug_rm (str "/a")) store_a_b_bc)
    = Some false.
Proof. by vm_compute. Qed.

(** C4, amended.  On a well-formed store of C strings, [aug_rm path]
    returns the number of entries whose path is [path] or extends it past
    a separator, the sentinels excepted; it frees exactly those entries and
    keeps the others, with their paths and values, in their order.  In the
    store holding [/a], [/a/b] and [/a/bc], [aug_rm "/a/b"] removes [/a/b]
    alone and leaves [/a] and [/a/bc]. *)
Theorem aug_rm_scope (w : world) (l : list ptr) (path : cstr) :
  inv w → ring w l → (∀ a, a ∈ l → NUL ∉ path_of w a) →
  (∃ w',
     aug_rm path w
     = Some (Z.of_nat (length (filter (λ a, in_scope path (path_of w a)) l)), w')
     ∧ ring w' (filter (λ a, ¬ in_scope path (path_of w a)) l)
     ∧ same_entries w w' (filter (λ a, ¬ in_scope path (path_of w a)) l)
     ∧ ∀ a, a ∈ l → in_scope path (path_of w a) → heap w' !! a = None)
  ∧ (fst <$> aug_rm (str "/a/b") store_a_b_bc = Some 1%Z
     ∧ aug_exists (str "/a/b") (after (aug_rm (str "/a/b")) store_a_b_bc)
       = Some false
     ∧ aug_exists (str "/a") (after (aug_rm (str "/a/b")) store_a_b_bc)
       = Some true
     ∧ aug_exists (str "/a/bc") (after (aug_rm (str "/a/b")) store_a_b_bc)
       = Some true).
Proof.
  intros (l0 & Hr0 & Hsys & _) Hr Hnul. split; [|by vm_compute].
  destruct (aug_rm_filters w l path Hr Hnul) as [E1 E2].
  pose proof Hr as [_ [rest El]]. subst l.
  destruct (aug_rm_spec w rest path Hr) as (w' & E & Hh & _ & Hr' & Hs).
  assert (¬ rm_hit w path (head w)) as Hhead.
  { rewrite /rm_hit Hsys aug_rm_test_sentinel //. by left. }
  rewrite filter_cons_False // in E1. rewrite filter_cons_True // in E2.
  rewrite E1 in E. rewrite E2 in Hr' Hs.
  exists w'. split_and!; try done.
  intros a Ha Hin. apply not_elem_of_dom.
  destruct Hr' as [(_ & -> & _) _]. rewrite elem_of_list_to_set.
  intros [Hn _]%list_elem_of_filter. done.
Qed.

Lemma store_a_b_bc_inv : inv store_a_b_bc.
Proof.
  do 3 (apply after_inv; [apply aug_set_preserves|]). apply fresh_store_inv.
Qed.

(** Checking a concrete store against its traversal order. *)
Lemma ring_by_computation w l :
  NoDup l → Forall2 (linked (heap w)) l (rot1 l) →
  Forall (λ a, is_Some (heap w !! a)) l → size (heap w) = length l →
  NULL ∉ l →
  Forall (λ a, lit (heap w) a = Some true →
               path_of w a = P_SYSTEM ∨ path_of w a = P_SYSTEM_CONFIG) l →
  (∃ rest, l = head w :: rest) →
  ring w l.
Proof.
  intros Hnd Hl Ha Hsz Hn Hlit Hh.
  assert (dom (heap w) = list_to_set l) as Hd.
  { symmetry. apply leibniz_equiv, set_subseteq_size_equiv.
    - intros a Hin%elem_of_list_to_set. apply elem_of_dom.
      by apply (proj1 (Forall_forall _ _) Ha).
    - rewrite size_dom Hsz size_list_to_set //. }
  split; [|done]. split_and!; [done..|].
  intros a e He Ht.
  assert (a ∈ l) as Hin.
  { apply (elem_of_list_to_set (C := gset N)). rewrite -Hd.
    apply elem_of_dom. eauto. }
  pose proof (proj1 (Forall_forall _ _) Hlit a Hin) as H.
  rewrite /lit /path_of /pth He /= in H. apply H. by rewrite Ht.
Qed.

Ltac ring_compute :=
  apply ring_by_computation;
  [ apply (bool_decide_unpack _); by vm_compute
  | repeat (apply Forall2_cons_2; [split; by vm_compute|]); apply Forall2_nil_2
  | repeat (apply Forall_cons_2; [by vm_compute; eexists|]); apply Forall_nil_2
  | by vm_compute
  | apply (bool_decide_unpack _); by vm_compute
  | repeat (apply Forall_cons_2; [apply (bool_decide_unpack _); by vm_compute|]);
    apply Forall_nil_2
  | by eexists ].

Ltac paths_compute :=
  let a := fresh in let Ha := fresh in
  intros a Ha; revert a Ha; apply Forall_forall;
  repeat (apply Forall_cons_2; [apply (bool_decide_unpack _); by vm_compute|]);
  apply Forall_nil_2.

Lemma store_a_b_bc_ring : ring store_a_b_bc [1; 2; 3; 4; 5]%N.
Proof. ring_compute. Qed.

Lemma store_a_b_bc_strings :
  ∀ a, a ∈ [1; 2; 3; 4; 5]%N → NUL ∉ path_of store_a_b_bc a.
Proof. paths_compute. Qed.

Lemma aug_rm_scope_witness :
  inv store_a_b_bc ∧ ring store_a_b_bc [1; 2; 3; 4; 5]%N ∧
  (∀ a, a ∈ [1; 2; 3; 4; 5]%N → NUL ∉ path_of store_a_b_bc a) ∧
  ∃ w',
    aug_rm (str "/a/b") store_a_b_bc
    = Some (Z.of_nat (length (filter
              (λ a, in_scope (str "/a/b") (path_of store_a_b_bc a))
              [1; 2; 3; 4; 5]%N)), w')
    ∧ ring w' (filter (λ a, ¬ in_scope (str "/a/b") (path_of store_a_b_bc a))
                 [1; 2; 3; 4; 5]%N).
Proof.
  split; [apply store_a_b_bc_inv|]. split; [apply store_a_b_bc_ring|].
  split; [apply store_a_b_bc_strings|].
  destruct (aug_rm_scope store_a_b_bc [1; 2; 3; 4; 5]%N (str "/a/b")
              store_a_b_bc_inv store_a_b_bc_ring store_a_b_bc_strings)
    as [(w' & E & Hr & _) _].
  exists w'. split; [exact E|exact Hr].
Defined.

Lemma aug_exists_false w l q :
  ring w l → aug_exists q w = Some false → first_match w q l = NULL.
Proof.
  intros Hr. rewrite (aug_exists_spec _ _ _ Hr). intros [= E].
  apply bool_decide_eq_false in E. by destruct (decide (first_match w q l = NULL)).
Qed.

Lemma char_at_take (s : cstr) n k : k < n → char_at (take n s) k = char_at s k.
Proof. intros Hk. by rewrite /char_at lookup_take_lt. Qed.

(** C5.  Ancestor materialization: when [aug_set p v] or
    [aug_insert p sibling] creates the entry for a valid path [p] on a
    well-formed store and succeeds, every strict ancestor of [p] exists
    afterwards; [aug_set] does succeed when no allocation fails, and [p]
    exists then.  In particular after [aug_set "/a/b/c"] both [/a] and
    [/a/b] exist. *)
Theorem creation_materializes_ancestors (w : world) (p v : cstr) :
  inv w → valid_path p → aug_exists p w = Some false →
  (∀ w', aug_set p v w = Some (0%Z, w') → ancestors_exist p w')
  ∧ (∀ sibling w', aug_insert p sibling w = Some (0%Z, w') → ancestors_exist p w')
  ∧ (allocations_succeed w →
     ∃ w', aug_set p v w = Some (0%Z, w') ∧ aug_exists p w' = Some true
           ∧ ancestors_exist p w')
  ∧ (p = str "/a/b/c" →
     ∀ w', aug_set p v w = Some (0%Z, w') →
           aug_exists (str "/a") w' = Some true
           ∧ aug_exists (str "/a/b") w' = Some true).
Proof.
  intros (l & Hr & _) Hp Hex. pose proof (valid_path_nonempty _ Hp) as Hne.
  pose proof (aug_exists_false _ _ _ Hr Hex) as Hf.
  assert (∀ k, k < pathlen p → take k (norm p) = take k p) as Htake.
  { intros k Hk. rewrite /norm take_take Nat.min_l //. lia. }
  destruct (aug_set_spec w l p v Hne Hr)
    as (r & w0 & l' & E & _ & Hr' & _ & _ & Hget & Hanc).
  assert (∀ w', aug_set p v w = Some (0%Z, w') → ancestors_exist p w') as Hset.
  { intros w' E'. rewrite E in E'. injection E' as -> ->.
    intros k Hk Hc. apply (aug_exists_true _ l'); [done|].
    rewrite -Htake; last lia. apply (Hanc eq_refl Hf k Hk).
    rewrite /norm char_at_take //. lia. }
  split_and!.
  - done.
  - intros sibling w' E'.
    destruct (aug_insert_new_ancestors w l p sibling w' Hr Hf E')
      as (l1 & Hr1 & Hall).
    intros k Hk Hc. apply (aug_exists_true _ l1); [done|].
    rewrite -Htake; last lia. apply (Hall k Hk).
    rewrite /norm char_at_take //. lia.
  - intros Ha. destruct (aug_set_succeeds w l p v Hne Hr Ha) as [w' E'].
    exists w'. split; [done|]. split; [|by apply Hset].
    rewrite E in E'. injection E' as -> ->.
    rewrite /aug_exists. specialize (Hget eq_refl). rewrite /aug_get in Hget.
    destruct (aug_entry_find p w') as [a|]; [|done]. simpl in *.
    case_decide; [done|]. by rewrite bool_decide_eq_true_2.
  - intros -> w' E'. pose proof (Hset w' E') as H. split.
    + change (str "/a") with (take 2 (str "/a/b/c")).
      apply H; [vm_compute; lia|done].
    + change (str "/a/b") with (take 4 (str "/a/b/c")).
      apply H; [vm_compute; lia|done].
Qed.

Lemma store_orphan_inv : inv store_orphan.
Proof.
  exists [1; 2; 5]%N. split; [ring_compute|]. split; [by vm_compute|].
  exists 2%N. split; [set_solver|by vm_compute].
Qed.

Lemma creation_materializes_ancestors_witness :
  inv store_orphan ∧ valid_path (str "/a/b/c")
  ∧ aug_exists (str "/a/b/c") store_orphan = Some false
  ∧ allocations_succeed store_orphan
  ∧ aug_exists (str "/a") store_orphan = Some false
  ∧ aug_exists (str "/a/b") store_orphan = Some false
  ∧ (∃ w', aug_set (str "/a/b/c") (str "x") store_orphan = Some (0%Z, w')
           ∧ aug_exists (str "/a") w' = Some true
           ∧ aug_exists (str "/a/b") w' = Some true)
  ∧ (∃ w', aug_insert (str "/a/b/c") (str "/a/b/d") store_orphan = Some (0%Z, w')
           ∧ aug_exists (str "/a") w' = Some true
           ∧ aug_exists (str "/a/b") w' = Some true).
Proof.
  assert (valid_path (str "/a/b/c")) as H2.
  { split; [by eexists|]. apply (bool_decide_unpack _). by vm_compute. }
  assert (aug_exists (str "/a/b/c") store_orphan = Some false) as H3
    by (vm_compute; reflexivity).
  assert (allocations_succeed store_orphan) as H4.
  { apply (bool_decide_unpack _). by vm_compute. }
  assert (aug_exists (str "/a") store_orphan = Some false) as H5
    by (vm_compute; reflexivity).
  assert (aug_exists (str "/a/b") store_orphan = Some false) as H6
    by (vm_compute; reflexivity).
  assert (fst <$> aug_insert (str "/a/b/c") (str "/a/b/d") store_orphan
          = Some 0%Z) as H7 by (vm_compute; reflexivity).
  destruct (creation_materializes_ancestors store_orphan (str "/a/b/c") (str "x")
              store_orphan_inv H2 H3) as (Hset & Hins & Hok & Hex).
  split; [exact store_orphan_inv|]. split; [exact H2|]. split; [exact H3|].
  split; [exact H4|]. split; [exact H5|]. split; [exact H6|]. split.
  - destruct (Hok H4) as (w' & E & _ & _). exists w'. split; [exact E|].
    exact (Hex eq_refl w' E).
  - destruct (aug_insert (str "/a/b/c") (str "/a/b/d") store_orphan)
      as [[r w']|] eqn:E; [|discriminate H7].
    simpl in H7. injection H7 as ->. exists w'. split; [reflexivity|].
    pose proof (Hins (str "/a/b/d") w' E) as H. split.
    + apply (H 2); [vm_compute; lia|reflexivity].
    + apply (H 4); [vm_compute; lia|reflexivity].
Defined.

Lemma dir_of_unique p d1 d2 : dir_of p d1 → dir_of p d2 → d1 = d2.
Proof.
  intros H1 H2. rewrite (dir_of_take _ _ H1) (dir_of_take _ _ H2).
  apply dir_of_strrchr in H1, H2. rewrite H1 in H2. by injection H2 as ->.
Qed.

(** C6.  When a precondition of [aug_insert] is violated, the call
    returns -1 and leaves the store as it was: the heap, [head] and so
    every entry, link and value are those of the store before the call.
    In particular [aug_insert "/a/x" "/b/y"] fails so on every store. *)
Theorem aug_insert_rejects (w : world) (path sibling : cstr) :
  insert_precondition_violated path sibling w →
  aug_insert path sibling w = Some ((-1)%Z, w)
  ∧ aug_insert (str "/a/x") (str "/b/y") w = Some ((-1)%Z, w).
Proof.
  intros Hv. split; [|done]. rewrite /aug_insert /STREQ.
  case_bool_decide as Heq; [done|].
  destruct (strrchr path SEP) as [i|] eqn:Ep; [|done].
  destruct (strrchr sibling SEP) as [j|] eqn:Es; [|done].
  case_decide as Hij; [done|]. subst j.
  rewrite /STRNEQLEN. destruct (strncmp_eq path sibling i) eqn:Et; [|done].
  apply strncmp_eq_take in Et. simpl.
  destruct Hv as [?|[Hv|[Hv|[(d1 & d2 & H1 & H2 & Hne)|Hv]]]]; [done| | | |].
  - by apply strrchr_None in Hv; rewrite Hv in Ep.
  - by apply strrchr_None in Hv; rewrite Hv in Es.
  - destruct (strrchr_dir _ _ Ep) as [H1' _].
    destruct (strrchr_dir _ _ Es) as [H2' _].
    rewrite (dir_of_unique _ _ _ H1 H1') (dir_of_unique _ _ _ H2 H2') in Hne.
    done.
  - revert Hv. rewrite /aug_exists /bind /rd.
    destruct (aug_entry_find sibling w) as [s|]; [|done]. simpl.
    intros [= Hs]. apply bool_decide_eq_false in Hs.
    case_decide; [done|]. done.
Qed.

Lemma aug_insert_rejects_witness :
  insert_precondition_violated (str "/a/x") (str "/b/y") store_b
  ∧ aug_insert (str "/a/x") (str "/b/y") store_b = Some ((-1)%Z, store_b).
Proof.
  assert (insert_precondition_violated (str "/a/x") (str "/b/y") store_b) as H.
  { do 3 right. left. exists (str "/a"), (str "/b"). split_and!; [| |done].
    - exists (str "x"). split; [done|]. apply (bool_decide_unpack _). by vm_compute.
    - exists (str "y"). split; [done|]. apply (bool_decide_unpack _). by vm_compute. }
  split; [done|].
  apply (aug_insert_rejects store_b (str "/a/x") (str "/b/y") H).
Defined.

Lemma aug_insert_new w l path sibling w' :
  ring w l → first_match w path l = NULL →
  aug_insert path sibling w = Some (0%Z, w') →
  ∃ e l1 l2 ancs,
    l = l1 ++ first_match w sibling l :: l2 ∧ first_match w sibling l ≠ NULL ∧
    path_eq sibling (path_of w (first_match w sibling l)) = true ∧
    head w' = head w ∧ (e ∉ l ++ ancs) ∧
    store_ok w' (l1 ++ e :: first_match w sibling l :: l2 ++ ancs) ∧
    pth (heap w') e = Some (norm path) ∧ same_entries w w' l.
Proof.
  intros Hr Hp. rewrite /aug_insert.
  destruct (STREQ path sibling) eqn:Heq; [by intros [= ? _]|].
  destruct (strrchr path SEP) as [pdir|] eqn:Hpd; [|by intros [= ? _]].
  destruct (strrchr sibling SEP) as [sdir|] eqn:Hsd; [|by intros [= ? _]].
  case_decide as Hdir; [by intros [= ? _]|]. subst sdir.
  rewrite /STRNEQLEN. destruct (strncmp_eq path sibling pdir) eqn:Hcmp;
    [|by intros [= ? _]].
  simpl. rewrite (bind_rd _ _ _ _ (aug_entry_find_spec _ _ _ Hr)).
  case_decide as Hs; [by intros [= ? _]|].
  rewrite (bind_rd _ _ _ _ (aug_entry_find_spec _ _ _ Hr)).
  destruct (first_match_found _ _ _ Hs) as [Hsin Hsq].
  rewrite Hp. case_decide; [|done].
  pose proof Hsin as Hsin'.
  apply list_elem_of_split in Hsin' as (l1 & l2 & El).
  assert (path ≠ []) as Hpath by (intros ->; done).
  pose proof Hr as Hr2. rewrite El in Hr2.
  destruct (aug_entry_make_spec w l1 l2 path _ Hpath Hr2)
    as (r & w1 & ancs & Hmk & Hh1 & Hs1 & Hanc & Hcase).
  rewrite (bind_eq _ _ _ _ _ Hmk). cbv beta. rewrite -El in Hs1 Hcase.
  destruct Hcase as [[-> Hr1]|(Hr0 & Hfresh & Hok1 & Hpth & _)].
  { case_decide; [by intros [= ?]|done]. }
  case_decide; [done|]. intros [= <-].
  exists r, l1, l2, ancs. by split_and!.
Qed.

Lemma ring_cons_head w l1 x l2 :
  ring w (l1 ++ x :: l2) → x ≠ head w → ∃ l1', l1 = head w :: l1'.
Proof.
  intros [_ [rest E]] Hne. destruct l1 as [|b l1]; simpl in E.
  - by injection E as -> _.
  - injection E as -> _. by eexists.
Qed.

(** C7.  When [aug_insert path sibling] succeeds on a well-formed store
    that has no entry for [path], and [sibling] is not the head sentinel,
    the new entry [e] carries the path and is linked immediately before
    the entry [s] found for [sibling]; every listing [aug_ls dir] that
    shows both shows the new path immediately before the sibling's.  So
    after [aug_insert "/a/x" "/a/y"] the children of [/a] are listed with
    [/a/x] immediately before [/a/y]. *)
Theorem aug_insert_before_sibling (w w' : world) (l : list ptr)
    (path sibling : cstr) :
  inv w → ring w l →
  aug_exists path w = Some false →
  path_eq sibling P_SYSTEM = false →
  aug_insert path sibling w = Some (0%Z, w') →
  ∃ e s l',
    aug_entry_find sibling w = Some s ∧ s ∈ l ∧ (e ∉ l) ∧
    path_of w' e = norm path ∧ path_of w' s = path_of w s ∧
    linked (heap w') e s ∧ ring w' l' ∧
    (∀ dir, ls_hit dir (norm path) → ls_hit dir (path_of w s) →
       ∃ pre post,
         filter (ls_hit dir) (paths w' l')
         = pre ++ norm path :: path_of w s :: post
         ∧ aug_ls dir true w'
           = if next_ok w'
             then Some ((Z.of_nat (length (pre ++ norm path :: path_of w s :: post)),
                         Some (Some <$> pre ++ norm path :: path_of w s :: post)),
                        pop w')
             else Some (((-1)%Z, None), pop w'))
    ∧ (path = str "/a/x" → path_of w s = str "/a/y" → next_ok w' = true →
       ∃ n pre post,
         aug_ls (str "/a") true w'
         = Some ((n, Some (Some <$> pre ++ str "/a/x" :: str "/a/y" :: post)),
                 pop w')).
Proof.
  intros (l0 & Hr0 & Hsys & _) Hr Hex Hns Hins.
  pose proof (aug_exists_false _ _ _ Hr Hex) as Hp.
  destruct (aug_insert_new w l path sibling w' Hr Hp Hins)
    as (e & l1 & l2 & ancs & El & Hs & Hsq & Hh & Hfresh & Hok & Hpth & Hsame).
  set (s := first_match w sibling l) in *.
  assert (s ≠ head w) as Hsh.
  { intros E. rewrite E Hsys Hns in Hsq. done. }
  pose proof Hr as Hr2. rewrite El in Hr2.
  destruct (ring_cons_head _ _ _ _ Hr2 Hsh) as [l1' ->].
  assert (ring w' (head w :: l1' ++ e :: s :: l2 ++ ancs)) as Hr'.
  { split; [done|]. rewrite Hh. by eexists. }
  assert (s ∈ l) as Hsin by (rewrite El; set_solver).
  assert (path_of w' s = path_of w s) as Hps.
  { by apply (same_entries_path _ _ l). }
  assert (path_of w' e = norm path) as Hpe by by apply path_of_pth.
  assert (linked (heap w') e s) as Hlink.
  { destruct Hok as [Hc _].
    change ((head w :: l1') ++ e :: s :: l2 ++ ancs)
      with ((head w :: l1') ++ (e :: s :: l2 ++ ancs)) in Hc.
    apply cring_rot in Hc. simpl in Hc. by apply cring_link in Hc. }
  assert (∀ dir, ls_hit dir (norm path) → ls_hit dir (path_of w s) →
       ∃ pre post,
         filter (ls_hit dir) (paths w' (head w :: l1' ++ e :: s :: l2 ++ ancs))
         = pre ++ norm path :: path_of w s :: post
         ∧ aug_ls dir true w'
           = if next_ok w'
             then Some ((Z.of_nat (length (pre ++ norm path :: path_of w s :: post)),
                         Some (Some <$> pre ++ norm path :: path_of w s :: post)),
                        pop w')
             else Some (((-1)%Z, None), pop w')) as Hls.
  { intros dir Hd1 Hd2.
    exists (filter (ls_hit dir) (paths w' (head w :: l1'))),
           (filter (ls_hit dir) (paths w' (l2 ++ ancs))).
    assert (filter (ls_hit dir) (paths w' (head w :: l1' ++ e :: s :: l2 ++ ancs))
            = filter (ls_hit dir) (paths w' (head w :: l1'))
              ++ norm path :: path_of w s
                 :: filter (ls_hit dir) (paths w' (l2 ++ ancs))) as E.
    { change (head w :: l1' ++ e :: s :: l2 ++ ancs)
        with ((head w :: l1') ++ e :: s :: l2 ++ ancs).
      rewrite /paths fmap_app filter_app !fmap_cons Hpe Hps.
      f_equal. rewrite filter_cons_True // filter_cons_True //. }
    split; [done|]. rewrite (aug_ls_spec _ _ _ _ Hr'). simpl. by rewrite E. }
  exists e, s, (head w :: l1' ++ e :: s :: l2 ++ ancs).
  split_and!; try done.
  - by apply aug_entry_find_spec.
  - intros Hin. apply Hfresh. set_solver.
  - intros -> Hy Hok'. destruct (Hls (str "/a")) as (pre & post & _ & E).
    { by vm_compute. }
    { rewrite Hy. by vm_compute. }
    eexists _, pre, post. rewrite E Hok' Hy. done.
Qed.

Lemma store_a_y_ring : ring store_a_y [1; 2; 3; 4]%N.
Proof. ring_compute. Qed.

Lemma aug_insert_before_sibling_witness :
  inv store_a_y ∧ ring store_a_y [1; 2; 3; 4]%N
  ∧ aug_exists (str "/a/x") store_a_y = Some false
  ∧ path_eq (str "/a/y") P_SYSTEM = false
  ∧ aug_insert (str "/a/x") (str "/a/y") store_a_y = Some (0%Z, store_a_x_y)
  ∧ ∃ e s l',
      aug_entry_find (str "/a/y") store_a_y = Some s ∧ linked (heap store_a_x_y) e s
      ∧ ring store_a_x_y l'
      ∧ (str "/a/x" = str "/a/x" → path_of store_a_y s = str "/a/y" →
         next_ok store_a_x_y = true →
         ∃ n pre post,
           aug_ls (str "/a") true store_a_x_y
           = Some ((n, Some (Some <$> pre ++ str "/a/x" :: str "/a/y" :: post)),
                   pop store_a_x_y)).
Proof.
  assert (inv store_a_y) as H1.
  { apply after_inv; [apply aug_set_preserves|apply fresh_store_inv]. }
  assert (aug_exists (str "/a/x") store_a_y = Some false) as H3
    by (vm_compute; reflexivity).
  assert (path_eq (str "/a/y") P_SYSTEM = false) as H4 by (vm_compute; reflexivity).
  assert (aug_insert (str "/a/x") (str "/a/y") store_a_y
          = Some (0%Z, store_a_x_y)) as H5 by (vm_compute; reflexivity).
  split_and!; [done|apply store_a_y_ring|done..|].
  destruct (aug_insert_before_sibling store_a_y store_a_x_y [1; 2; 3; 4]%N
              (str "/a/x") (str "/a/y") H1 store_a_y_ring H3 H4 H5)
    as (e & s & l' & Hf & _ & _ & _ & _ & Hl & Hr & _ & Hc).
  exists e, s, l'. split_and!; [exact Hf|exact Hl|exact Hr|exact Hc].
Defined.

(** C8 as stated fails: without FNM_PATHNAME the star matches separators,
    so [/a/b/c] matches [/a/*] and is counted and copied. *)
Lemma aug_match_star_counts_a_b_c :
  paths store_tree [1; 2; 3; 4; 5; 6]%N = tree_paths
  ∧ fnmatch_noescape (str "/a/*") (str "/a/b/c") = Some true
  ∧ aug_match (str "/a/*") [] 0%Z store_tree = Some (3%Z, [])
  ∧ aug_match (str "/a/*") (replicate 3 None) 3%Z store_tree
    = Some (3%Z, [Some (str "/a/b"); Some (str "/a/c"); Some (str "/a/b/c")]).
Proof. by vm_compute. Qed.

(** C8, amended.  On every well-formed store whose entries are [/a],
    [/a/b], [/a/c] and [/a/b/c] besides the sentinels, the entries that
    match [/a/*] are [/a/b], [/a/c] and also [/a/b/c], not [/a]; with a
    capacity of zero or less [aug_match] returns this total of 3 and
    writes nothing into the sink. *)
Theorem aug_match_star_crosses_separators (w : world) (l : list ptr)
    (sink : list (option cstr)) (size : Z) :
  ring w l → paths w l ≡ₚ tree_paths → (size ≤ 0)%Z →
  aug_match (str "/a/*") sink size w = Some (3%Z, sink)
  ∧ filter (match_hit (str "/a/*")) (paths w l)
    ≡ₚ [str "/a/b"; str "/a/c"; str "/a/b/c"].
Proof.
  intros Hr Hp Hsz.
  assert (filter (match_hit (str "/a/*")) (paths w l)
          ≡ₚ [str "/a/b"; str "/a/c"; str "/a/b/c"]) as Hf.
  { etrans; [apply filter_Permutation, Hp|]. by vm_compute. }
  split; [|done].
  rewrite (aug_match_spec _ _ _ _ _ Hr) match_list_count //.
  - by rewrite Hf.
  - rewrite Hp.
    repeat (apply Forall_cons_2; [by vm_compute; eexists|]). apply Forall_nil_2.
Qed.

Lemma store_tree_ring : ring store_tree [1; 2; 3; 4; 5; 6]%N.
Proof. ring_compute. Qed.

Lemma aug_match_star_crosses_separators_witness :
  ring store_tree [1; 2; 3; 4; 5; 6]%N
  ∧ paths store_tree [1; 2; 3; 4; 5; 6]%N ≡ₚ tree_paths ∧ (0 ≤ 0)%Z
  ∧ aug_match (str "/a/*") [] 0%Z store_tree = Some (3%Z, [])
  ∧ filter (match_hit (str "/a/*")) (paths store_tree [1; 2; 3; 4; 5; 6]%N)
    ≡ₚ [str "/a/b"; str "/a/c"; str "/a/b/c"].
Proof.
  assert (paths store_tree [1; 2; 3; 4; 5; 6]%N ≡ₚ tree_paths) as H2.
  { by vm_compute. }
  assert (0 ≤ 0)%Z as H3 by lia.
  split_and!; [apply store_tree_ring|done|done|..];
    apply (aug_match_star_crosses_separators store_tree [1; 2; 3; 4; 5; 6]%N
             [] 0%Z store_tree_ring H2 H3).
Defined.

Lemma strchr_None (s : cstr) c : strchr s c = None ↔ c ∉ s.
Proof.
  induction s as [|x s IH]; simpl.
  - split; [intros _; apply not_elem_of_nil|done].
  - case_decide as E.
    + subst x. split; [done|]. intros H. exfalso. apply H. by left.
    + rewrite fmap_None IH not_elem_of_cons. naive_solver.
Qed.

Lemma ls_hit_child path q : NUL ∉ q → ls_hit path q ↔ child (norm path) q.
Proof.
  intros Hnul. rewrite /ls_hit /aug_ls_test /strlen.
  rewrite !andb_true_iff orb_true_iff !bool_decide_eq_true /STREQLEN.
  rewrite strncmp_eq_take strchr_None.
  rewrite -/(norm path). split.
  - intros [[[Et Hc] Hlen] Hsep]. exists (drop (pathlen path + 1) q).
    split_and!; [|by intros E%(f_equal length); rewrite length_drop /= in E; lia|done].
    assert (char_at q (pathlen path) = SEP) as Hc'.
    { destruct Hc as [Hc|Hc]; [|done]. exfalso. apply Hnul.
      apply char_at_Some in Hc; [|lia]. by eapply list_elem_of_lookup_2. }
    apply char_at_Some in Hc'; [|lia].
    rewrite Et -{1}(take_drop (pathlen path) q).
    by rewrite (drop_S _ _ _ Hc') Nat.add_1_r.
  - intros (b & -> & Hb & Hsep).
    assert (length (norm path) = pathlen path) as Hl by apply norm_length.
    split_and!.
    + by rewrite -Hl take_app_length.
    + right. by rewrite -Hl char_at_app_r.
    + rewrite length_app /= Hl. destruct b; [done|]. simpl. lia.
    + rewrite -Hl cons_middle app_assoc drop_app_length' //.
      by rewrite length_app.
Qed.

(** C9.  On every well-formed store whose entries are [/a], [/a/b] and
    [/a/b/c] besides the sentinels, [aug_ls "/a"] counts one child and,
    given an array to fill and a successful allocation, returns exactly
    the array holding [/a/b]; the entries listed are those whose path
    extends [/a] past a separator by a name without separator. *)
Theorem aug_ls_immediate_children (w : world) (l : list ptr) :
  ring w l → paths w l ≡ₚ deep_paths →
  aug_ls (str "/a") false w = Some ((1%Z, None), w)
  ∧ aug_ls (str "/a") true w
    = (if next_ok w then Some ((1%Z, Some [Some (str "/a/b")]), pop w)
       else Some (((-1)%Z, None), pop w))
  ∧ ∀ q, q ∈ paths w l → ls_hit (str "/a") q ↔ child (str "/a") q.
Proof.
  intros Hr Hp.
  assert (filter (ls_hit (str "/a")) (paths w l) = [str "/a/b"]) as Hf.
  { apply Permutation_singleton_r. etrans; [apply filter_Permutation, Hp|].
    by vm_compute. }
  rewrite !(aug_ls_spec _ _ _ _ Hr) /= Hf. split_and!; [done..|].
  intros q Hq. apply (ls_hit_child (str "/a")).
  revert q Hq. apply Forall_forall. rewrite Hp.
  repeat (apply Forall_cons_2; [apply (bool_decide_unpack _); by vm_compute|]).
  apply Forall_nil_2.
Qed.

Lemma store_deep_ring : ring store_deep [1; 2; 3; 4; 5]%N.
Proof. ring_compute. Qed.

Lemma aug_ls_immediate_children_witness :
  ring store_deep [1; 2; 3; 4; 5]%N
  ∧ paths store_deep [1; 2; 3; 4; 5]%N ≡ₚ deep_paths
  ∧ aug_ls (str "/a") false store_deep = Some ((1%Z, None), store_deep)
  ∧ aug_ls (str "/a") true store_deep
    = (if next_ok store_deep
       then Some ((1%Z, Some [Some (str "/a/b")]), pop store_deep)
       else Some (((-1)%Z, None), pop store_deep)).
Proof.
  assert (paths store_deep [1; 2; 3; 4; 5]%N ≡ₚ deep_paths) as H2.
  { by vm_compute. }
  split_and!; [apply store_deep_ring|done|..];
    apply (aug_ls_immediate_children store_deep [1; 2; 3; 4; 5]%N
             store_deep_ring H2).
Defined.

(** C10.  The sentinels are ordinary entries for the queries.  [aug_init]
    without providers builds the store holding the two sentinels; on it
    [aug_match "*"] counts 2 and copies [/system] and [/system/config],
    [aug_ls "/system"] counts 1 and lists [/system/config], and
    [aug_exists "/system"] is true. *)
Theorem queries_see_sentinels (o : list bool) :
  aug_init [] (boot (false :: false :: o)) = Some (0%Z, fresh_store o)
  ∧ aug_init [] (boot []) = Some (0%Z, fresh_store [])
  ∧ aug_match (str "*") [] 0%Z (fresh_store o) = Some (2%Z, [])
  ∧ aug_match (str "*") [None; None] 2%Z (fresh_store o)
    = Some (2%Z, [Some P_SYSTEM; Some P_SYSTEM_CONFIG])
  ∧ aug_ls (str "/system") false (fresh_store o)
    = Some ((1%Z, None), fresh_store o)
  ∧ aug_ls (str "/system") true (fresh_store (false :: o))
    = Some ((1%Z, Some [Some P_SYSTEM_CONFIG]), fresh_store o)
  ∧ aug_exists (str "/system") (fresh_store o) = Some true.
Proof. by vm_compute. Qed.

(** * Further properties of the entry store *)

Lemma first_match_split w path l :
  NULL ∉ l →
  (first_match w path l = NULL ∧ ∀ a, a ∈ l → path_eq path (path_of w a) = false)
  ∨ (∃ l1 l2, l = l1 ++ first_match w path l :: l2
              ∧ path_eq path (path_of w (first_match w path l)) = true
              ∧ ∀ a, a ∈ l1 → path_eq path (path_of w a) = false).
Proof.
  induction l as [|a l IH]; intros Hn.
  - left. split; [done|]. by intros a Ha%elem_of_nil.
  - simpl. destruct (path_eq path (path_of w a)) eqn:E.
    + right. exists [], l. split_and!; [done..|]. by intros b Hb%elem_of_nil.
    + destruct IH as [[E0 Hall]|(l1 & l2 & El & Hp & Hall)].
      * intros Hin. apply Hn. by right.
      * left. split; [done|]. intros b [->|Hb]%elem_of_cons; [done|by apply Hall].
      * right. exists (a :: l1), l2. split_and!; [by rewrite /= -El|done|].
        intros b [->|Hb]%elem_of_cons; [done|by apply Hall].
Qed.

(** [aug_entry_find] on a well-formed store returns the first entry in
    traversal order from [head] whose path and the path sought are
    prefixes of each other, and NULL exactly when no entry is such. *)
Theorem aug_entry_find_first_match (w : world) (l : list ptr) (path : cstr) :
  ring w l →
  ∃ p, aug_entry_find path w = Some p ∧
    ((p = NULL ∧ ∀ a, a ∈ l → path_eq path (path_of w a) = false)
     ∨ (p ≠ NULL ∧ ∃ l1 l2, l = l1 ++ p :: l2
          ∧ path_eq path (path_of w p) = true
          ∧ ∀ a, a ∈ l1 → path_eq path (path_of w a) = false)).
Proof.
  intros Hr. exists (first_match w path l). split; [by apply aug_entry_find_spec|].
  pose proof (ring_null _ _ Hr) as Hn.
  destruct (first_match_split w path l Hn) as [[E Hall]|(l1 & l2 & El & Hp & Hall)].
  - by left.
  - right. split; [|by exists l1, l2].
    intros E. apply Hn. rewrite El E. set_solver.
Qed.

Lemma aug_entry_find_first_match_witness :
  ring store_a_b_bc [1; 2; 3; 4; 5]%N
  ∧ ∃ p, aug_entry_find (str "/a/b") store_a_b_bc = Some p ∧
      ((p = NULL ∧ ∀ a, a ∈ [1; 2; 3; 4; 5]%N →
                        path_eq (str "/a/b") (path_of store_a_b_bc a) = false)
       ∨ (p ≠ NULL ∧ ∃ l1 l2, [1; 2; 3; 4; 5]%N = l1 ++ p :: l2
            ∧ path_eq (str "/a/b") (path_of store_a_b_bc p) = true
            ∧ ∀ a, a ∈ l1 → path_eq (str "/a/b") (path_of store_a_b_bc a) = false)).
Proof.
  split; [apply store_a_b_bc_ring|].
  apply (aug_entry_find_first_match store_a_b_bc [1; 2; 3; 4; 5]%N (str "/a/b")
           store_a_b_bc_ring).
Defined.

Lemma store_ok_dead w l e : store_ok w l → e ∉ l → heap w !! e = None.
Proof.
  intros (_ & Hd & _) He. apply not_elem_of_dom. rewrite Hd. set_solver.
Qed.

Lemma store_ok_link w l1 a b l2 :
  store_ok w (l1 ++ a :: b :: l2) → linked (heap w) a b.
Proof.
  intros [Hc _]. apply cring_rot in Hc. simpl in Hc. by apply cring_link in Hc.
Qed.

(** [aug_entry_insert path nxt] on a well-formed store either returns
    NULL and leaves the heap as it was, the node allocated before a
    failing [strdup] being freed again, or returns a new entry that is
    linked immediately before [nxt], carries [path] and a null value, and
    leaves the other entries, their order, paths and values untouched. *)
Theorem aug_entry_insert_splices (w : world) (l1 l2 : list ptr) (path : cstr)
    (nxt : ptr) :
  store_ok w (l1 ++ nxt :: l2) →
  ∃ e w', aug_entry_insert path nxt w = Some (e, w') ∧ head w' = head w ∧
    ((e = NULL ∧ heap w' = heap w)
     ∨ (e ≠ NULL ∧ heap w !! e = None
        ∧ store_ok w' (l1 ++ e :: nxt :: l2)
        ∧ linked (heap w') e nxt
        ∧ pth (heap w') e = Some path ∧ vl (heap w') e = Some None
        ∧ same_entries w w' (l1 ++ nxt :: l2))).
Proof.
  intros Hok.
  destruct (aug_entry_insert_spec w l1 l2 path nxt Hok)
    as (e & w' & E & Hh & [[-> Hheap]|(He & Hfresh & Hok' & Hp & Hv & Hs)]).
  - exists NULL, w'. split_and!; [done..|]. by left.
  - exists e, w'. split_and!; [done..|]. right. split_and!; try done.
    + by eapply store_ok_dead.
    + by eapply store_ok_link.
Qed.

Lemma store_a_b_bc_store_ok : store_ok store_a_b_bc ([1; 2]%N ++ 3%N :: [4; 5]%N).
Proof. apply store_a_b_bc_ring. Qed.

Lemma aug_entry_insert_splices_witness :
  store_ok store_a_b_bc ([1; 2]%N ++ 3%N :: [4; 5]%N)
  ∧ ∃ e w', aug_entry_insert (str "/x") 3%N store_a_b_bc = Some (e, w') ∧
      head w' = head store_a_b_bc ∧
      ((e = NULL ∧ heap w' = heap store_a_b_bc)
       ∨ (e ≠ NULL ∧ heap store_a_b_bc !! e = None
          ∧ store_ok w' ([1; 2]%N ++ e :: 3%N :: [4; 5]%N)
          ∧ linked (heap w') e 3%N
          ∧ pth (heap w') e = Some (str "/x") ∧ vl (heap w') e = Some None
          ∧ same_entries store_a_b_bc w' ([1; 2]%N ++ 3%N :: [4; 5]%N))).
Proof.
  split; [apply store_a_b_bc_store_ok|].
  apply (aug_entry_insert_splices store_a_b_bc [1; 2]%N [4; 5]%N (str "/x") 3%N
           store_a_b_bc_store_ok).
Defined.

Lemma value_of_vl w a v : vl (heap w) a = Some v → value_of w a = v.
Proof. rewrite /value_of. by intros ->. Qed.

(** [aug_entry_make p nxt] on a well-formed store creates the entry for
    [p], a trailing separator stripped, immediately before [nxt], with a
    null value; the ancestors it has to create carry proper prefixes of
    [p] and go to the end of the traversal, before [head].  It returns
    NULL only when an allocation fails, and the ancestors created so far
    then stay in the store.  Entries present before keep path and
    value. *)
Theorem aug_entry_make_creates (w : world) (l1 l2 : list ptr) (p : cstr)
    (nxt : ptr) :
  p ≠ [] → ring w (l1 ++ nxt :: l2) →
  ∃ r w' ancs, aug_entry_make p nxt w = Some (r, w') ∧ head w' = head w ∧
    same_entries w w' (l1 ++ nxt :: l2) ∧
    (∀ a, a ∈ ancs → ∃ k, 1 ≤ k < pathlen p ∧ path_of w' a = take k p) ∧
    (allocations_succeed w → r ≠ NULL) ∧
    ((r = NULL ∧ ring w' ((l1 ++ nxt :: l2) ++ ancs))
     ∨ (r ≠ NULL ∧ store_ok w' (l1 ++ r :: nxt :: l2 ++ ancs)
        ∧ path_of w' r = take (pathlen p) p ∧ value_of w' r = None
        ∧ ∀ k, 1 ≤ k < pathlen p → char_at p k = SEP →
               exists_in w' (take k p) ((l1 ++ nxt :: l2) ++ ancs))).
Proof.
  intros Hp Hr.
  destruct (aug_entry_make_spec w l1 l2 p nxt Hp Hr)
    as (r & w' & ancs & E & Hh & Hs & Hanc & Hcase).
  assert (∀ k, k < pathlen p → take k (norm p) = take k p) as Htake.
  { intros k Hk. rewrite /norm take_take Nat.min_l //. lia. }
  exists r, w', ancs. split_and!; try done.
  - intros a Ha. destruct (Hanc a Ha) as (k & Hk & Ek). exists k. split; [done|].
    rewrite (path_of_pth _ _ _ Ek). apply Htake. lia.
  - intros Ha. by destruct (aug_entry_make_succeeds w l1 l2 p nxt r w' Hr Ha E).
  - destruct Hcase as [[-> Hr']|(Hr0 & _ & Hok & Hpth & Hvl & Hall)]; [by left|].
    right. split_and!; try done.
    + by apply path_of_pth.
    + by apply value_of_vl.
    + intros k Hk Hc. rewrite -Htake; last lia. apply Hall; [done|].
      rewrite /norm char_at_take //. lia.
Qed.

Lemma aug_entry_make_creates_witness :
  str "/x/y" ≠ [] ∧ ring store_a_b_bc ([1; 2]%N ++ 3%N :: [4; 5]%N)
  ∧ allocations_succeed store_a_b_bc
  ∧ ∃ r w' ancs,
      aug_entry_make (str "/x/y") 3%N store_a_b_bc = Some (r, w')
      ∧ r ≠ NULL
      ∧ store_ok w' ([1; 2]%N ++ r :: 3%N :: [4; 5]%N ++ ancs)
      ∧ path_of w' r = str "/x/y"
      ∧ value_of w' r = None
      ∧ exists_in w' (str "/x") (([1; 2]%N ++ 3%N :: [4; 5]%N) ++ ancs)
      ∧ (∀ a, a ∈ ancs → ∃ k, 1 ≤ k < 4 ∧ path_of w' a = take k (str "/x/y")).
Proof.
  assert (str "/x/y" ≠ []) as H1 by done.
  assert (allocations_succeed store_a_b_bc) as H3.
  { apply (bool_decide_unpack _). by vm_compute. }
  split; [exact H1|]. split; [exact store_a_b_bc_ring|]. split; [exact H3|].
  destruct (aug_entry_make_creates store_a_b_bc [1; 2]%N [4; 5]%N (str "/x/y") 3%N
              H1 store_a_b_bc_ring)
    as (r & w' & ancs & E & _ & _ & Hanc & Hr & Hcase).
  exists r, w', ancs. split; [exact E|]. split; [exact (Hr H3)|].
  destruct Hcase as [[Hnull _]|(_ & Hok & Hp & Hv & Hall)].
  { destruct (Hr H3 Hnull). }
  split; [exact Hok|]. split; [exact Hp|]. split; [exact Hv|].
  split; [|exact Hanc]. apply (Hall 2); [vm_compute; lia|reflexivity].
Defined.

(** [aug_entry_free e] on a well-formed store, for an entry [e] other
    than [head] and the sentinels, unlinks and frees [e]: the other
    entries keep their order, paths and values, and nothing is allocated.
    For an entry whose path is a string literal, as the sentinels made by
    [aug_init] are, the call is undefined. *)
Theorem aug_entry_free_unlinks (w : world) (l1 l2 : list ptr) (e : ptr) :
  ring w (l1 ++ e :: l2) →
  (e ≠ head w → ¬ protected (path_of w e) →
   ∃ w', aug_entry_free e w = Some (tt, w') ∧ head w' = head w
     ∧ alloc_fail w' = alloc_fail w
     ∧ heap w' !! e = None
     ∧ ring w' (l1 ++ l2) ∧ same_entries w w' (l1 ++ l2))
  ∧ (l2 ++ l1 ≠ [] → lit (heap w) e = Some true → aug_entry_free e w = None).
Proof.
  intros [Hok [rest El]].
  assert (is_Some (heap w !! e)) as [x Hx].
  { apply (store_ok_alive _ _ _ Hok). set_solver. }
  split; last by apply aug_entry_free_literal.
  intros Hhd Hp.
  destruct l1 as [|a l1]; simpl in El; injection El as E1 E2; [done|]. subst a.
  assert (lit (heap w) e = Some false) as Hlit.
  { rewrite /lit Hx /=. f_equal. destruct (e_literal x) eqn:El; [|done].
    destruct Hp. eapply store_ok_literal; [exact Hok|].
    by rewrite /lit Hx /= El. }
  destruct (aug_entry_free_spec w (head w :: l1) l2 e Hok) as (w' & E & Hh & Ha & Hok' & Hs).
  { by destruct l2. }
  { done. }
  exists w'. split_and!; try done.
  - apply (store_ok_dead _ _ _ Hok').
    destruct Hok as [[Hnd _] _]. apply NoDup_app in Hnd as (_ & H1 & H2).
    apply NoDup_cons in H2 as [H2 _].
    intros [Hin|Hin]%elem_of_app; [|done]. apply (H1 e Hin). by left.
  - split; [done|]. rewrite Hh. by eexists.
Qed.

Lemma aug_entry_free_unlinks_witness :
  ring store_a_b_bc ([1; 2]%N ++ 3%N :: [4; 5]%N)
  ∧ 3%N ≠ head store_a_b_bc ∧ ¬ protected (path_of store_a_b_bc 3%N)
  ∧ (∃ w', aug_entry_free 3%N store_a_b_bc = Some (tt, w')
       ∧ head w' = head store_a_b_bc
       ∧ alloc_fail w' = alloc_fail store_a_b_bc
       ∧ heap w' !! 3%N = None
       ∧ ring w' ([1; 2]%N ++ [4; 5]%N)
       ∧ same_entries store_a_b_bc w' ([1; 2]%N ++ [4; 5]%N)).
Proof.
  assert (3%N ≠ head store_a_b_bc) as H3 by (vm_compute; discriminate).
  assert (¬ protected (path_of store_a_b_bc 3%N)) as H4.
  { intros [H|H]; vm_compute in H; discriminate H. }
  split; [exact store_a_b_bc_ring|]. split; [exact H3|]. split; [exact H4|].
  exact (proj1 (aug_entry_free_unlinks store_a_b_bc [1; 2]%N [4; 5]%N 3%N
                  store_a_b_bc_ring) H3 H4).
Defined.

(** [aug_init] on the store before initialisation: when both allocations
    succeed it builds the store of the two sentinels, [/system] at [head]
    and [/system/config] after it, both without value, and runs the
    providers on it; when one of them fails it returns -1 without running
    any provider. *)
Theorem aug_init_from_scratch (w : world) :
  uninit w →
  if next_ok w && next_ok (pop w)
  then ∀ providers,
         aug_init providers w
         = aug_init_providers providers (fresh_store (tail (tail (alloc_fail w))))
  else ∃ w', ∀ providers, aug_init providers w = Some ((-1)%Z, w').
Proof.
  destruct w as [h hd o]. intros [Hh Hd]. simpl in Hh, Hd. subst h hd.
  destruct o as [|[] [|[] o]]; simpl; try (intros providers; by vm_compute);
    eexists; intros providers; by vm_compute.
Qed.

Lemma aug_init_from_scratch_witness :
  uninit (boot [false; false; true])
  ∧ ∀ providers,
      aug_init providers (boot [false; false; true])
      = aug_init_providers providers (fresh_store [true]).
Proof.
  split; [apply boot_uninit|].
  apply (aug_init_from_scratch (boot [false; false; true]) (boot_uninit _)).
Defined.

(** [aug_init] does not undo a half-made initialisation.  When the first
    allocation succeeds and the second fails, it returns -1 with [head]
    left pointing to the zeroed node, whose [next] is null; a second call
    then finds [head] set, skips the construction of the sentinels and
    returns 0 on a store that is not well formed. *)
Theorem aug_init_failure_leaves_head (providers : list aug_provider)
    (o : list bool) :
  ∃ w1, aug_init providers (boot (false :: true :: o)) = Some ((-1)%Z, w1)
    ∧ head w1 ≠ NULL
    ∧ heap w1 !! head w1 = Some (Entry [] false None NULL NULL)
    ∧ aug_init [] w1 = Some (0%Z, w1)
    ∧ ¬ inv w1.
Proof.
  eexists. split; [by vm_compute|]. split_and!; [done|by vm_compute..|].
  intros (l & _ & Hsys & _). by vm_compute in Hsys.
Qed.

(** [aug_save] runs the providers' [save] in order and stops at the first
    that returns -1: the providers after it are not run, and every other
    status of a provider counts as success. *)
Theorem aug_save_stops_at_failure (ps1 ps2 : list aug_provider)
    (p : aug_provider) (w w1 w2 : world) (r : Z) :
  aug_save ps1 w = Some (0%Z, w1) → prov_save p w1 = Some (r, w2) →
  aug_save (ps1 ++ p :: ps2) w
  = if decide (r = (-1)%Z) then Some ((-1)%Z, w2) else aug_save ps2 w2.
Proof.
  revert w. induction ps1 as [|p0 ps1 IH]; intros w H1 Hp.
  - injection H1 as ->. simpl. rewrite (bind_eq _ _ _ _ _ Hp).
    by case_decide.
  - simpl in *. destruct (prov_save p0 w) as [[r0 w0]|] eqn:E0.
    + rewrite (bind_eq _ _ _ _ _ E0) in H1. rewrite (bind_eq _ _ _ _ _ E0).
      case_decide; [done|]. by apply IH.
    + by rewrite /bind E0 in H1.
Qed.

Lemma aug_save_stops_at_failure_witness :
  aug_save [demo_provider] (fresh_store []) = Some (0%Z, fresh_store [])
  ∧ prov_save failing_provider (fresh_store []) = Some ((-1)%Z, fresh_store [])
  ∧ aug_save ([demo_provider] ++ failing_provider :: [demo_provider]) (fresh_store [])
    = Some ((-1)%Z, fresh_store []).
Proof.
  assert (aug_save [demo_provider] (fresh_store []) = Some (0%Z, fresh_store []))
    as H1 by done.
  assert (prov_save failing_provider (fresh_store [])
          = Some ((-1)%Z, fresh_store [])) as H2 by done.
  split; [done|]. split; [done|].
  apply (aug_save_stops_at_failure [demo_provider] [demo_provider]
           failing_provider _ _ _ _ H1 H2).
Defined.

(** ** [aug_set] in detail *)

Lemma aug_exists_found w l q :
  ring w l → aug_exists q w = Some true → first_match w q l ≠ NULL.
Proof.
  intros Hr. rewrite (aug_exists_spec _ _ _ Hr). intros [= E].
  by apply bool_decide_eq_true in E.
Qed.

Lemma value_of_alter_ne w v p a :
  a ≠ p →
  value_of (with_heap (alter (set_value v) p (heap w)) (pop w)) a = value_of w a.
Proof. intros Hne. rewrite /value_of /=. by heap_simpl. Qed.

(** [aug_set] on a path that has an entry creates nothing: the entries,
    their order and paths stay, and only the value of the entry found
    changes.  When the copy of the value cannot be allocated the call
    returns -1 and the old value is lost: [aug_get] returns NULL
    afterwards. *)
Theorem aug_set_overwrites (w : world) (l : list ptr) (path value : cstr) :
  ring w l → aug_exists path w = Some true →
  ∃ p w', aug_entry_find path w = Some p
    ∧ aug_set path value w = Some ((if next_ok w then 0%Z else (-1)%Z), w')
    ∧ ring w' l ∧ same_paths w w' l
    ∧ (∀ a, a ∈ l → a ≠ p → value_of w' a = value_of w a)
    ∧ aug_get path w' = Some (if next_ok w then Some value else None).
Proof.
  intros Hr Hex. pose proof (aug_exists_found _ _ _ Hr Hex) as Hf.
  destruct (first_match_found _ _ _ Hf) as [Hin _].
  destruct (store_ok_alive _ _ _ (ring_store_ok _ _ Hr) Hin) as [e He].
  eexists _, _. split; [by apply aug_entry_find_spec|].
  split; [by apply aug_set_found_eq|].
  set (w' := with_heap _ _).
  assert (ring w' l) as Hr' by by apply ring_set_value.
  assert (same_paths w w' l) as Hs.
  { intros a _. rewrite /w' /=. by heap_simpl. }
  split_and!; try done.
  - intros a _ Hne. by apply value_of_alter_ne.
  - apply (aug_get_found _ l _ (first_match w path l)); [done| |done|].
    + apply first_match_ext. intros a Ha. by eapply same_paths_path.
    + by rewrite /w' /= vl_set_value // He.
Qed.

Lemma aug_set_overwrites_witness :
  ring (World (heap store_a_b_bc) 1%N [true]) [1; 2; 3; 4; 5]%N
  ∧ aug_exists (str "/a/b") (World (heap store_a_b_bc) 1%N [true]) = Some true
  ∧ ∃ p w',
      aug_entry_find (str "/a/b") (World (heap store_a_b_bc) 1%N [true]) = Some p
      ∧ aug_set (str "/a/b") (str "new") (World (heap store_a_b_bc) 1%N [true])
        = Some ((-1)%Z, w')
      ∧ ring w' [1; 2; 3; 4; 5]%N
      ∧ same_paths (World (heap store_a_b_bc) 1%N [true]) w' [1; 2; 3; 4; 5]%N
      ∧ (∀ a, a ∈ [1; 2; 3; 4; 5]%N → a ≠ p →
              value_of w' a = value_of (World (heap store_a_b_bc) 1%N [true]) a)
      ∧ aug_get (str "/a/b") w' = Some None.
Proof.
  assert (ring (World (heap store_a_b_bc) 1%N [true]) [1; 2; 3; 4; 5]%N) as H1.
  { apply (ring_transfer store_a_b_bc); [done..|apply store_a_b_bc_ring]. }
  assert (aug_exists (str "/a/b") (World (heap store_a_b_bc) 1%N [true])
          = Some true) as H2 by (vm_compute; reflexivity).
  split; [done|]. split; [done|].
  apply (aug_set_overwrites _ _ (str "/a/b") (str "new") H1 H2).
Defined.

Lemma aug_set_created w l path value :
  path ≠ [] → ring w l → first_match w path l = NULL →
  ∃ r w' new, aug_set path value w = Some (r, w') ∧ head w' = head w ∧
    ring w' (l ++ new) ∧ same_entries w w' l.
Proof.
  intros Hp Hr Hf. rewrite /aug_set.
  rewrite (bind_rd _ _ _ _ (aug_entry_find_spec _ _ _ Hr)).
  case_decide; [|done].
  rewrite bind_assoc bind_get_head. pose proof Hr as [_ [rest El]].
  rewrite El in Hr.
  destruct (aug_entry_make_spec w [] rest path (head w) Hp Hr)
    as (r & w1 & ancs & Hmk & Hh1 & Hs1 & Hanc & Hcase).
  simpl in Hs1, Hcase. rewrite -!El in Hr Hs1 Hcase.
  rewrite (bind_eq _ _ _ _ _ Hmk).
  destruct Hcase as [[-> Hr1]|(Hr0 & Hfresh & Hok1 & Hp1 & Hv1 & Hall)].
  { case_decide; [|done]. exists (-1)%Z, w1, ancs. split_and!; try done.
    by rewrite El. }
  case_decide; [done|].
  assert (ring w1 ((l ++ ancs) ++ [r])) as Hr1.
  { rewrite El. apply (ring_snoc w w1 (rest ++ ancs) r Hh1 Hok1). }
  assert (is_Some (heap w1 !! r)) as [e He].
  { apply (store_ok_alive _ _ _ (ring_store_ok _ _ Hr1)). set_solver. }
  rewrite (aug_set_tail_eq _ _ _ e He).
  eexists _, _, (ancs ++ [r]). split; [done|]. rewrite app_assoc.
  split_and!.
  - done.
  - by apply ring_set_value.
  - intros a Ha. destruct (Hs1 a Ha) as [<- <-]. simpl.
    assert (a ≠ r) by (intros ->; apply Hfresh; set_solver).
    by heap_simpl.
Qed.

Lemma aug_get_spec w l q :
  ring w l →
  aug_get q w = Some (if decide (first_match w q l = NULL) then None
                      else value_of w (first_match w q l)).
Proof.
  intros Hr. rewrite /aug_get (aug_entry_find_spec _ _ _ Hr) /=.
  case_decide as Hf; [done|].
  destruct (first_match_found _ _ _ Hf) as [Hin _].
  destruct (store_ok_alive _ _ _ (ring_store_ok _ _ Hr) Hin) as [e He].
  by rewrite /value_of /vl He.
Qed.

Lemma first_match_app_found w q l l' :
  NULL ∉ l → first_match w q l ≠ NULL →
  first_match w q (l ++ l') = first_match w q l.
Proof. intros Hn Hf. rewrite first_match_app // decide_False //. Qed.

(** [aug_set] does not disturb the other paths: a path [q] that has an
    entry, other than the one found for the path set, is still found
    afterwards and [aug_get] returns for it what it returned before,
    whether the call succeeds or fails. *)
Theorem aug_set_keeps_other_entries (w : world) (l : list ptr)
    (path value q : cstr) (r : Z) (w' : world) :
  path ≠ [] → ring w l → aug_exists q w = Some true →
  aug_entry_find q w ≠ aug_entry_find path w →
  aug_set path value w = Some (r, w') →
  aug_get q w' = aug_get q w ∧ aug_exists q w' = Some true.
Proof.
  intros Hp Hr Hex Hne Hset.
  pose proof (aug_exists_found _ _ _ Hr Hex) as Hq.
  rewrite !(aug_entry_find_spec _ _ _ Hr) in Hne.
  destruct (first_match_found _ _ _ Hq) as [Hin _].
  pose proof (ring_null _ _ Hr) as Hn.
  assert (∃ new, ring w' (l ++ new) ∧ same_paths w w' l
                 ∧ value_of w' (first_match w q l) = value_of w (first_match w q l))
    as (new & Hr' & Hs & Hv).
  { destruct (decide (first_match w path l = NULL)) as [Hf|Hf].
    - destruct (aug_set_created w l path value Hp Hr Hf)
        as (r0 & w0 & new & E & _ & Hr' & Hs).
      rewrite E in Hset. injection Hset as <- <-. exists new.
      split_and!; [done|by apply same_entries_paths|].
      rewrite /value_of. by destruct (Hs _ Hin) as [_ ->].
    - rewrite (aug_set_found_eq _ _ _ _ Hr Hf) in Hset. injection Hset as <- <-.
      exists []. rewrite app_nil_r. split_and!.
      + by apply ring_set_value.
      + intros a _. simpl. by heap_simpl.
      + apply value_of_alter_ne. congruence. }
  assert (first_match w' q (l ++ new) = first_match w q l) as Hfm.
  { rewrite first_match_app_found //.
    - apply first_match_ext. intros a Ha. by eapply same_paths_path.
    - rewrite (first_match_ext w w') //. intros a Ha. by eapply same_paths_path. }
  split.
  - rewrite (aug_get_spec _ _ _ Hr') (aug_get_spec _ _ _ Hr) Hfm Hv //.
  - rewrite (aug_exists_spec _ _ _ Hr') Hfm bool_decide_eq_true_2 //.
Qed.

Lemma aug_set_keeps_other_entries_witness :
  str "/a/new" ≠ [] ∧ ring store_a_b_bc [1; 2; 3; 4; 5]%N
  ∧ aug_exists (str "/a/b") store_a_b_bc = Some true
  ∧ aug_entry_find (str "/a/b") store_a_b_bc
    ≠ aug_entry_find (str "/a/new") store_a_b_bc
  ∧ aug_set (str "/a/new") (str "v") store_a_b_bc
    = Some (0%Z, after (aug_set (str "/a/new") (str "v")) store_a_b_bc)
  ∧ aug_get (str "/a/b") (after (aug_set (str "/a/new") (str "v")) store_a_b_bc)
    = aug_get (str "/a/b") store_a_b_bc
  ∧ aug_exists (str "/a/b") (after (aug_set (str "/a/new") (str "v")) store_a_b_bc)
    = Some true.
Proof.
  assert (str "/a/new" ≠ []) as H1 by done.
  assert (aug_exists (str "/a/b") store_a_b_bc = Some true) as H3
    by (vm_compute; reflexivity).
  assert (aug_entry_find (str "/a/b") store_a_b_bc
          ≠ aug_entry_find (str "/a/new") store_a_b_bc) as H4 by by vm_compute.
  assert (aug_set (str "/a/new") (str "v") store_a_b_bc
          = Some (0%Z, after (aug_set (str "/a/new") (str "v")) store_a_b_bc))
    as H5 by (vm_compute; reflexivity).
  split_and!; [done|apply store_a_b_bc_ring|done..| |];
    apply (aug_set_keeps_other_entries store_a_b_bc [1; 2; 3; 4; 5]%N
             (str "/a/new") (str "v") (str "/a/b") 0%Z _ H1
             store_a_b_bc_ring H3 H4 H5).
Defined.

Lemma path_eq_empty q : q ≠ [] → path_eq [] q = false.
Proof.
  intros Hq. rewrite /path_eq. apply andb_false_iff. right.
  apply not_true_is_false. intros [Ht _]%pathprefix_true.
  pose proof (pathlen_pos q Hq). destruct q; [done|].
  destruct (pathlen (a :: q)); [lia|done].
Qed.

(** [aug_set] with the empty path is undefined on every well-formed store
    whose entries have non-empty paths: no entry is found for it, so
    [aug_entry_make] runs and reads at [path + 1], past the copy of the
    empty string. *)
Theorem aug_set_empty_path_undefined (w : world) (l : list ptr) (value : cstr) :
  ring w l → (∀ a, a ∈ l → path_of w a ≠ []) →
  aug_exists [] w = Some false ∧ aug_set [] value w = None.
Proof.
  intros Hr Hne.
  assert (first_match w [] l = NULL) as Hf.
  { apply first_match_none. intros a Ha. apply path_eq_empty. by apply Hne. }
  split.
  - by rewrite (aug_exists_spec _ _ _ Hr) Hf.
  - rewrite /aug_set (bind_rd _ _ _ _ (aug_entry_find_spec _ _ _ Hr)) Hf.
    case_decide; [|done]. by rewrite bind_assoc bind_get_head.
Qed.

Lemma aug_set_empty_path_undefined_witness :
  ring (fresh_store []) [1; 2]%N
  ∧ (∀ a, a ∈ [1; 2]%N → path_of (fresh_store []) a ≠ [])
  ∧ aug_exists [] (fresh_store []) = Some false
  ∧ aug_set [] (str "v") (fresh_store []) = None.
Proof.
  assert (∀ a, a ∈ [1; 2]%N → path_of (fresh_store []) a ≠ []) as H2.
  { intros a Ha. revert a Ha. apply Forall_forall.
    repeat (apply Forall_cons_2; [done|]). apply Forall_nil_2. }
  split; [apply fresh_store_ring|]. split; [done|].
  apply (aug_set_empty_path_undefined (fresh_store []) [1; 2]%N (str "v")
           (fresh_store_ring []) H2).
Defined.

(** ** [aug_insert] in detail *)

Lemma aug_insert_moved w l path sibling w' :
  ring w l → first_match w path l ≠ NULL →
  aug_insert path sibling w = Some (0%Z, w') →
  ∃ l', head w' = head w ∧ alloc_fail w' = alloc_fail w ∧ ring w' l'
        ∧ (∀ a, a ∈ l' ↔ a ∈ l) ∧ same_entries w w' l.
Proof.
  intros Hr Hp. rewrite /aug_insert.
  destruct (STREQ path sibling) eqn:Heq; [by intros [= ? _]|].
  destruct (strrchr path SEP) as [pdir|] eqn:Hpd; [|by intros [= ? _]].
  destruct (strrchr sibling SEP) as [sdir|] eqn:Hsd; [|by intros [= ? _]].
  case_decide as Hdir; [by intros [= ? _]|]. subst sdir.
  rewrite /STRNEQLEN. destruct (strncmp_eq path sibling pdir) eqn:Hcmp;
    [|by intros [= ? _]].
  simpl. apply strncmp_eq_take in Hcmp. apply bool_decide_eq_false in Heq.
  rewrite (bind_rd _ _ _ _ (aug_entry_find_spec _ _ _ Hr)).
  case_decide as Hs; [by intros [= ? _]|].
  rewrite (bind_rd _ _ _ _ (aug_entry_find_spec _ _ _ Hr)).
  case_decide; [done|].
  destruct (first_match_found _ _ _ Hs) as [Hsin Hsq].
  destruct (first_match_found _ _ _ Hp) as [Hpin Hpq].
  destruct (aug_insert_relink_spec w l _ _ Hr Hpin Hsin)
    as (w0 & l' & -> & Hh & Ha & Hr' & Hl' & Hs' & _).
  { intros E. rewrite E in Hpq. by eapply (path_eq_same_dir path sibling). }
  intros [= <-]. by exists l'.
Qed.

(** [aug_insert] of a path that has an entry only relinks: when it
    succeeds nothing is allocated or freed, the store holds the same
    entries with the paths and values they had, and it is still a
    well-formed ring from the same [head]. *)
Theorem aug_insert_moves_existing (w w' : world) (l : list ptr)
    (path sibling : cstr) :
  ring w l → aug_exists path w = Some true →
  aug_insert path sibling w = Some (0%Z, w') →
  head w' = head w ∧ alloc_fail w' = alloc_fail w
  ∧ dom (heap w') = dom (heap w)
  ∧ same_entries w w' l
  ∧ ∃ l', ring w' l' ∧ l' ≡ₚ l.
Proof.
  intros Hr Hex Hins. pose proof (aug_exists_found _ _ _ Hr Hex) as Hp.
  destruct (aug_insert_moved w l path sibling w' Hr Hp Hins)
    as (l' & Hh & Ha & Hr' & Hl' & Hs).
  assert (l' ≡ₚ l) as Hperm.
  { apply NoDup_Permutation; [|by destruct Hr as [[[? _] _] _]|done].
    by destruct Hr' as [[[? _] _] _]. }
  split_and!; try done; [|by exists l'].
  destruct Hr as [(_ & -> & _) _]. destruct Hr' as [(_ & -> & _) _].
  by rewrite Hperm.
Qed.

Lemma aug_insert_moves_existing_witness :
  ring store_a_b_bc [1; 2; 3; 4; 5]%N
  ∧ aug_exists (str "/a/bc") store_a_b_bc = Some true
  ∧ aug_insert (str "/a/bc") (str "/a/b") store_a_b_bc
    = Some (0%Z, after (aug_insert (str "/a/bc") (str "/a/b")) store_a_b_bc)
  ∧ dom (heap (after (aug_insert (str "/a/bc") (str "/a/b")) store_a_b_bc))
    = dom (heap store_a_b_bc)
  ∧ same_entries store_a_b_bc
      (after (aug_insert (str "/a/bc") (str "/a/b")) store_a_b_bc)
      [1; 2; 3; 4; 5]%N.
Proof.
  assert (aug_exists (str "/a/bc") store_a_b_bc = Some true) as H2
    by (vm_compute; reflexivity).
  assert (aug_insert (str "/a/bc") (str "/a/b") store_a_b_bc
          = Some (0%Z, after (aug_insert (str "/a/bc") (str "/a/b")) store_a_b_bc))
    as H3 by (vm_compute; reflexivity).
  split; [apply store_a_b_bc_ring|]. split; [done|]. split; [done|].
  destruct (aug_insert_moves_existing store_a_b_bc _ [1; 2; 3; 4; 5]%N
              (str "/a/bc") (str "/a/b") store_a_b_bc_ring H2 H3)
    as (_ & _ & Hd & Hs & _).
  split; [exact Hd|exact Hs].
Defined.

(** A sibling that is the head sentinel: [aug_insert] splices the new
    entry before [head], which puts it at the end of the traversal, after
    every entry that was there and after the ancestors it created. *)
Theorem aug_insert_before_head_appends (w w' : world) (l : list ptr)
    (path sibling : cstr) :
  inv w → ring w l →
  aug_exists path w = Some false →
  path_eq sibling P_SYSTEM = true →
  aug_insert path sibling w = Some (0%Z, w') →
  aug_entry_find sibling w = Some (head w)
  ∧ ∃ e ancs, (e ∉ l) ∧ ring w' (l ++ ancs ++ [e])
      ∧ path_of w' e = take (pathlen path) path
      ∧ same_entries w w' l.
Proof.
  intros (l0 & _ & Hsys & _) Hr Hex Hsib Hins.
  pose proof (aug_exists_false _ _ _ Hr Hex) as Hp.
  pose proof Hr as [_ [rest El]].
  assert (first_match w sibling l = head w) as Hs.
  { by rewrite El /= Hsys Hsib. }
  split; [by rewrite (aug_entry_find_spec _ _ _ Hr) Hs|].
  destruct (aug_insert_new w l path sibling w' Hr Hp Hins)
    as (e & l1 & l2 & ancs & El' & _ & _ & Hh & Hfresh & Hok & Hpth & Hsame).
  rewrite Hs in El' Hok.
  assert (l1 = [] ∧ l2 = rest) as [-> ->].
  { destruct l1 as [|b l1].
    - rewrite El /= in El'. by injection El' as <-.
    - exfalso. rewrite El /= in El'. injection El' as <- El'.
      destruct Hr as [[[Hnd _] _] _]. rewrite El in Hnd.
      apply NoDup_cons in Hnd as [Hnd _]. apply Hnd. rewrite El'. set_solver. }
  simpl in Hok. exists e, ancs. split_and!.
  - intros Hin. apply Hfresh. set_solver.
  - rewrite El /= app_assoc. by apply (ring_spliced_head w).
  - by apply path_of_pth.
  - done.
Qed.

Lemma aug_insert_before_head_appends_witness :
  inv (fresh_store []) ∧ ring (fresh_store []) [1; 2]%N
  ∧ aug_exists (str "/x") (fresh_store []) = Some false
  ∧ path_eq (str "/system") P_SYSTEM = true
  ∧ aug_insert (str "/x") (str "/system") (fresh_store []) = Some (0%Z, store_x_last)
  ∧ aug_entry_find (str "/system") (fresh_store []) = Some (head (fresh_store []))
  ∧ ∃ e ancs, (e ∉ [1; 2]%N) ∧ ring store_x_last ([1; 2]%N ++ ancs ++ [e])
      ∧ path_of store_x_last e = take (pathlen (str "/x")) (str "/x")
      ∧ same_entries (fresh_store []) store_x_last [1; 2]%N.
Proof.
  assert (aug_exists (str "/x") (fresh_store []) = Some false) as H3
    by (vm_compute; reflexivity).
  assert (path_eq (str "/system") P_SYSTEM = true) as H4 by (vm_compute; reflexivity).
  assert (aug_insert (str "/x") (str "/system") (fresh_store [])
          = Some (0%Z, store_x_last)) as H5 by (vm_compute; reflexivity).
  split_and!; [apply fresh_store_inv|apply fresh_store_ring|done..| |];
    apply (aug_insert_before_head_appends (fresh_store []) store_x_last [1; 2]%N
             (str "/x") (str "/system") (fresh_store_inv [])
             (fresh_store_ring []) H3 H4 H5).
Defined.

(** ** [aug_rm] in detail *)

Lemma filter_none {A} (P : A → Prop) `{!∀ x, Decision (P x)} (l : list A) :
  (∀ a, a ∈ l → ¬ P a) → filter P l = [].
Proof.
  induction l as [|a l IH]; intros Hall; [done|].
  rewrite filter_cons_False; last (apply Hall; by left). apply IH.
  intros b Hb. apply Hall. by right.
Qed.

Lemma filter_all {A} (P : A → Prop) `{!∀ x, Decision (P x)} (l : list A) :
  (∀ a, a ∈ l → P a) → filter P l = l.
Proof.
  induction l as [|a l IH]; intros Hall; [done|].
  rewrite filter_cons_True; last (apply Hall; by left). f_equal. apply IH.
  intros b Hb. apply Hall. by right.
Qed.

(** Removing the same path twice: the second [aug_rm] finds nothing to
    remove, returns 0 and leaves the entries, their order, paths and
    values as the first call left them. *)
Theorem aug_rm_idempotent (w : world) (l : list ptr) (path : cstr) :
  ring w l →
  ∃ n w1 w2 l1, aug_rm path w = Some (n, w1) ∧ aug_rm path w1 = Some (0%Z, w2)
    ∧ ring w1 l1 ∧ ring w2 l1 ∧ same_entries w1 w2 l1.
Proof.
  intros Hr. pose proof Hr as [_ [rest ->]].
  destruct (aug_rm_spec w rest path Hr) as (w1 & E1 & Hh1 & _ & Hr1 & Hs1).
  set (R := filter (λ a, ¬ rm_hit w path a) rest) in *.
  rewrite -Hh1 in Hr1.
  destruct (aug_rm_spec w1 R path Hr1) as (w2 & E2 & Hh2 & _ & Hr2 & Hs2).
  assert (∀ a, a ∈ R → ¬ rm_hit w1 path a) as Hno.
  { intros a Ha. rewrite /rm_hit (same_entries_path _ _ _ _ Hs1); last by right.
    by apply list_elem_of_filter in Ha as [? _]. }
  rewrite (filter_none _ _ Hno) in E2. rewrite (filter_all _ _ Hno) in Hr2 Hs2.
  eexists _, w1, w2, (head w1 :: R). by split_and!.
Qed.

Lemma aug_rm_idempotent_witness :
  ring store_a_b_bc [1; 2; 3; 4; 5]%N
  ∧ ∃ n w1 w2 l1,
      aug_rm (str "/a") store_a_b_bc = Some (n, w1)
      ∧ aug_rm (str "/a") w1 = Some (0%Z, w2)
      ∧ ring w1 l1 ∧ ring w2 l1 ∧ same_entries w1 w2 l1.
Proof.
  split; [apply store_a_b_bc_ring|].
  apply (aug_rm_idempotent store_a_b_bc [1; 2; 3; 4; 5]%N (str "/a")
           store_a_b_bc_ring).
Defined.

Lemma path_eq_rm_test path q :
  path_eq path q = true → q ≠ P_SYSTEM → q ≠ P_SYSTEM_CONFIG →
  aug_rm_test path q = true.
Proof.
  intros [[Ht Hb]%pathprefix_true _]%path_eq_true H1 H2.
  rewrite /aug_rm_test /STREQLEN /STREQ.
  rewrite !andb_true_iff !negb_true_iff !bool_decide_eq_false orb_true_iff.
  rewrite !bool_decide_eq_true strncmp_eq_take. split_and!; try done.
Qed.

(** After [aug_rm path], for a path other than the sentinels', no entry
    is found for [path] any more. *)
Theorem aug_rm_then_missing (w : world) (path : cstr) :
  inv w → path_eq path P_SYSTEM = false → path_eq path P_SYSTEM_CONFIG = false →
  ∃ n w', aug_rm path w = Some (n, w') ∧ aug_exists path w' = Some false.
Proof.
  intros (l & Hr & Hsys & _) H1 H2. pose proof Hr as [_ [rest ->]].
  destruct (aug_rm_spec w rest path Hr) as (w' & E & Hh & _ & Hr' & Hs).
  eexists _, w'. split; [done|].
  rewrite (aug_exists_spec _ _ _ Hr') bool_decide_eq_false_2 //.
  intros Hf. apply Hf. apply first_match_none. intros a Ha.
  rewrite (same_entries_path _ _ _ _ Hs Ha).
  apply elem_of_cons in Ha as [->|Ha]; [by rewrite Hsys|].
  apply list_elem_of_filter in Ha as [Hno _].
  apply not_true_is_false. intros Heq. apply Hno. rewrite /rm_hit.
  apply path_eq_rm_test; [done|intros E0; by rewrite E0 H1 in Heq|].
  intros E0. by rewrite E0 H2 in Heq.
Qed.

Lemma aug_rm_then_missing_witness :
  inv store_a_b_bc ∧ path_eq (str "/a/") P_SYSTEM = false
  ∧ path_eq (str "/a/") P_SYSTEM_CONFIG = false
  ∧ ∃ n w', aug_rm (str "/a/") store_a_b_bc = Some (n, w')
            ∧ aug_exists (str "/a/") w' = Some false.
Proof.
  assert (path_eq (str "/a/") P_SYSTEM = false) as H1 by (vm_compute; reflexivity).
  assert (path_eq (str "/a/") P_SYSTEM_CONFIG = false) as H2
    by (vm_compute; reflexivity).
  split; [apply store_a_b_bc_inv|]. split; [done|]. split; [done|].
  apply (aug_rm_then_missing store_a_b_bc (str "/a/") store_a_b_bc_inv H1 H2).
Defined.

(** ** [aug_ls] in detail *)

(** The two passes of [aug_ls] agree.  On a well-formed store of C
    strings the count returned is the number of immediate children of
    [path], a trailing separator of [path] set aside; with an array to
    fill, the array allocated holds exactly these children, in traversal
    order, and the call returns -1 when the array cannot be allocated;
    without one only the count is returned and nothing is allocated. *)
Theorem aug_ls_lists_children (w : world) (l : list ptr) (path : cstr) :
  ring w l → (∀ q, q ∈ paths w l → NUL ∉ q) →
  ∃ hits,
    aug_ls path false w = Some ((Z.of_nat (length hits), None), w)
    ∧ aug_ls path true w
      = (if next_ok w
         then Some ((Z.of_nat (length hits), Some (Some <$> hits)), pop w)
         else Some (((-1)%Z, None), pop w))
    ∧ hits `sublist_of` paths w l
    ∧ ∀ q, q ∈ hits ↔ q ∈ paths w l ∧ child (take (pathlen path) path) q.
Proof.
  intros Hr Hnul. exists (filter (ls_hit path) (paths w l)).
  rewrite !(aug_ls_spec _ _ _ _ Hr) /=. split_and!; [done..|apply sublist_filter|].
  intros q. rewrite list_elem_of_filter. split.
  - intros [Hq Hin]. split; [done|]. apply ls_hit_child; [by apply Hnul|done].
  - intros [Hin Hq]. split; [|done]. apply ls_hit_child; [by apply Hnul|done].
Qed.

Lemma store_deep_strings : ∀ q, q ∈ paths store_deep [1; 2; 3; 4; 5]%N → NUL ∉ q.
Proof.
  apply Forall_forall.
  repeat (apply Forall_cons_2; [apply (bool_decide_unpack _); by vm_compute|]).
  apply Forall_nil_2.
Qed.

Lemma aug_ls_lists_children_witness :
  ring store_deep [1; 2; 3; 4; 5]%N
  ∧ (∀ q, q ∈ paths store_deep [1; 2; 3; 4; 5]%N → NUL ∉ q)
  ∧ ∃ hits,
      aug_ls (str "/a/") false store_deep
      = Some ((Z.of_nat (length hits), None), store_deep)
      ∧ aug_ls (str "/a/") true store_deep
        = (if next_ok store_deep
           then Some ((Z.of_nat (length hits), Some (Some <$> hits)), pop store_deep)
           else Some (((-1)%Z, None), pop store_deep))
      ∧ hits `sublist_of` paths store_deep [1; 2; 3; 4; 5]%N
      ∧ ∀ q, q ∈ hits ↔ q ∈ paths store_deep [1; 2; 3; 4; 5]%N
                         ∧ child (take (pathlen (str "/a/")) (str "/a/")) q.
Proof.
  split; [apply store_deep_ring|]. split; [apply store_deep_strings|].
  apply (aug_ls_lists_children store_deep [1; 2; 3; 4; 5]%N (str "/a/")
           store_deep_ring store_deep_strings).
Defined.

(** Listing the root.  On a well-formed store of C strings none of which
    starts with two separators, [aug_ls "/"] finds no child at all, since
    it looks for a second separator after the first; the top-level
    entries are the children of the empty path. *)
Theorem aug_ls_root (w : world) (l : list ptr) :
  ring w l →
  (∀ q, q ∈ paths w l → (NUL ∉ q) ∧ ¬ (str "//" `prefix_of` q)) →
  aug_ls (str "/") false w = Some ((0%Z, None), w)
  ∧ ∃ hits, aug_ls [] false w = Some ((Z.of_nat (length hits), None), w)
      ∧ ∀ q, q ∈ hits ↔ q ∈ paths w l ∧ ∃ b, q = SEP :: b ∧ b ≠ [] ∧ SEP ∉ b.
Proof.
  intros Hr Hq. split.
  - rewrite (aug_ls_spec _ _ _ _ Hr) /=. rewrite filter_none //.
    intros q Hin Hhit. destruct (Hq q Hin) as [Hnul Hpre].
    apply ls_hit_child in Hhit as (b & -> & _); [|done].
    apply Hpre. by exists b.
  - exists (filter (ls_hit []) (paths w l)). split; [by rewrite (aug_ls_spec _ _ _ _ Hr)|].
    intros q. rewrite list_elem_of_filter. split.
    + intros [Hhit Hin]. split; [done|]. destruct (Hq q Hin) as [Hnul _].
      by apply ls_hit_child in Hhit.
    + intros [Hin Hc]. split; [|done]. destruct (Hq q Hin) as [Hnul _].
      by apply ls_hit_child.
Qed.

Lemma aug_ls_root_witness :
  ring store_deep [1; 2; 3; 4; 5]%N
  ∧ (∀ q, q ∈ paths store_deep [1; 2; 3; 4; 5]%N →
          (NUL ∉ q) ∧ ¬ (str "//" `prefix_of` q))
  ∧ aug_ls (str "/") false store_deep = Some ((0%Z, None), store_deep)
  ∧ ∃ hits, aug_ls [] false store_deep
            = Some ((Z.of_nat (length hits), None), store_deep)
      ∧ ∀ q, q ∈ hits ↔ q ∈ paths store_deep [1; 2; 3; 4; 5]%N
                         ∧ ∃ b, q = SEP :: b ∧ b ≠ [] ∧ SEP ∉ b.
Proof.
  assert (∀ q, q ∈ paths store_deep [1; 2; 3; 4; 5]%N →
               (NUL ∉ q) ∧ ¬ (str "//" `prefix_of` q)) as H2.
  { apply Forall_forall.
    repeat (apply Forall_cons_2;
            [split; apply (bool_decide_unpack _); by vm_compute|]).
    apply Forall_nil_2. }
  split; [apply store_deep_ring|]. split; [done|].
  apply (aug_ls_root store_deep [1; 2; 3; 4; 5]%N store_deep_ring H2).
Defined.

(** ** [aug_match] in detail *)

(** The star of a pattern: the matcher for the rest of the pattern tried
    at every suffix of the string. *)
Lemma fnmatch_from_star fuel p1 s :
  fnmatch_from (S fuel) ("*"%char :: p1) s
  = match fnmatch_from fuel p1 s with
    | Some false =>
        match s with
        | _ :: s1 => fnmatch_from (S fuel) ("*"%char :: p1) s1
        | [] => Some false
        end
    | r => r
    end.
Proof. by destruct s. Qed.

Lemma fnmatch_from_total fuel : ∀ p s,
  length p < fuel → "["%char ∉ p → is_Some (fnmatch_from fuel p s).
Proof.
  induction fuel as [|fuel IH]; intros p s Hlen Hb; [lia|].
  destruct p as [|c p1]; [by eexists|].
  assert (c ≠ "["%char ∧ "["%char ∉ p1) as [Hc Hb1].
  { apply not_elem_of_cons in Hb as [? ?]. by split. }
  simpl in Hlen.
  destruct (decide (c = "*"%char)) as [->|Hstar].
  { induction s as [|x s IHs]; rewrite fnmatch_from_star.
    - destruct (IH p1 [] ltac:(lia) Hb1) as [[] ->]; by eexists.
    - destruct (IH p1 (x :: s) ltac:(lia) Hb1) as [[] ->]; [by eexists|done]. }
  simpl. rewrite bool_decide_eq_false_2 //.
  case_bool_decide; [destruct s; [by eexists|by apply IH; [lia|]]|].
  rewrite bool_decide_eq_false_2 //.
  destruct s as [|x s]; [by eexists|]. case_decide; [|by eexists].
  apply IH; [lia|done].
Qed.

Lemma fnmatch_noescape_total pattern q :
  "["%char ∉ pattern → is_Some (fnmatch_noescape pattern q).
Proof. intros Hb. apply fnmatch_from_total; [lia|done]. Qed.

Lemma fnmatch_star_all q : fnmatch_noescape (str "*") q = Some true.
Proof.
  rewrite /fnmatch_noescape. change (str "*") with ["*"%char].
  change (S (length ["*"%char])) with 2.
  induction q as [|x q IH]; rewrite fnmatch_from_star; [done|].
  by rewrite IH.
Qed.

Lemma match_list_copy pattern size sink qs : ∀ seen,
  Forall (λ q, is_Some (fnmatch_noescape pattern q)) qs →
  (0 ≤ size)%Z → Z.to_nat size ≤ length sink →
  match_list pattern size qs (Z.of_nat (length seen))
    ((Some <$> take (Z.to_nat size) seen)
     ++ drop (Z.to_nat size `min` length seen) sink)
  = Some (Z.of_nat (length (seen ++ filter (match_hit pattern) qs)),
          (Some <$> take (Z.to_nat size) (seen ++ filter (match_hit pattern) qs))
          ++ drop (Z.to_nat size `min`
                   length (seen ++ filter (match_hit pattern) qs)) sink).
Proof.
  induction qs as [|q qs IH]; intros seen Hall Hsz Hcap.
  { by rewrite /= app_nil_r. }
  apply Forall_cons in Hall as [[m Hm] Hall].
  rewrite /= /match_step Hm /=. destruct m.
  - rewrite filter_cons_True //. rewrite cons_middle app_assoc.
    rewrite -(IH (seen ++ [q]) Hall Hsz Hcap). rewrite length_app /=.
    case_decide as Hlt.
    + assert (length seen < Z.to_nat size) as Hlt' by lia.
      rewrite decide_True; last first.
      { split; [lia|]. rewrite Nat2Z.id length_fmap length_take.
        rewrite length_drop. lia. }
      simpl. rewrite !length_app /= Nat2Z.id. f_equal; [lia|].
      rewrite (take_ge seen); [|lia].
      rewrite (take_ge (seen ++ [q])); [|rewrite length_app /=; lia].
      rewrite (Nat.min_r _ (length seen)); [|lia].
      rewrite (Nat.min_r _ (length seen + 1)); [|lia].
      rewrite fmap_app /= -app_assoc /=.
      rewrite insert_app_r_alt length_fmap // Nat.sub_diag.
      destruct (drop (length seen) sink) as [|y t] eqn:Ed.
      { apply (f_equal length) in Ed. rewrite length_drop /= in Ed. lia. }
      simpl. do 2 f_equal.
      replace (length seen + 1) with (S (length seen)) by lia.
      by rewrite -(Nat.add_1_r (length seen)) -drop_drop Ed.
    + assert (Z.to_nat size ≤ length seen) as Hge by lia.
      simpl. rewrite !length_app /=. f_equal; [lia|].
      rewrite take_app_le // !Nat.min_l //; lia.
  - rewrite filter_cons_False; [|by rewrite /match_hit Hm]. by apply IH.
Qed.

(** [aug_match] with a pattern without bracket expression, a capacity
    that is not negative and a sink at least that long: the value
    returned is the number of all entries whose path matches, however
    small the capacity; the first [size] of their paths, in traversal
    order, are written to the start of the sink, and the sink is left
    untouched from there on, so nothing is written past the capacity. *)
Theorem aug_match_copies_prefix (w : world) (l : list ptr) (pattern : cstr)
    (sink : list (option cstr)) (size : Z) :
  ring w l → "["%char ∉ pattern → (0 ≤ size)%Z → Z.to_nat size ≤ length sink →
  aug_match pattern sink size w
  = Some (Z.of_nat (length (filter (match_hit pattern) (paths w l))),
          (Some <$> take (Z.to_nat size) (filter (match_hit pattern) (paths w l)))
          ++ drop (Z.to_nat size `min`
                   length (filter (match_hit pattern) (paths w l))) sink).
Proof.
  intros Hr Hb Hsz Hcap. rewrite (aug_match_spec _ _ _ _ _ Hr).
  pose proof (match_list_copy pattern size sink (paths w l) []) as H.
  rewrite /= take_nil Nat.min_0_r /= in H. apply H; [|done..].
  apply Forall_forall. intros q _. by apply fnmatch_noescape_total.
Qed.

Lemma aug_match_copies_prefix_witness :
  ring store_tree [1; 2; 3; 4; 5; 6]%N ∧ ("["%char ∉ str "/a/?")
  ∧ (0 ≤ 1)%Z ∧ Z.to_nat 1 ≤ length [None; Some (str "old")]
  ∧ aug_match (str "/a/?") [None; Some (str "old")] 1%Z store_tree
    = Some (Z.of_nat (length (filter (match_hit (str "/a/?"))
                                (paths store_tree [1; 2; 3; 4; 5; 6]%N))),
            (Some <$> take (Z.to_nat 1)
                        (filter (match_hit (str "/a/?"))
                           (paths store_tree [1; 2; 3; 4; 5; 6]%N)))
            ++ drop (Z.to_nat 1 `min`
                     length (filter (match_hit (str "/a/?"))
                               (paths store_tree [1; 2; 3; 4; 5; 6]%N)))
                 [None; Some (str "old")]).
Proof.
  assert ("["%char ∉ str "/a/?") as H2.
  { apply (bool_decide_unpack _). by vm_compute. }
  assert (0 ≤ 1)%Z as H3 by lia.
  assert (Z.to_nat 1 ≤ length [None; Some (str "old")]) as H4 by (simpl; lia).
  split; [apply store_tree_ring|]. split; [done|]. split; [done|]. split; [done|].
  apply (aug_match_copies_prefix store_tree [1; 2; 3; 4; 5; 6]%N (str "/a/?")
           [None; Some (str "old")] 1%Z store_tree_ring H2 H3 H4).
Defined.

(** The pattern [*] matches every path, separators included: with a
    capacity of zero or less [aug_match "*"] returns the number of
    entries of the store, sentinels included, and writes nothing. *)
Theorem aug_match_star_counts_every_entry (w : world) (l : list ptr)
    (sink : list (option cstr)) (capacity : Z) :
  ring w l → (capacity ≤ 0)%Z →
  aug_match (str "*") sink capacity w = Some (Z.of_nat (size (heap w)), sink)
  ∧ size (heap w) = length l.
Proof.
  intros Hr Hc. pose proof (store_ok_size _ _ (ring_store_ok _ _ Hr)) as Hsz.
  split; [|done].
  rewrite (aug_match_spec _ _ _ _ _ Hr) match_list_count //.
  - rewrite filter_all; last (by intros q _; apply fnmatch_star_all).
    by rewrite /paths length_fmap Hsz.
  - apply Forall_forall. intros q _. rewrite fnmatch_star_all. by eexists.
Qed.

Lemma aug_match_star_counts_every_entry_witness :
  ring store_tree [1; 2; 3; 4; 5; 6]%N ∧ (0 ≤ 0)%Z
  ∧ aug_match (str "*") [] 0%Z store_tree
    = Some (Z.of_nat (size (heap store_tree)), [])
  ∧ size (heap store_tree) = length [1; 2; 3; 4; 5; 6]%N.
Proof.
  assert (0 ≤ 0)%Z as H2 by lia.
  split; [apply store_tree_ring|]. split; [done|].
  apply (aug_match_star_counts_every_entry store_tree [1; 2; 3; 4; 5; 6]%N
           [] 0%Z store_tree_ring H2).
Defined.

(** ** [aug_print] over the traversal order *)

Lemma aug_print_from_S fuel path p acc w e :
  heap w !! p = Some e →
  nx (heap w) (e_prev e) = Some p → pv (heap w) (e_next e) = Some p →
  aug_print_from (S fuel) path p acc w
  = out ← (if print_test path (e_path e)
           then line ← fprintf_noargs (e_path e);
                Some (p_out acc ++ line ++ line_end (e_value e))
           else Some (p_out acc));
    if decide (e_next e = head w) then Some (Printed out (p_fixme acc))
    else aug_print_from fuel path (e_next e) (Printed out (p_fixme acc)) w.
Proof.
  intros He H1 H2. rewrite /= He /= H1 /= H2 /=.
  destruct (decide (p ≠ p)) as [Hne|_]; [done|].
  by destruct (decide (p ≠ p)) as [Hne|_].
Qed.

Lemma aug_print_from_spec w path suf : ∀ p fuel acc,
  Forall2 (linked (heap w)) (p :: suf) (suf ++ [head w]) →
  head w ∉ suf →
  length suf < fuel →
  inverse_links w →
  aug_print_from fuel path p acc w
  = (λ out, Printed out (p_fixme acc))
    <$> print_list path (entries w (p :: suf)) (p_out acc).
Proof.
  induction suf as [|p' suf IH]; intros p fuel acc HF Hhd Hlen Hinv;
    (destruct fuel as [|fuel]; [simpl in Hlen; lia|]);
    apply Forall2_cons_1 in HF as [[Hn _] HF];
    destruct (nx_alive _ _ _ Hn) as [e He];
    destruct (Hinv p e He) as [H1 H2];
    rewrite (aug_print_from_S _ _ _ _ _ e) //;
    rewrite /nx He /= in Hn; injection Hn as Hn;
    rewrite /entries fmap_cons /print_list -/print_list /=;
    rewrite /path_of /value_of /pth /vl He /=;
    destruct (print_test path (e_path e)); simpl;
    try (destruct (fprintf_noargs (e_path e)) as [line|]; [|done]; simpl).
  - by rewrite decide_True.
  - by rewrite decide_True.
  - rewrite decide_False; last set_solver.
    rewrite Hn IH //; [set_solver|simpl in Hlen; lia].
  - rewrite decide_False; last set_solver.
    rewrite Hn IH //; [set_solver|simpl in Hlen; lia].
Qed.

Lemma aug_print_spec w l path :
  ring w l →
  aug_print path w
  = (λ out, Printed out []) <$> print_list path (entries w l) [].
Proof.
  intros [Hok [rest ->]]. pose proof Hok as ([Hnd HF] & _).
  apply (aug_print_from_spec w path rest (head w) _ (Printed [] [])).
  - by rewrite rot1_cons in HF.
  - by apply NoDup_cons in Hnd as [? _].
  - rewrite (store_ok_size _ _ Hok) /=. lia.
  - by destruct (store_ok_well_linked _ _ Hok).
Qed.

Lemma fprintf_noargs_plain q : "%"%char ∉ q → fprintf_noargs q = Some q.
Proof.
  induction q as [|c q IH]; [done|]. intros [Hc Hq]%not_elem_of_cons. simpl.
  rewrite decide_False; last congruence. by rewrite IH.
Qed.

Lemma print_test_hit path q : print_test path q = true ↔ print_hit path q.
Proof.
  destruct path as [p|]; [|done]. rewrite /= /STREQLEN strncmp_eq_take.
  pose proof (norm_length p) as Hl. rewrite /norm in Hl. split.
  - intros E. exists (drop (pathlen p) q). by rewrite E take_drop.
  - intros [k ->]. symmetry. by apply take_app_length'.
Qed.

Lemma print_list_plain path es : ∀ out,
  (∀ e, e ∈ es → "%"%char ∉ e.1) →
  print_list path es out
  = Some (out ++ concat ((λ e, e.1 ++ line_end e.2)
                           <$> filter (λ e, print_hit path e.1) es)).
Proof.
  induction es as [|e es IH]; intros out Hall; simpl.
  { by rewrite app_nil_r. }
  assert (∀ e, e ∈ es → "%"%char ∉ e.1) as Hall'.
  { intros e' He'. apply Hall. by right. }
  destruct (print_test path e.1) eqn:E.
  - rewrite fprintf_noargs_plain /=; last (apply Hall; by left).
    rewrite IH // filter_cons_True; last by apply print_test_hit.
    by rewrite fmap_cons /= -!app_assoc.
  - rewrite IH // filter_cons_False //.
    rewrite -print_test_hit. by rewrite E.
Qed.

Lemma print_list_undefined path es e : ∀ out,
  e ∈ es → print_hit path e.1 → fprintf_noargs e.1 = None →
  print_list path es out = None.
Proof.
  induction es as [|e0 es IH]; intros out Hin Hhit Hf.
  { by apply elem_of_nil in Hin. }
  simpl. apply elem_of_cons in Hin as [<-|Hin].
  - by rewrite (proj2 (print_test_hit _ _) Hhit) Hf.
  - destruct (print_test path e0.1); [|by apply IH].
    destruct (fprintf_noargs e0.1); [|done]. by apply IH.
Qed.

(** [aug_print] on a well-formed store whose paths hold no percent sign
    reports no broken link and writes, in traversal order, one line for
    every entry whose path starts with [path] as a string (for every
    entry when [path] is null): the path, then [ = value] when the value
    is not null, then a newline.  The test is a plain prefix test: it is
    not bounded by a separator, unlike the test of [aug_rm]. *)
Theorem aug_print_dumps (w : world) (l : list ptr) (path : option cstr) :
  ring w l → (∀ a, a ∈ l → "%"%char ∉ path_of w a) →
  aug_print path w
  = Some (Printed
            (concat ((λ e, e.1 ++ line_end e.2)
                       <$> filter (λ e, print_hit path e.1) (entries w l)))
            []).
Proof.
  intros Hr Hall. rewrite (aug_print_spec _ _ _ Hr) print_list_plain //.
  intros e [a [-> Ha]]%list_elem_of_fmap. by apply Hall.
Qed.

Lemma store_a_b_bc_plain :
  ∀ a, a ∈ [1; 2; 3; 4; 5]%N → "%"%char ∉ path_of store_a_b_bc a.
Proof. paths_compute. Qed.

Lemma aug_print_dumps_witness :
  ring store_a_b_bc [1; 2; 3; 4; 5]%N
  ∧ (∀ a, a ∈ [1; 2; 3; 4; 5]%N → "%"%char ∉ path_of store_a_b_bc a)
  ∧ aug_print (Some (str "/a/b")) store_a_b_bc
    = Some (Printed
              (concat ((λ e, e.1 ++ line_end e.2)
                         <$> filter (λ e, print_hit (Some (str "/a/b")) e.1)
                               (entries store_a_b_bc [1; 2; 3; 4; 5]%N)))
              []).
Proof.
  split; [apply store_a_b_bc_ring|]. split; [apply store_a_b_bc_plain|].
  apply (aug_print_dumps store_a_b_bc [1; 2; 3; 4; 5]%N (Some (str "/a/b"))
           store_a_b_bc_ring store_a_b_bc_plain).
Defined.

(** [aug_print] passes the stored path to [fprintf] as the format.  When
    an entry to be shown has a path with a conversion specification other
    than [%%], [fprintf] is called without the argument the conversion
    takes and the call is undefined. *)
Theorem aug_print_path_as_format (w : world) (l : list ptr)
    (path : option cstr) (a : ptr) :
  ring w l → a ∈ l → print_hit path (path_of w a) →
  fprintf_noargs (path_of w a) = None →
  aug_print path w = None.
Proof.
  intros Hr Ha Hhit Hf. rewrite (aug_print_spec _ _ _ Hr).
  rewrite (print_list_undefined _ _ (path_of w a, value_of w a)) //.
  apply list_elem_of_fmap. by exists a.
Qed.

Lemma store_percent_ring : ring store_percent [1; 2; 3]%N.
Proof. ring_compute. Qed.

Lemma aug_print_path_as_format_witness :
  ring store_percent [1; 2; 3]%N ∧ 3%N ∈ [1; 2; 3]%N
  ∧ print_hit None (path_of store_percent 3%N)
  ∧ fprintf_noargs (path_of store_percent 3%N) = None
  ∧ aug_print None store_percent = None.
Proof.
  assert (3%N ∈ [1; 2; 3]%N) as H2 by set_solver.
  assert (print_hit None (path_of store_percent 3%N)) as H3 by done.
  assert (fprintf_noargs (path_of store_percent 3%N) = None) as H4
    by (vm_compute; reflexivity).
  split; [apply store_percent_ring|]. split; [done|]. split; [done|].
  split; [done|].
  apply (aug_print_path_as_format store_percent [1; 2; 3]%N None 3%N
           store_percent_ring H2 H3 H4).
Defined.

(** ** The operations together *)

(** No operation breaks the store, whether it succeeds or fails: from a
    well-formed store with both sentinels every call that returns, with
    whatever status, leaves a well-formed store with both sentinels. *)
Theorem operations_keep_store_well_formed (providers : list aug_provider)
    (c : api_call) (w : world) (r : api_ret) (w' : world) :
  Forall provider_ok providers → inv w →
  exec providers c w = Some (r, w') → inv w'.
Proof.
  intros Hp Hinv Hex. destruct c; simpl in Hex;
    apply bind_inv in Hex as (x & Hex & ->).
  - revert Hex. rewrite /aug_init bind_get_head.
    case_decide as Hh; [by apply inv_head in Hinv|].
    rewrite bind_ret. case_decide; [done|].
    by apply aug_init_providers_preserves.
  - by rewrite (rd_inv _ _ _ _ Hex).
  - by eapply aug_set_preserves.
  - by rewrite (rd_inv _ _ _ _ Hex).
  - by eapply aug_insert_preserves.
  - by eapply aug_rm_preserves.
  - by eapply aug_ls_preserves.
  - by rewrite (rd_inv _ _ _ _ Hex).
  - by eapply aug_save_preserves.
Qed.

Lemma operations_keep_store_well_formed_witness :
  Forall provider_ok [demo_provider] ∧ inv store_no_memory
  ∧ exec [demo_provider] (CSet (str "/a/b/c/d") (str "v")) store_no_memory
    = Some (RStatus (-1)%Z,
            after (aug_set (str "/a/b/c/d") (str "v")) store_no_memory)
  ∧ inv (after (aug_set (str "/a/b/c/d") (str "v")) store_no_memory).
Proof.
  assert (Forall provider_ok [demo_provider]) as H1.
  { constructor; [apply demo_provider_ok|constructor]. }
  assert (inv store_no_memory) as H2.
  { destruct store_a_b_bc_inv as (l & Hr & Hsys & Hcfg). exists l.
    split_and!; [by apply (ring_transfer store_a_b_bc)|done..]. }
  assert (exec [demo_provider] (CSet (str "/a/b/c/d") (str "v")) store_no_memory
          = Some (RStatus (-1)%Z,
                  after (aug_set (str "/a/b/c/d") (str "v")) store_no_memory))
    as H3 by (vm_compute; reflexivity).
  split; [done|]. split; [done|]. split; [done|].
  apply (operations_keep_store_well_formed [demo_provider]
           (CSet (str "/a/b/c/d") (str "v")) store_no_memory _ _ H1 H2 H3).
Defined.

Lemma match_list_defined pattern size qs matches :
  "["%char ∉ pattern → (size ≤ Z.of_nat (length matches))%Z →
  is_Some (match_list pattern size qs 0%Z matches).
Proof.
  intros Hb Hsz.
  assert (Forall (λ q, is_Some (fnmatch_noescape pattern q)) qs) as Hall.
  { apply Forall_forall. intros q _. by apply fnmatch_noescape_total. }
  destruct (decide (size ≤ 0)%Z) as [Hneg|Hpos].
  - rewrite match_list_count //.
  - pose proof (match_list_copy pattern size matches qs [] Hall) as H.
    rewrite /= take_nil Nat.min_0_r /= in H. rewrite H //; lia.
Qed.

(** The operations run to completion.  On a well-formed store with both
    sentinels every well-posed call returns a result: every entry it
    reads, writes or frees is allocated, no traversal leaves the ring,
    [aug_entry_free] is given no entry whose path is a string literal,
    and nothing is written outside the caller's array.  Strings are
    values here, so the statement is about calls whose argument strings
    are the caller's own; a call that passes a pointer into the store,
    such as a path that [aug_ls] returned, is not covered. *)
Theorem operations_are_defined (c : api_call) (w : world) :
  inv w → well_posed c → ∃ r w', exec [] c w = Some (r, w').
Proof.
  intros (l & Hr & Hsys & Hcfg) Hc.
  assert (∀ A (m : M A) (f : A → api_ret),
            (∃ x w', m w = Some (x, w')) →
            ∃ r w', (do x ← m; ret (f x)) w = Some (r, w')) as Hbind.
  { intros A m f (x & w' & E). exists (f x), w'. by rewrite (bind_eq _ _ _ _ _ E). }
  assert (∀ A (g : world → option A), is_Some (g w) → ∃ x w', rd g w = Some (x, w'))
    as Hrd.
  { intros A g [x E]. exists x, w. by rewrite /rd E. }
  destruct c; simpl in Hc |- *; apply Hbind.
  - exists 0%Z, w. rewrite /aug_init bind_get_head.
    case_decide as Hh; [|done]. exfalso.
    apply (ring_null _ _ Hr). rewrite -Hh. by apply ring_head_elem.
  - apply Hrd. rewrite (aug_get_spec _ _ _ Hr). by eexists.
  - destruct (aug_set_spec w l path value Hc Hr) as (r & w' & _ & E & _). eauto.
  - apply Hrd. rewrite (aug_exists_spec _ _ _ Hr). by eexists.
  - destruct (aug_insert_spec w l path sibling Hr) as (r & w' & _ & E & _). eauto.
  - pose proof Hr as [_ [rest ->]].
    destruct (aug_rm_spec w rest path Hr) as (w' & E & _). eauto.
  - rewrite (aug_ls_spec _ _ _ _ Hr) /=.
    destruct children; [destruct (next_ok w)|]; eauto.
  - apply Hrd. rewrite (aug_match_spec _ _ _ _ _ Hr).
    destruct Hc. by apply match_list_defined.
  - by exists 0%Z, w.
Qed.

Lemma operations_are_defined_witness :
  inv store_a_b_bc ∧ well_posed (CRm (str "/a"))
  ∧ ∃ r w', exec [] (CRm (str "/a")) store_a_b_bc = Some (r, w').
Proof.
  assert (well_posed (CRm (str "/a"))) as H2 by done.
  split; [apply store_a_b_bc_inv|]. split; [done|].
  apply (operations_are_defined (CRm (str "/a")) store_a_b_bc store_a_b_bc_inv H2).
Defined.

(** ** Operations in sequence *)

Lemma aug_set_created_entry w l path value w' :
  path ≠ [] → ring w l → first_match w path l = NULL →
  aug_set path value w = Some (0%Z, w') →
  ∃ new e, ring w' (l ++ new) ∧ e ∈ new ∧ path_of w' e = norm path.
Proof.
  intros Hp Hr Hf. rewrite /aug_set.
  rewrite (bind_rd _ _ _ _ (aug_entry_find_spec _ _ _ Hr)).
  case_decide; [|done].
  rewrite bind_assoc bind_get_head. pose proof Hr as [_ [rest El]].
  rewrite El in Hr.
  destruct (aug_entry_make_spec w [] rest path (head w) Hp Hr)
    as (r & w1 & ancs & Hmk & Hh1 & Hs1 & Hanc & Hcase).
  simpl in Hs1, Hcase. rewrite -!El in Hr Hs1 Hcase.
  rewrite (bind_eq _ _ _ _ _ Hmk).
  destruct Hcase as [[-> Hr1]|(Hr0 & Hfresh & Hok1 & Hp1 & Hv1 & Hall)].
  { case_decide; [|done]. by intros [= ? _]. }
  case_decide; [done|].
  assert (ring w1 ((l ++ ancs) ++ [r])) as Hr1.
  { rewrite El. apply (ring_snoc w w1 (rest ++ ancs) r Hh1 Hok1). }
  assert (is_Some (heap w1 !! r)) as [e He].
  { apply (store_ok_alive _ _ _ (ring_store_ok _ _ Hr1)). set_solver. }
  rewrite (aug_set_tail_eq _ _ _ e He). intros [= _ <-].
  exists (ancs ++ [r]), r. rewrite app_assoc. split_and!.
  - by apply ring_set_value.
  - set_solver.
  - apply path_of_pth. simpl. by heap_simpl.
Qed.

Lemma pathlen_name d name :
  name ≠ [] → SEP ∉ name → pathlen (d ++ SEP :: name) = length (d ++ SEP :: name).
Proof.
  intros Hne Hsep. destruct (pathlen_cases (d ++ SEP :: name)) as [E|(_ & _ & Hc)];
    [done|]. exfalso.
  destruct (exists_last Hne) as (name' & c & ->).
  assert (d ++ SEP :: name' ++ [c] = (d ++ SEP :: name') ++ [c]) as E
    by by rewrite -app_assoc.
  rewrite E length_app /= Nat.add_sub char_at_app_r /= in Hc.
  apply Hsep. rewrite -Hc. set_solver.
Qed.

(** [aug_set] then [aug_ls]: a path created by a successful [aug_set]
    under a directory [d] is among the children that [aug_ls d] lists on
    the store that results. *)
Theorem aug_set_then_listed (w w' : world) (l : list ptr)
    (d name value : cstr) :
  ring w l →
  NUL ∉ d ++ SEP :: name → name ≠ [] → SEP ∉ name → pathlen d = length d →
  aug_exists (d ++ SEP :: name) w = Some false →
  aug_set (d ++ SEP :: name) value w = Some (0%Z, w') →
  ∃ hits, d ++ SEP :: name ∈ hits
    ∧ aug_ls d false w' = Some ((Z.of_nat (length hits), None), w')
    ∧ aug_ls d true w'
      = (if next_ok w'
         then Some ((Z.of_nat (length hits), Some (Some <$> hits)), pop w')
         else Some (((-1)%Z, None), pop w')).
Proof.
  intros Hr Hnul Hne Hsep Hd Hex Hset.
  assert (d ++ SEP :: name ≠ []) as Hp by by destruct d.
  pose proof (aug_exists_false _ _ _ Hr Hex) as Hf.
  destruct (aug_set_created_entry w l _ value w' Hp Hr Hf Hset)
    as (new & e & Hr' & He & Hpe).
  rewrite /norm pathlen_name // take_ge // in Hpe.
  exists (filter (ls_hit d) (paths w' (l ++ new))).
  rewrite !(aug_ls_spec _ _ _ _ Hr') /=. split; [|done].
  apply list_elem_of_filter. split.
  - apply ls_hit_child; [done|]. exists name.
    by rewrite /norm Hd take_ge.
  - rewrite -Hpe. apply list_elem_of_fmap. exists e. split; [done|]. set_solver.
Qed.

Lemma aug_set_then_listed_witness :
  ring store_a_b_bc [1; 2; 3; 4; 5]%N
  ∧ (NUL ∉ str "/a" ++ SEP :: str "new") ∧ str "new" ≠ [] ∧ (SEP ∉ str "new")
  ∧ pathlen (str "/a") = length (str "/a")
  ∧ aug_exists (str "/a" ++ SEP :: str "new") store_a_b_bc = Some false
  ∧ aug_set (str "/a" ++ SEP :: str "new") (str "v") store_a_b_bc
    = Some (0%Z, after (aug_set (str "/a/new") (str "v")) store_a_b_bc)
  ∧ ∃ hits, str "/a" ++ SEP :: str "new" ∈ hits
      ∧ aug_ls (str "/a") false
          (after (aug_set (str "/a/new") (str "v")) store_a_b_bc)
        = Some ((Z.of_nat (length hits), None),
                after (aug_set (str "/a/new") (str "v")) store_a_b_bc).
Proof.
  assert (NUL ∉ str "/a" ++ SEP :: str "new") as H2.
  { apply (bool_decide_unpack _). by vm_compute. }
  assert (str "new" ≠ []) as H3 by done.
  assert (SEP ∉ str "new") as H4.
  { apply (bool_decide_unpack _). by vm_compute. }
  assert (pathlen (str "/a") = length (str "/a")) as H5 by done.
  assert (aug_exists (str "/a" ++ SEP :: str "new") store_a_b_bc = Some false)
    as H6 by (vm_compute; reflexivity).
  assert (aug_set (str "/a" ++ SEP :: str "new") (str "v") store_a_b_bc
          = Some (0%Z, after (aug_set (str "/a/new") (str "v")) store_a_b_bc))
    as H7 by (vm_compute; reflexivity).
  split_and!; [apply store_a_b_bc_ring|done..|].
  destruct (aug_set_then_listed store_a_b_bc _ [1; 2; 3; 4; 5]%N
              (str "/a") (str "new") (str "v") store_a_b_bc_ring
              H2 H3 H4 H5 H6 H7) as (hits & Hin & Hls & _).
  exists hits. split; [exact Hin|exact Hls].
Defined.

(** [aug_rm] then [aug_ls]: after [aug_rm path] on a well-formed store of
    C strings, [aug_ls path] finds no child, provided neither sentinel is
    a child of [path]. *)
Theorem aug_rm_then_no_children (w : world) (l : list ptr) (path : cstr) :
  inv w → ring w l → (∀ a, a ∈ l → NUL ∉ path_of w a) →
  ¬ child (take (pathlen path) path) P_SYSTEM →
  ¬ child (take (pathlen path) path) P_SYSTEM_CONFIG →
  ∃ n w', aug_rm path w = Some (n, w')
          ∧ aug_ls path false w' = Some ((0%Z, None), w').
Proof.
  intros (l0 & _ & Hsys & _) Hr Hnul H1 H2. pose proof Hr as [_ [rest El]].
  subst l.
  destruct (aug_rm_spec w rest path Hr) as (w' & E & Hh & _ & Hr' & Hs).
  eexists _, w'. split; [done|].
  rewrite (aug_ls_spec _ _ _ _ Hr'). cbv zeta iota beta. rewrite filter_none //.
  intros q [a [-> Ha]]%list_elem_of_fmap.
  rewrite (same_entries_path _ _ _ _ Hs Ha). intros Hhit.
  assert (a ∈ head w :: rest) as Ha'.
  { apply elem_of_cons in Ha as [->|Ha]; [by left|]. right.
    by apply list_elem_of_filter in Ha as [_ ?]. }
  apply ls_hit_child in Hhit; [|by apply Hnul].
  destruct (decide (protected (path_of w a))) as [[Ep|Ep]|Hnp].
  - apply H1. by rewrite -Ep.
  - apply H2. by rewrite -Ep.
  - apply elem_of_cons in Ha as [->|Ha].
    { apply Hnp. by left. }
    apply list_elem_of_filter in Ha as [Hno _]. apply Hno.
    rewrite /rm_hit. apply aug_rm_test_scope; [by apply Hnul|].
    split; [|done]. right. destruct Hhit as (b & -> & _).
    exists b. by rewrite -app_assoc.
Qed.

Lemma aug_rm_then_no_children_witness :
  inv store_a_b_bc ∧ ring store_a_b_bc [1; 2; 3; 4; 5]%N
  ∧ (∀ a, a ∈ [1; 2; 3; 4; 5]%N → NUL ∉ path_of store_a_b_bc a)
  ∧ ¬ child (take (pathlen (str "/a")) (str "/a")) P_SYSTEM
  ∧ ¬ child (take (pathlen (str "/a")) (str "/a")) P_SYSTEM_CONFIG
  ∧ ∃ n w', aug_rm (str "/a") store_a_b_bc = Some (n, w')
            ∧ aug_ls (str "/a") false w' = Some ((0%Z, None), w').
Proof.
  assert (¬ child (take (pathlen (str "/a")) (str "/a")) P_SYSTEM) as H4.
  { by intros (b & [=] & _). }
  assert (¬ child (take (pathlen (str "/a")) (str "/a")) P_SYSTEM_CONFIG) as H5.
  { by intros (b & [=] & _). }
  split_and!; [apply store_a_b_bc_inv|apply store_a_b_bc_ring
              |apply store_a_b_bc_strings|done..|].
  apply (aug_rm_then_no_children store_a_b_bc [1; 2; 3; 4; 5]%N (str "/a")
           store_a_b_bc_inv store_a_b_bc_ring store_a_b_bc_strings H4 H5).
Defined.

(** ** Trailing separators *)

Lemma pathlen_snoc_sep p : p ≠ [] → pathlen (p ++ [SEP]) = length p.
Proof.
  intros Hp. rewrite pathlen_ends.
  - rewrite length_app /=. lia.
  - rewrite length_app /=. destruct p; [done|]. simpl. lia.
  - by rewrite length_app /= Nat.add_sub char_at_app_r.
Qed.

Lemma pathlen_full_not_snoc q p :
  pathlen q = length q → p ≠ [] → q ≠ p ++ [SEP].
Proof.
  intros Hq Hp ->. rewrite pathlen_snoc_sep // length_app /= in Hq. lia.
Qed.

Lemma path_eq_trailing p q :
  p ≠ [] → pathlen p = length p → pathlen q = length q →
  path_eq (p ++ [SEP]) q = path_eq p q.
Proof.
  intros Hp Hlp Hlq. apply eq_true_iff_eq.
  rewrite !path_eq_true !pathprefix_true pathlen_snoc_sep // Hlp Hlq.
  rewrite take_app_length !firstn_all.
  assert (∀ n (s t : cstr), s = take n t → length s ≤ length t) as Hle.
  { intros n s t ->. rewrite length_take. lia. }
  split.
  - intros [[E1 B1] [E2 B2]].
    pose proof (Hle _ _ _ E1) as L1. pose proof (Hle _ _ _ E2) as L2.
    rewrite length_app /= in L2.
    assert (q = p) as ->.
    { destruct (decide (length q = length p + 1)) as [Hl|Hl].
      - exfalso. apply (pathlen_full_not_snoc q p Hlq Hp).
        rewrite E2 take_ge; [done|]. rewrite length_app /=. lia.
      - rewrite E2 take_app_le; last lia. rewrite take_ge; [done|lia]. }
    split_and!; [by rewrite firstn_all|done|by rewrite firstn_all|].
    left. by apply char_at_ge.
  - intros [[E1 B1] [E2 B2]].
    pose proof (Hle _ _ _ E1) as L1. pose proof (Hle _ _ _ E2) as L2.
    assert (q = p) as ->.
    { rewrite E2 take_ge; [done|lia]. }
    split_and!; [by rewrite firstn_all|done|by rewrite take_app_length|].
    right. by rewrite char_at_app_r.
Qed.

Lemma first_match_cong w p1 p2 l :
  (∀ a, a ∈ l → path_eq p1 (path_of w a) = path_eq p2 (path_of w a)) →
  first_match w p1 l = first_match w p2 l.
Proof.
  induction l as [|a l IH]; intros H; [done|]. simpl.
  rewrite (H a); last by left. rewrite IH //. intros b Hb. apply H. by right.
Qed.

(** A trailing separator on the path sought makes no difference to the
    lookups: on a well-formed store whose paths do not end in a
    separator, [aug_entry_find], [aug_exists] and [aug_get] give the same
    for [p/] as for [p]. *)
Theorem lookup_ignores_trailing_separator (w : world) (l : list ptr) (p : cstr) :
  ring w l → p ≠ [] → pathlen p = length p →
  (∀ a, a ∈ l → pathlen (path_of w a) = length (path_of w a)) →
  aug_entry_find (p ++ [SEP]) w = aug_entry_find p w
  ∧ aug_exists (p ++ [SEP]) w = aug_exists p w
  ∧ aug_get (p ++ [SEP]) w = aug_get p w.
Proof.
  intros Hr Hp Hlp Hall.
  assert (first_match w (p ++ [SEP]) l = first_match w p l) as E.
  { apply first_match_cong. intros a Ha. apply path_eq_trailing; auto. }
  by rewrite !(aug_entry_find_spec _ _ _ Hr) !(aug_exists_spec _ _ _ Hr)
    !(aug_get_spec _ _ _ Hr) E.
Qed.

Lemma lookup_ignores_trailing_separator_witness :
  ring store_a_b_bc [1; 2; 3; 4; 5]%N ∧ str "/a/b" ≠ []
  ∧ pathlen (str "/a/b") = length (str "/a/b")
  ∧ (∀ a, a ∈ [1; 2; 3; 4; 5]%N →
          pathlen (path_of store_a_b_bc a) = length (path_of store_a_b_bc a))
  ∧ aug_entry_find (str "/a/b" ++ [SEP]) store_a_b_bc
    = aug_entry_find (str "/a/b") store_a_b_bc
  ∧ aug_exists (str "/a/b" ++ [SEP]) store_a_b_bc
    = aug_exists (str "/a/b") store_a_b_bc
  ∧ aug_get (str "/a/b" ++ [SEP]) store_a_b_bc = aug_get (str "/a/b") store_a_b_bc.
Proof.
  assert (str "/a/b" ≠ []) as H2 by done.
  assert (pathlen (str "/a/b") = length (str "/a/b")) as H3 by done.
  assert (∀ a, a ∈ [1; 2; 3; 4; 5]%N →
               pathlen (path_of store_a_b_bc a) = length (path_of store_a_b_bc a))
    as H4.
  { apply Forall_forall.
    repeat (apply Forall_cons_2; [by vm_compute|]). apply Forall_nil_2. }
  split; [apply store_a_b_bc_ring|]. split; [done|]. split; [done|].
  split; [done|].
  apply (lookup_ignores_trailing_separator store_a_b_bc [1; 2; 3; 4; 5]%N
           (str "/a/b") store_a_b_bc_ring H2 H3 H4).
Defined.

(** ** Values of the entries created on the way *)

Lemma no_new_values_refl w w' : heap w' = heap w → no_new_values w w'.
Proof. intros E a v. by rewrite E. Qed.

Lemma no_new_values_trans w1 w2 w3 :
  no_new_values w1 w2 → no_new_values w2 w3 → no_new_values w1 w3.
Proof. intros H1 H2 a v Hv. by apply H1, H2. Qed.

Lemma aug_entry_insert_no_new_values w l1 l2 path nxt r w' :
  store_ok w (l1 ++ nxt :: l2) →
  aug_entry_insert path nxt w = Some (r, w') → no_new_values w w'.
Proof.
  intros Hok E.
  destruct (aug_entry_insert_spec w l1 l2 path nxt Hok)
    as (r0 & w0 & E0 & _ & Hcase).
  rewrite E0 in E. injection E as -> ->.
  destruct Hcase as [[_ Hheap]|(_ & Hfresh & Hok' & _ & Hv & Hs)];
    [by apply no_new_values_refl|].
  intros a v Ha.
  assert (a ∈ l1 ++ r :: nxt :: l2) as Hin.
  { apply (store_ok_elem _ _ _ Hok'). apply (fmap_is_Some e_value).
    rewrite -/(vl _ _) Ha. by eexists. }
  destruct (decide (a = r)) as [->|Hne]; [congruence|].
  destruct (Hs a) as [_ <-]; [set_solver|done].
Qed.

Lemma aug_entry_make_from_no_new_values path : ∀ rest pos w l ok w',
  ring w l → aug_entry_make_from path pos rest w = Some (ok, w') →
  no_new_values w w'.
Proof.
  induction rest as [|c rest IH]; intros pos w l ok w' Hr; simpl.
  { intros [= _ <-]. by apply no_new_values_refl. }
  case_decide as Hc; [|by apply (IH _ _ l)].
  rewrite (bind_rd _ _ _ _ (aug_entry_find_spec _ _ _ Hr)).
  case_decide as Hf; [|by apply (IH _ _ l)].
  rewrite bind_get_head. pose proof Hr as [Hok [rest0 El]]. rewrite El in Hok.
  destruct (aug_entry_insert_spec w [] rest0 (take pos path) (head w) Hok)
    as (r & w1 & Hins & Hh1 & Hcase).
  pose proof (aug_entry_insert_no_new_values w [] rest0 _ _ _ _ Hok Hins) as H1.
  rewrite (bind_eq _ _ _ _ _ Hins). cbv beta.
  destruct Hcase as [[-> Hheap]|(Hr0 & Hfresh & Hok1 & _)].
  { case_decide; [|done]. by intros [= _ <-]. }
  case_decide; [done|]. intros Hrec.
  apply (no_new_values_trans _ w1); [done|].
  apply (IH (S pos) w1 (head w :: rest0 ++ [r]) ok w'); [|done].
  by apply (ring_snoc w).
Qed.

Lemma aug_entry_make_no_new_values w l1 l2 p nxt r w' :
  ring w (l1 ++ nxt :: l2) →
  aug_entry_make p nxt w = Some (r, w') → no_new_values w w'.
Proof.
  intros Hr. rewrite /aug_entry_make. destruct p as [|c p]; [done|].
  rewrite -/(norm (c :: p)).
  destruct (aug_entry_make_from_spec (norm (c :: p)) (drop 1 (norm (c :: p))) 1
              w _ Hr) as (ok & w0 & ancs & Hloop & _ & Hr0 & _).
  rewrite (bind_eq _ _ _ _ _ Hloop).
  pose proof (aug_entry_make_from_no_new_values _ _ _ _ _ _ _ Hr Hloop) as H0.
  destruct ok; [|by intros [= _ <-]].
  intros Hins. apply (no_new_values_trans _ w0); [done|].
  apply ring_store_ok in Hr0. rewrite -app_assoc /= in Hr0.
  by eapply aug_entry_insert_no_new_values.
Qed.

Lemma aug_set_new_shape w l path value w' :
  path ≠ [] → ring w l → first_match w path l = NULL →
  aug_set path value w = Some (0%Z, w') →
  ∃ w1 ancs r,
    aug_entry_make path (head w) w = Some (r, w1)
    ∧ ring w1 ((l ++ ancs) ++ [r]) ∧ (r ∉ l ++ ancs) ∧ same_entries w w1 l
    ∧ w' = with_heap (alter (set_value (Some value)) r (heap w1)) (pop w1)
    ∧ (∀ k, 1 ≤ k < pathlen path → char_at (norm path) k = SEP →
            exists_in w1 (take k (norm path)) (l ++ ancs)).
Proof.
  intros Hp Hr Hf. rewrite /aug_set.
  rewrite (bind_rd _ _ _ _ (aug_entry_find_spec _ _ _ Hr)).
  case_decide; [|done].
  rewrite bind_assoc bind_get_head. pose proof Hr as [_ [rest El]].
  rewrite El in Hr.
  destruct (aug_entry_make_spec w [] rest path (head w) Hp Hr)
    as (r & w1 & ancs & Hmk & Hh1 & Hs1 & Hanc & Hcase).
  simpl in Hs1, Hcase. rewrite -!El in Hr Hs1 Hcase.
  rewrite (bind_eq _ _ _ _ _ Hmk).
  destruct Hcase as [[-> Hr1]|(Hr0 & Hfresh & Hok1 & Hp1 & Hv1 & Hall)].
  { case_decide; [|done]. by intros [= ? _]. }
  case_decide; [done|].
  assert (ring w1 ((l ++ ancs) ++ [r])) as Hr1.
  { rewrite El. apply (ring_snoc w w1 (rest ++ ancs) r Hh1 Hok1). }
  assert (is_Some (heap w1 !! r)) as [e He].
  { apply (store_ok_alive _ _ _ (ring_store_ok _ _ Hr1)). set_solver. }
  rewrite (aug_set_tail_eq _ _ _ e He).
  destruct (next_ok w1); [|by intros [= ? _]]. intros [= <-].
  exists w1, ancs, r. split_and!; try done; by rewrite El.
Qed.

(** The ancestors that [aug_set] creates on the way carry no value: for
    an ancestor of the path set that had no entry before, [aug_exists] is
    true after a successful [aug_set] and [aug_get] returns NULL. *)
Theorem aug_set_ancestors_have_no_value (w w' : world) (l : list ptr)
    (p value : cstr) (k : nat) :
  ring w l → p ≠ [] →
  aug_exists p w = Some false →
  1 ≤ k < pathlen p → char_at p k = SEP →
  aug_exists (take k p) w = Some false →
  aug_set p value w = Some (0%Z, w') →
  aug_exists (take k p) w' = Some true ∧ aug_get (take k p) w' = Some None.
Proof.
  intros Hr Hp Hex Hk Hc Hexk Hset.
  pose proof (aug_exists_false _ _ _ Hr Hex) as Hf.
  pose proof (aug_exists_false _ _ _ Hr Hexk) as Hfk.
  destruct (aug_set_new_shape w l p value w' Hp Hr Hf Hset)
    as (w1 & ancs & r & Hmk & Hr1 & Hfresh & Hs1 & -> & Hall).
  assert (take k (norm p) = take k p) as Etk.
  { rewrite /norm take_take Nat.min_l //. lia. }
  specialize (Hall k Hk). rewrite {1}/norm char_at_take in Hall; last lia.
  specialize (Hall Hc). rewrite Etk in Hall.
  set (w' := with_heap _ _).
  assert (ring w' ((l ++ ancs) ++ [r])) as Hr' by by apply ring_set_value.
  assert (∀ a, path_of w' a = path_of w1 a) as Hpaths.
  { intros a. rewrite /path_of /w' /=. by heap_simpl. }
  pose proof (ring_null _ _ Hr1) as Hnull.
  assert (NULL ∉ l ++ ancs) as Hnull' by set_solver.
  assert (first_match w1 (take k p) (l ++ ancs) ≠ NULL) as Ha
    by by apply first_match_exists.
  assert (first_match w' (take k p) ((l ++ ancs) ++ [r])
          = first_match w1 (take k p) (l ++ ancs)) as Hfm.
  { rewrite (first_match_ext w1 w') //. by rewrite first_match_app_found. }
  destruct (first_match_found _ _ _ Ha) as [Hin Hpa].
  revert Ha Hfm Hin Hpa. generalize (first_match w1 (take k p) (l ++ ancs)).
  intros a Ha Hfm Hin Hpa.
  assert (a ∉ l) as Hal.
  { intros Hin'. pose proof (ring_null _ _ Hr) as Hn.
    pose proof (proj1 (first_match_null _ _ _ Hn) Hfk a Hin') as E.
    rewrite -(same_entries_path _ _ _ _ Hs1 Hin') in E. congruence. }
  assert (a ≠ r) as Har by (intros ->; done).
  assert (value_of w' a = None) as Hv.
  { rewrite /value_of /w' /=. heap_simpl.
    assert (a ∈ (l ++ ancs) ++ [r]) as Hin' by set_solver.
    destruct (store_ok_alive _ _ _ (ring_store_ok _ _ Hr1) Hin') as [e He].
    rewrite /vl He /=. destruct (e_value e) as [v|] eqn:Ev; [|done].
    exfalso. apply Hal.
    apply (store_ok_elem _ _ _ (ring_store_ok _ _ Hr)).
    pose proof Hr as [_ [rest El]].
    assert (ring w ([] ++ head w :: rest)) as Hr2 by by rewrite /= -El.
    pose proof (aug_entry_make_no_new_values _ _ _ _ _ _ _ Hr2 Hmk a v) as Hnv.
    apply (fmap_is_Some e_value). rewrite -/(vl _ _) Hnv; [by eexists|].
    by rewrite /vl He /= Ev. }
  split.
  - by rewrite (aug_exists_spec _ _ _ Hr') Hfm bool_decide_eq_true_2.
  - rewrite (aug_get_spec _ _ _ Hr') Hfm. case_decide; [done|]. by rewrite Hv.
Qed.

Lemma aug_set_ancestors_have_no_value_witness :
  ring store_b [1; 2; 3]%N ∧ str "/a/b/c" ≠ []
  ∧ aug_exists (str "/a/b/c") store_b = Some false
  ∧ 1 ≤ 4 < pathlen (str "/a/b/c") ∧ char_at (str "/a/b/c") 4 = SEP
  ∧ aug_exists (take 4 (str "/a/b/c")) store_b = Some false
  ∧ aug_set (str "/a/b/c") (str "x") store_b
    = Some (0%Z, after (aug_set (str "/a/b/c") (str "x")) store_b)
  ∧ aug_exists (take 4 (str "/a/b/c"))
      (after (aug_set (str "/a/b/c") (str "x")) store_b) = Some true
  ∧ aug_get (take 4 (str "/a/b/c"))
      (after (aug_set (str "/a/b/c") (str "x")) store_b) = Some None.
Proof.
  assert (ring store_b [1; 2; 3]%N) as H1 by ring_compute.
  assert (str "/a/b/c" ≠ []) as H2 by done.
  assert (aug_exists (str "/a/b/c") store_b = Some false) as H3
    by (vm_compute; reflexivity).
  assert (1 ≤ 4 < pathlen (str "/a/b/c")) as H4 by (vm_compute; lia).
  assert (char_at (str "/a/b/c") 4 = SEP) as H5 by done.
  assert (aug_exists (take 4 (str "/a/b/c")) store_b = Some false) as H6
    by (vm_compute; reflexivity).
  assert (aug_set (str "/a/b/c") (str "x") store_b
          = Some (0%Z, after (aug_set (str "/a/b/c") (str "x")) store_b)) as H7
    by (vm_compute; reflexivity).
  split; [exact H1|]. split; [exact H2|]. split; [exact H3|].
  split; [exact H4|]. split; [exact H5|]. split; [exact H6|].
  split; [exact H7|].
  exact (aug_set_ancestors_have_no_value store_b _ [1; 2; 3]%N
           (str "/a/b/c") (str "x") 4 H1 H2 H3 H4 H5 H6 H7).
Defined.

(** ** The sentinels and the ring on a well-formed store *)

(** From a well-formed store, or from the store before the first
    [aug_init] for that call, and with providers that keep the store
    well formed, every public operation that returns success leaves the
    two sentinel entries [/system] and [/system/config] in the store;
    and a following [aug_rm], whatever its path (in particular [/system]
    or [/system/config]), returns, removes neither sentinel entry and
    leaves a store that still holds both. *)
Theorem sentinels_kept_by_operations (providers : list aug_provider)
    (c : api_call) (w : world) (r : api_ret) (w' : world) :
  Forall provider_ok providers →
  callable c w → exec providers c w = Some (r, w') → succeeded r →
  has_sentinels w'
  ∧ ∀ path, ∃ n w'', aug_rm path w' = Some (n, w'') ∧ has_sentinels w''
      ∧ ∀ a e, heap w' !! a = Some e →
               e_path e = P_SYSTEM ∨ e_path e = P_SYSTEM_CONFIG →
               pth (heap w'') a = Some (e_path e).
Proof.
  intros Hp Hc Hex Hok.
  pose proof (exec_preserves_inv _ _ _ _ _ Hp Hc Hex Hok) as Hinv.
  split; [by apply inv_has_sentinels|]. intros path.
  destruct (aug_rm_keeps_sentinels w' path Hinv) as (n & w'' & E & Hinv' & Hkeep).
  exists n, w''. split_and!; [done|by apply inv_has_sentinels|done].
Qed.

Lemma sentinels_kept_by_operations_witness :
  Forall provider_ok [demo_provider] ∧ callable CInit (boot []) ∧
  exec [demo_provider] CInit (boot []) = Some (RStatus 0%Z, demo_store) ∧
  succeeded (RStatus 0%Z) ∧
  has_sentinels demo_store
  ∧ ∀ path, ∃ n w'', aug_rm path demo_store = Some (n, w'')
      ∧ has_sentinels w''
      ∧ ∀ a e, heap demo_store !! a = Some e →
               e_path e = P_SYSTEM ∨ e_path e = P_SYSTEM_CONFIG →
               pth (heap w'') a = Some (e_path e).
Proof.
  assert (Forall provider_ok [demo_provider]) as H1.
  { constructor; [apply demo_provider_ok|constructor]. }
  assert (callable CInit (boot [])) as H2 by (right; done).
  assert (exec [demo_provider] CInit (boot [])
          = Some (RStatus 0%Z, demo_store)) as H3 by (vm_compute; reflexivity).
  assert (succeeded (RStatus 0%Z)) as H4 by done.
  split_and!; [done..| |];
    apply (sentinels_kept_by_operations [demo_provider] CInit (boot [])
             (RStatus 0%Z) demo_store H1 H2 H3 H4).
Defined.

(** From a well-formed store, or from the store before the first
    [aug_init] for that call, and with providers that keep the store
    well formed, every public operation that returns success leaves the
    entry list circular and well-formed: from any entry, following [next]
    visits every entry exactly once before returning to it, and
    [e->prev->next == e] and [e->next->prev == e] for every entry [e].
    In particular, when [aug_insert] has moved an existing entry, that
    entry is linked immediately before the sibling. *)
Theorem ring_kept_by_operations (providers : list aug_provider)
    (c : api_call) (w : world) (r : api_ret) (w' : world) :
  Forall provider_ok providers →
  callable c w → exec providers c w = Some (r, w') → succeeded r →
  well_linked w'
  ∧ ∀ path sibling p,
      c = CInsert path sibling → aug_entry_find path w = Some p → p ≠ NULL →
      ∃ s, aug_entry_find sibling w = Some s ∧ s ≠ NULL
           ∧ linked (heap w') p s.
Proof.
  intros Hp Hc Hex Hok.
  pose proof (exec_preserves_inv _ _ _ _ _ Hp Hc Hex Hok) as Hinv.
  split; [by apply inv_well_linked|].
  intros path sibling p -> Hfind Hnn.
  destruct Hc as [(l & Hr & _)|[_ [=]]].
  rewrite (aug_entry_find_spec _ _ _ Hr) in Hfind. injection Hfind as <-.
  simpl in Hex. apply bind_inv in Hex as (x & Hex & ->). simpl in Hok.
  destruct (aug_insert_existing _ _ _ _ _ _ Hr Hnn Hex Hok) as [Hs Hl].
  exists (first_match w sibling l).
  by rewrite (aug_entry_find_spec _ _ _ Hr).
Qed.

Lemma ring_kept_by_operations_witness :
  Forall provider_ok [demo_provider] ∧ callable
    (CInsert (str "/a/c") (str "/a/b")) store_a_b_c ∧
  exec [demo_provider] (CInsert (str "/a/c") (str "/a/b")) store_a_b_c
  = Some (RStatus 0%Z, store_c_before_b) ∧
  succeeded (RStatus 0%Z) ∧
  well_linked store_c_before_b
  ∧ ∀ path sibling p,
      CInsert (str "/a/c") (str "/a/b") = CInsert path sibling →
      aug_entry_find path store_a_b_c = Some p → p ≠ NULL →
      ∃ s, aug_entry_find sibling store_a_b_c = Some s ∧ s ≠ NULL
           ∧ linked (heap store_c_before_b) p s.
Proof.
  assert (Forall provider_ok [demo_provider]) as H1.
  { constructor; [apply demo_provider_ok|constructor]. }
  assert (callable (CInsert (str "/a/c") (str "/a/b")) store_a_b_c) as H2.
  { left. apply store_a_b_c_inv. }
  assert (exec [demo_provider] (CInsert (str "/a/c") (str "/a/b")) store_a_b_c
          = Some (RStatus 0%Z, store_c_before_b)) as H3 by (vm_compute; reflexivity).
  assert (succeeded (RStatus 0%Z)) as H4 by done.
  split_and!; [done..| |];
    apply (ring_kept_by_operations [demo_provider]
             (CInsert (str "/a/c") (str "/a/b")) store_a_b_c
             (RStatus 0%Z) store_c_before_b H1 H2 H3 H4).
Defined.
